(** * neiro: a shallow embedding of the audio core and its specification

    The TypeScript sources are embedded function by function.

    - A JavaScript [number] is an IEEE-754 binary64 value: Rocq's primitive
      [float].  Arithmetic, [Math.abs] and the comparisons are the primitive
      operations; [Math.fround], [Math.floor], [Math.round] and the integer
      conversions of ECMA-262 are defined below through [Prim2SF].
    - A [Float32Array] is a list of numbers; every store rounds to binary32
      ([Math.fround]), reads outside the array give [undefined] (NaN once
      used as a number) and stores outside the array are ignored.
    - [new Float32Array(x)] for a computed number [x] asks the host for a
      data block, which the host may refuse with a [RangeError]; the code
      that allocates this way ([changeSpeed], [AudioTrack.silence]) takes
      the largest length that the host grants as a parameter, [capacity],
      about which nothing is assumed.
    - [Math.pow], [Math.log10] and [Math.sin] are implementation-approximated
      host functions (ECMA-262, 21.3.2): the DSP code is parametric in them.
    - Exceptions are values of [error]; operations that can throw return a
      [result].
    - The WAV codec works on bytes and 16-bit integers; it is embedded over
      [Z] and exact rationals (module [Wav]). *)

From Stdlib Require Import ZArith QArith Qround Qabs Qminmax List Bool Lia Floats Uint63.
Import ListNotations.

#[local] Set Warnings "-inexact-float".
#[local] Open Scope float_scope.

(* ================================================================== *)
(** * Exceptions *)

(** The error conditions of the library.  [SampleRateMismatch] and
    [InvalidSpeedRate] are the conditions announced in the API
    documentation; [RangeError] and [TypeError] are the built-in exceptions
    of the host. *)
Inductive error : Set :=
| UnsupportedSampleRate
| ChannelCountMismatch
| SampleRateMismatch
| ChannelIndexOutOfRange
| InvalidSpeedRate
| InvalidWav
| RangeError
| TypeError.

(** The outcome of a call: a value, an exception, or a loop that never
    exits. *)
Inductive result (A : Type) : Type :=
| Ok (a : A)
| Throw (e : error)
| Diverge.
Arguments Ok {A} a.
Arguments Throw {A} e.
Arguments Diverge {A}.

Definition bind {A B} (r : result A) (k : A -> result B) : result B :=
  match r with
  | Ok a => k a
  | Throw e => Throw e
  | Diverge => Diverge
  end.

Notation "x <- r ;; k" := (bind r (fun x => k))
  (at level 61, r at next level, right associativity).

(** [for (let i = start; i < start + n; i++) body], threading a state. *)
Fixpoint for_range {S : Type} (n start : nat) (body : nat -> S -> S) (s : S) : S :=
  match n with
  | O => s
  | Datatypes.S n' => for_range n' (Datatypes.S start) body (body start s)
  end.

(** The same loop with a body that may throw. *)
Fixpoint for_rangeM {S : Type} (n start : nat) (body : nat -> S -> result S) (s : S)
  : result S :=
  match n with
  | O => Ok s
  | Datatypes.S n' =>
      s' <- body start s ;;
      for_rangeM n' (Datatypes.S start) body s'
  end.

(** [xs.map(f)] where [f] may throw. *)
Fixpoint mapM {A B : Type} (f : A -> result B) (xs : list A) : result (list B) :=
  match xs with
  | [] => Ok []
  | x :: xs' =>
      y <- f x ;;
      ys <- mapM f xs' ;;
      Ok (y :: ys)
  end.

(* ================================================================== *)
(** * ECMAScript numbers *)

Module JS.

(** The number with integer value [z] (exact for [|z| < 2^53]). *)
Definition of_Z (z : Z) : float :=
  match z with
  | Z0 => 0
  | Zpos _ => of_uint63 (Uint63.of_Z z)
  | Zneg p => - of_uint63 (Uint63.of_Z (Zpos p))
  end.

Definition of_nat (n : nat) : float := of_Z (Z.of_nat n).

(** [Math.fround]: round to the nearest binary32 value. *)
Definition fround (x : float) : float :=
  SF2Prim (SFmul 24 128 (Prim2SF x) (S754_finite false 1 0)).

(** [Math.floor]. *)
Definition floor (x : float) : float :=
  match Prim2SF x with
  | S754_finite s m e =>
      if (0 <=? e)%Z then x
      else
        let q := Z.shiftr (Zpos m) (- e) in
        if (Z.shiftl q (- e) =? Zpos m)%Z then x
        else if s then of_Z (- (q + 1))
             else of_Z q
  | _ => x
  end.

(** [Math.round]: nearest integer, ties towards +Infinity; the result
    keeps the sign of [x] when it is zero. *)
Definition round (x : float) : float :=
  match Prim2SF x with
  | S754_finite s m e =>
      if (0 <=? e)%Z then x
      else
        let d := Z.shiftl 1 (- e) in
        let n := if s then Zneg m else Zpos m in
        let r := ((2 * n + d) / (2 * d))%Z in
        if (r =? 0)%Z then (if s then (-0) else 0) else of_Z r
  | _ => x
  end.

(** [Math.max] and [Math.min] of two arguments. *)
Definition max (a b : float) : float :=
  if is_nan a || is_nan b then nan
  else if a <? b then b
  else if b <? a then a
  else if get_sign a then b else a.

Definition min (a b : float) : float :=
  if is_nan a || is_nan b then nan
  else if a <? b then a
  else if b <? a then b
  else if get_sign a then a else b.

(** ToIntegerOrInfinity (ECMA-262, 7.1.5): truncation towards zero. *)
Inductive integerOrInfinity : Set :=
| NegInfinity
| Integer (z : Z)
| PosInfinity.

Definition ToIntegerOrInfinity (x : float) : integerOrInfinity :=
  match Prim2SF x with
  | S754_nan => Integer 0
  | S754_zero _ => Integer 0
  | S754_infinity s => if s then NegInfinity else PosInfinity
  | S754_finite s m e =>
      let t := if (0 <=? e)%Z then Z.shiftl (Zpos m) e
               else Z.shiftr (Zpos m) (- e) in
      Integer (if s then (- t)%Z else t)
  end.

(** ToIndex (7.1.22), the conversion of a typed-array length. *)
Definition ToIndex (x : float) : result nat :=
  match ToIntegerOrInfinity x with
  | Integer z =>
      if ((0 <=? z) && (z <=? 2 ^ 53 - 1))%Z then Ok (Z.to_nat z)
      else Throw RangeError
  | _ => Throw RangeError
  end.

End JS.

(* ================================================================== *)
(** * Typed arrays *)

Definition Float32Array : Set := list float.

Module F32.

(** [new Float32Array(length)]: zero-filled.  The length is converted by
    ToIndex; the data block of [4 * n] bytes is then created by the host
    (ECMA-262, 6.2.9.1 CreateByteDataBlock), which throws a [RangeError]
    when the size exceeds 2^53 - 1 or when it cannot create the block.
    What a host can create is its own business: [capacity] is the largest
    number of elements it grants. *)
Definition alloc (capacity : nat) (length : float) : result Float32Array :=
  n <- JS.ToIndex length ;;
  if ((4 * Z.of_nat n <=? 2 ^ 53 - 1)%Z && (n <=? capacity)%nat)%bool
  then Ok (repeat 0 n)
  else Throw RangeError.

(** [new Float32Array(n)] for a length that is already an array length. *)
Definition zeros (n : nat) : Float32Array := repeat 0 n.

(** [a[i]], used as a number: [undefined] becomes NaN. *)
Definition get (a : Float32Array) (i : nat) : float := nth i a nan.

(** [a[i] = v]: rounds to binary32; ignored outside the array. *)
Definition set (a : Float32Array) (i : nat) (v : float) : Float32Array :=
  if (i <? length a)%nat
  then firstn i a ++ JS.fround v :: skipn (Datatypes.S i) a
  else a.

(** [new Float32Array(a)] and [Float32Array.from(a)]: a copy with the same
    elements. *)
Definition copy (a : Float32Array) : Float32Array := a.

(** [a[x]] for a number [x] used as a property key: an element when [x] is
    an integer index of the array ([-0] is the key "0"), [undefined]
    otherwise. *)
Definition get_num (a : Float32Array) (x : float) : float :=
  match Prim2SF x with
  | S754_zero _ => get a 0
  | S754_finite false m e =>
      if (0 <=? e)%Z then get a (Z.to_nat (Z.shiftl (Zpos m) e))
      else
        let q := Z.shiftr (Zpos m) (- e) in
        if (Z.shiftl q (- e) =? Zpos m)%Z then get a (Z.to_nat q) else nan
  | _ => nan
  end.

(** An argument of [slice] as an index: negative values count from the
    end, and the result is clamped to the array (ECMA-262, 23.2.3.27). *)
Definition relative_index (len : nat) (x : float) : nat :=
  match JS.ToIntegerOrInfinity x with
  | JS.NegInfinity => 0
  | JS.PosInfinity => len
  | JS.Integer z =>
      if (z <? 0)%Z then Z.to_nat (Z.max (Z.of_nat len + z) 0)
      else Z.to_nat (Z.min z (Z.of_nat len))
  end.

(** [a.slice(start, end)]. *)
Definition slice (a : Float32Array) (start end_ : float) : Float32Array :=
  let k := relative_index (length a) start in
  let final := relative_index (length a) end_ in
  firstn (final - k) (skipn k a).

End F32.

(* ================================================================== *)
(** * src/dsp/biquad-filter.ts *)

Module Biquad.

Record BiquadCoefficients : Set := mkCoeffs {
  b0 : float; b1 : float; b2 : float;
  a0 : float; a1 : float; a2 : float
}.

(** The private fields of the class: normalized coefficients and the
    Direct-Form-I state. *)
Record BiquadFilter : Set := mkFilter {
  f_b0 : float; f_b1 : float; f_b2 : float;
  f_a1 : float; f_a2 : float;
  x1 : float; x2 : float; y1 : float; y2 : float
}.

Definition new (coeffs : BiquadCoefficients) : BiquadFilter :=
  let a0 := a0 coeffs in
  {| f_b0 := b0 coeffs / a0;
     f_b1 := b1 coeffs / a0;
     f_b2 := b2 coeffs / a0;
     f_a1 := a1 coeffs / a0;
     f_a2 := a2 coeffs / a0;
     x1 := 0; x2 := 0; y1 := 0; y2 := 0 |}.

(** [process(x)]: the updated filter and the returned number. *)
Definition process (f : BiquadFilter) (x : float) : BiquadFilter * float :=
  let y :=
    f_b0 f * x +
    f_b1 f * x1 f +
    f_b2 f * x2 f -
    f_a1 f * y1 f -
    f_a2 f * y2 f in
  ({| f_b0 := f_b0 f; f_b1 := f_b1 f; f_b2 := f_b2 f;
      f_a1 := f_a1 f; f_a2 := f_a2 f;
      x2 := x1 f;
      x1 := x;
      y2 := y1 f;
      y1 := y |}, y).

Definition processBuffer (f : BiquadFilter) (input : Float32Array)
  : BiquadFilter * Float32Array :=
  let output := F32.zeros (length input) in
  for_range (length input) 0
    (fun i '(f, output) =>
       let '(f', y) := process f (F32.get input i) in
       (f', F32.set output i y))
    (f, output).

Definition reset (f : BiquadFilter) : BiquadFilter :=
  {| f_b0 := f_b0 f; f_b1 := f_b1 f; f_b2 := f_b2 f;
     f_a1 := f_a1 f; f_a2 := f_a2 f;
     x1 := 0; x2 := 0; y1 := 0; y2 := 0 |}.

(** Sequential processing: the numbers returned by calling [process] on
    the elements of [xs] one after the other, and the final filter. *)
Fixpoint process_calls (f : BiquadFilter) (xs : list float)
  : BiquadFilter * list float :=
  match xs with
  | [] => (f, [])
  | x :: xs' =>
      let '(f', y) := process f x in
      let '(f'', ys) := process_calls f' xs' in
      (f'', y :: ys)
  end.

End Biquad.

(* ================================================================== *)
(** * Host functions *)

(** The implementation-approximated functions of [Math] that the library
    calls.  Nothing is assumed about them. *)
Record Host : Set := mkHost {
  Math_pow : float -> float -> float;
  Math_log10 : float -> float;
  Math_sin : float -> float
}.

Definition Math_PI : float := 3.141592653589793.

(* ================================================================== *)
(** * src/dsp/utils.ts *)

Definition dbToLinear (host : Host) (db : float) : float :=
  if db =? neg_infinity then 0
  else Math_pow host 10 (db / 20).

Definition linearToDb (host : Host) (linear : float) : float :=
  if linear <=? 0 then neg_infinity
  else 20 * Math_log10 host linear.

(* ================================================================== *)
(** * src/dsp/k-weighting.ts *)

Module KWeighting.
Import Biquad.

Definition PREFILTER_48000 : BiquadCoefficients :=
  {| b0 := 1.53512485958697;
     b1 := -2.69169618940638;
     b2 := 1.19839281085285;
     a0 := 1.0;
     a1 := -1.69065929318241;
     a2 := 0.73248077421585 |}.

Definition RLB_48000 : BiquadCoefficients :=
  {| b0 := 1.0;
     b1 := -2.0;
     b2 := 1.0;
     a0 := 1.0;
     a1 := -1.99004745483398;
     a2 := 0.99007225036621 |}.

Definition PREFILTER_44100 : BiquadCoefficients :=
  {| b0 := 1.5308412300498355;
     b1 := -2.6509799951536985;
     b2 := 1.1690790799210682;
     a0 := 1.0;
     a1 := -1.6636551132560204;
     a2 := 0.7125954280732254 |}.

Definition RLB_44100 : BiquadCoefficients :=
  {| b0 := 1.0;
     b1 := -2.0;
     b2 := 1.0;
     a0 := 1.0;
     a1 := -1.9891696736297957;
     a2 := 0.9891990357870394 |}.

Record KWeightingFilters : Set := mkFilters {
  preFilter : BiquadFilter;
  rlbFilter : BiquadFilter
}.

Definition createKWeightingFilters (sampleRate : float) : result KWeightingFilters :=
  coeffs <-
    (if sampleRate =? 48000 then Ok (PREFILTER_48000, RLB_48000)
     else if sampleRate =? 44100 then Ok (PREFILTER_44100, RLB_44100)
     else Throw UnsupportedSampleRate) ;;
  Ok {| preFilter := Biquad.new (fst coeffs);
        rlbFilter := Biquad.new (snd coeffs) |}.

Definition applyKWeighting (samples : Float32Array) (sampleRate : float)
  : result Float32Array :=
  filters <- createKWeightingFilters sampleRate ;;
  let afterPre := snd (processBuffer (preFilter filters) samples) in
  let afterRlb := snd (processBuffer (rlbFilter filters) afterPre) in
  Ok afterRlb.

Definition getChannelWeight (channelIndex totalChannels : nat) : float :=
  if (totalChannels <=? 2)%nat then 1.0
  else if (totalChannels =? 6)%nat then
    if (channelIndex =? 3)%nat then 0.0
    else if (channelIndex =? 4)%nat || (channelIndex =? 5)%nat
         then 1.41253754462275
         else 1.0
  else 1.0.

End KWeighting.

(* ================================================================== *)
(** * src/dsp/lufs.ts *)

Module Lufs.
Import KWeighting.

Definition ABSOLUTE_GATE_LUFS : float := -70.
Definition RELATIVE_GATE_LU : float := -10.
Definition BLOCK_DURATION_SEC : float := 0.4.
Definition OVERLAP_RATIO : float := 0.75.

Definition meanSquareToLufs (host : Host) (meanSquare : float) : float :=
  if meanSquare <=? 0 then neg_infinity
  else -0.691 + 10 * Math_log10 host meanSquare.

Definition lufsToMeanSquare (host : Host) (lufs : float) : float :=
  Math_pow host 10 ((lufs + 0.691) / 10).

(** The body of the [start] loop: the weighted mean square of the block
    that begins at [start].  [blockSize] is the number the code divides
    by, [size] the same value as a loop bound. *)
Definition blockPower (channels : list Float32Array) (weights : list float)
    (blockSize : float) (size start : nat) : float :=
  for_range (length channels) 0
    (fun ch weightedSum =>
       let weight := nth ch weights nan in
       if weight =? 0 then weightedSum
       else
         let channel := nth ch channels [] in
         let channelSum :=
           for_range size start
             (fun i channelSum =>
                let sample := F32.get channel i in
                channelSum + sample * sample)
             0 in
         weightedSum + weight * (channelSum / blockSize))
    0.

(** [for (start = 0; start + blockSize <= numSamples; start += hopSize)]
    for a positive [hopSize]. *)
Fixpoint blocks_loop (fuel : nat) (block : nat -> float)
    (blockSize hopSize numSamples start : Z) : list float :=
  match fuel with
  | O => []
  | S fuel' =>
      if (start + blockSize <=? numSamples)%Z
      then block (Z.to_nat start)
           :: blocks_loop fuel' block blockSize hopSize numSamples (start + hopSize)
      else []
  end.

(** The loop over [start] never exits when [hopSize] is not positive;
    [blockSize] and [hopSize] are values of [Math.floor]: integers, NaN or
    infinite. *)
Definition calculateBlockMeanSquares (channels : list Float32Array)
    (sampleRate : float) : result (list float) :=
  let blockSize := JS.floor (BLOCK_DURATION_SEC * sampleRate) in
  let hopSize := JS.floor (blockSize * (1 - OVERLAP_RATIO)) in
  let numChannels := length channels in
  match channels with
  | [] => Throw TypeError
  | channel0 :: _ =>
      let numSamples := length channel0 in
      if is_nan blockSize then Ok []
      else
        match JS.ToIntegerOrInfinity blockSize with
        | JS.PosInfinity => Ok []
        | JS.NegInfinity => Diverge
        | JS.Integer size =>
            if (Z.of_nat numSamples <? size)%Z then Ok []
            else
              let weights :=
                map (fun ch => getChannelWeight ch numChannels) (seq 0 numChannels) in
              let block := blockPower channels weights blockSize (Z.to_nat size) in
              if is_nan hopSize then Ok [block O]
              else
                match JS.ToIntegerOrInfinity hopSize with
                | JS.PosInfinity => Ok [block O]
                | JS.NegInfinity => Diverge
                | JS.Integer hop =>
                    if (hop <=? 0)%Z then Diverge
                    else Ok (blocks_loop (S numSamples) block size hop
                               (Z.of_nat numSamples) 0)
                end
        end
  end.

(** [let total = 0; for (const ms of blocks) total += ms]. *)
Definition sum (blocks : list float) : float :=
  fold_left (fun total ms => total + ms) blocks 0.

Definition applyGating (host : Host) (blockMeanSquares : list float) : float :=
  match blockMeanSquares with
  | [] => 0
  | _ =>
      let absoluteThreshold := lufsToMeanSquare host ABSOLUTE_GATE_LUFS in
      let afterAbsolute :=
        filter (fun ms => absoluteThreshold <? ms) blockMeanSquares in
      match afterAbsolute with
      | [] => 0
      | _ =>
          let absoluteSum := sum afterAbsolute in
          let absoluteMean := absoluteSum / JS.of_nat (length afterAbsolute) in
          let relativeLufs := meanSquareToLufs host absoluteMean + RELATIVE_GATE_LU in
          let relativeThreshold := lufsToMeanSquare host relativeLufs in
          let afterRelative :=
            filter (fun ms => relativeThreshold <? ms) afterAbsolute in
          match afterRelative with
          | [] => 0
          | _ => sum afterRelative / JS.of_nat (length afterRelative)
          end
      end
  end.

Definition calculateIntegratedLoudness (host : Host) (channels : list Float32Array)
    (sampleRate : float) : result float :=
  match channels with
  | [] => Ok neg_infinity
  | _ =>
      kWeighted <- mapM (fun channel => applyKWeighting channel sampleRate) channels ;;
      blockMeanSquares <- calculateBlockMeanSquares kWeighted sampleRate ;;
      match blockMeanSquares with
      | [] => Ok neg_infinity
      | _ =>
          let integratedMeanSquare := applyGating host blockMeanSquares in
          if integratedMeanSquare =? 0 then Ok neg_infinity
          else Ok (meanSquareToLufs host integratedMeanSquare)
      end
  end.

(** The mono and stereo wrapper; [rightChannel] is [null] for mono. *)
Definition measureLUFS (host : Host) (leftChannel : Float32Array)
    (rightChannel : option Float32Array) (sampleRate : float) : result float :=
  let channels := [leftChannel] in
  let channels :=
    match rightChannel with
    | Some channel => channels ++ [channel]
    | None => channels
    end in
  calculateIntegratedLoudness host channels sampleRate.

End Lufs.

(* ================================================================== *)
(** * src/dsp/true-peak.ts *)

Module TruePeak.

Definition OVERSAMPLING_FACTOR : nat := 4.
Definition FIR_TAPS_PER_PHASE : nat := 12.
Definition TOTAL_TAPS : nat := OVERSAMPLING_FACTOR * FIR_TAPS_PER_PHASE.

(** The loop [for (k = 1; k <= 20; k++)] of [besselI0], with its [break]. *)
Fixpoint besselI0_loop (fuel k : nat) (halfX sum term : float) : float :=
  match fuel with
  | O => sum
  | S fuel' =>
      let term := term * ((halfX / JS.of_nat k) * (halfX / JS.of_nat k)) in
      let sum := sum + term in
      if term <? 1e-12 * sum then sum
      else besselI0_loop fuel' (S k) halfX sum term
  end.

Definition besselI0 (x : float) : float :=
  besselI0_loop 20 1 (x / 2) 1.0 1.0.

Definition generatePolyphaseCoefficients (host : Host) : list (list float) :=
  let L := JS.of_nat OVERSAMPLING_FACTOR in
  let sincCenter := JS.round ((JS.of_nat TOTAL_TAPS - 1) / 2 / L) * L in
  let windowCenter := (JS.of_nat TOTAL_TAPS - 1) / 2 in
  let beta := 5.0 in
  let i0Beta := besselI0 beta in
  let prototype :=
    map (fun n =>
           let x := (JS.of_nat n - sincCenter) / L in
           let sinc :=
             if PrimFloat.abs x <? 1e-10 then 1.0
             else Math_sin host (Math_PI * x) / (Math_PI * x) in
           let windowArg := (JS.of_nat n - windowCenter) / windowCenter in
           let sqVal := 1 - windowArg * windowArg in
           let window :=
             if sqVal <=? 0 then 0
             else besselI0 (beta * PrimFloat.sqrt sqVal) / i0Beta in
           sinc * window)
        (seq 0 TOTAL_TAPS) in
  let phases :=
    map (fun p =>
           map (fun k => nth (k * OVERSAMPLING_FACTOR + p) prototype nan)
               (seq 0 FIR_TAPS_PER_PHASE))
        (seq 0 OVERSAMPLING_FACTOR) in
  map (fun phase =>
         let sum := fold_left (fun sum c => sum + c) phase 0 in
         map (fun c => c / sum) phase)
      phases.

(** Computed once, when the module is loaded. *)
Definition PHASES (host : Host) : list (list float) :=
  generatePolyphaseCoefficients host.

Definition measureTruePeak (host : Host) (samples : Float32Array)
    (_sampleRate : float) : float :=
  let length := length samples in
  if (length =? 0)%nat then 0
  else
    for_range length 0
      (fun n maxPeak =>
         let rawAbs := PrimFloat.abs (F32.get samples n) in
         let maxPeak := if maxPeak <? rawAbs then rawAbs else maxPeak in
         if (n <? FIR_TAPS_PER_PHASE - 1)%nat then maxPeak
         else
           for_range OVERSAMPLING_FACTOR 0
             (fun p maxPeak =>
                let phase := nth p (PHASES host) [] in
                let sum :=
                  for_range FIR_TAPS_PER_PHASE 0
                    (fun k sum => sum + nth k phase nan * F32.get samples (n - k))
                    0 in
                let absValue := PrimFloat.abs sum in
                if maxPeak <? absValue then absValue else maxPeak)
             maxPeak)
      0.

Definition measureTruePeakStereo (host : Host) (left right : Float32Array)
    (sampleRate : float) : float :=
  let leftPeak := measureTruePeak host left sampleRate in
  let rightPeak := measureTruePeak host right sampleRate in
  JS.max leftPeak rightPeak.

End TruePeak.

(* ================================================================== *)
(** * src/transforms *)

Module Transforms.
Import Lufs TruePeak.

(** ** concat.ts *)

(** [a.map((aCh, i) => ...)]: reading [bCh.length] throws a [TypeError]
    when [b] has no channel [i]. *)
Fixpoint concatChannels_from (i : nat) (a b : list Float32Array)
  : result (list Float32Array) :=
  match a with
  | [] => Ok []
  | aCh :: a' =>
      match nth_error b i with
      | None => Throw TypeError
      | Some bCh =>
          let out := F32.copy aCh ++ F32.copy bCh in
          rest <- concatChannels_from (S i) a' b ;;
          Ok (out :: rest)
      end
  end.

Definition concatChannels (a b : list Float32Array) : result (list Float32Array) :=
  concatChannels_from 0 a b.

(** ** mix.ts *)

Definition mixChannel (gain : float) (aCh bCh : Float32Array) : Float32Array :=
  let length := Nat.max (length aCh) (length bCh) in
  for_range length 0
    (fun j out =>
       let aVal := if (j <? List.length aCh)%nat then F32.get aCh j else 0 in
       let bVal := if (j <? List.length bCh)%nat then F32.get bCh j * gain else 0 in
       F32.set out j (aVal + bVal))
    (F32.zeros length).

Fixpoint mixChannels_from (i : nat) (gain : float) (a b : list Float32Array)
  : result (list Float32Array) :=
  match a with
  | [] => Ok []
  | aCh :: a' =>
      match nth_error b i with
      | None => Throw TypeError
      | Some bCh =>
          let out := mixChannel gain aCh bCh in
          rest <- mixChannels_from (S i) gain a' b ;;
          Ok (out :: rest)
      end
  end.

Definition mixChannels (host : Host) (a b : list Float32Array) (gainDb : option float)
  : result (list Float32Array) :=
  let gainDb := match gainDb with Some g => g | None => 0 end in
  let gain := dbToLinear host gainDb in
  mixChannels_from 0 gain a b.

(** ** speed.ts *)

Definition changeSpeedChannel (capacity : nat) (rate : float) (ch : Float32Array)
  : result Float32Array :=
  let newLength := JS.round (JS.of_nat (length ch) / rate) in
  out <- F32.alloc capacity newLength ;;
  Ok (for_range (length out) 0
        (fun i out =>
           let srcIndex := JS.of_nat i * rate in
           let idx0 := JS.floor srcIndex in
           let idx1 := JS.min (idx0 + 1) (JS.of_nat (length ch) - 1) in
           let frac := srcIndex - idx0 in
           F32.set out i
             (F32.get_num ch idx0 * (1 - frac) + F32.get_num ch idx1 * frac))
        out).

Definition changeSpeed (capacity : nat) (channels : list Float32Array) (rate : float)
  : result (list Float32Array) :=
  mapM (changeSpeedChannel capacity rate) channels.

(** ** Optional arguments: [options?.field ?? fallback] *)

Definition optional {O A : Type} (options : option O) (field : O -> option A)
  : option A :=
  match options with
  | Some o => field o
  | None => None
  end.

Definition nullish (value : option float) (fallback : float) : float :=
  match value with
  | Some v => v
  | None => fallback
  end.

(** [channels.map(ch => { out[i] = ch[i] * gainLinear })], shared by
    gain.ts and normalize.ts. *)
Definition scaleChannel (multiplier : float) (ch : Float32Array) : Float32Array :=
  for_range (length ch) 0
    (fun i out => F32.set out i (F32.get ch i * multiplier))
    (F32.zeros (length ch)).

(** ** gain.ts *)

Definition applyGain (host : Host) (channels : list Float32Array) (gainDb : float)
  : list Float32Array :=
  let multiplier := dbToLinear host gainDb in
  map (scaleChannel multiplier) channels.

(** ** trim-silence.ts *)

Record TrimOptions : Set := mkTrimOptions {
  threshold : option float;
  headMs : option float;
  tailMs : option float
}.

(** The inner loop over the channels, with its [break]. *)
Definition aboveThreshold (channels : list Float32Array) (threshold : float)
    (i : nat) : bool :=
  existsb (fun ch => threshold <? PrimFloat.abs (F32.get ch i)) channels.

(** [for (i = 0; i < numSamples; i++)] until the first index above the
    threshold; [start] keeps its initial value 0 when there is none. *)
Fixpoint findStart (channels : list Float32Array) (threshold : float)
    (fuel i : nat) : Z :=
  match fuel with
  | O => 0%Z
  | S fuel' =>
      if aboveThreshold channels threshold i then Z.of_nat i
      else findStart channels threshold fuel' (S i)
  end.

(** [for (i = numSamples - 1; i >= 0; i--)]; [bound] is [i + 1] and [end]
    keeps its initial value [numSamples - 1] when no index is found. *)
Fixpoint findEnd (channels : list Float32Array) (threshold : float)
    (numSamples : nat) (bound : nat) : Z :=
  match bound with
  | O => (Z.of_nat numSamples - 1)%Z
  | S i =>
      if aboveThreshold channels threshold i then Z.of_nat i
      else findEnd channels threshold numSamples i
  end.

Definition trimSilence (channels : list Float32Array) (sampleRate : float)
    (options : option TrimOptions) : result (list Float32Array) :=
  let threshold := nullish (optional options threshold) 0.01 in
  let headMs := nullish (optional options headMs) 0 in
  let tailMs := nullish (optional options tailMs) 0 in
  let headSamples := JS.floor ((headMs / 1000) * sampleRate) in
  let tailSamples := JS.floor ((tailMs / 1000) * sampleRate) in
  match channels with
  | [] => Throw TypeError
  | channel0 :: _ =>
      let numSamples := length channel0 in
      let start := findStart channels threshold numSamples 0 in
      let end_ := findEnd channels threshold numSamples numSamples in
      let trimStart := JS.max 0 (JS.of_Z start - headSamples) in
      let trimEnd :=
        JS.min (JS.of_nat numSamples - 1) (JS.of_Z end_ + tailSamples) in
      Ok (map (fun ch => F32.slice ch trimStart (trimEnd + 1)) channels)
  end.

(** ** normalize.ts *)

Record NormalizeOptions : Set := mkNormalizeOptions {
  target : option float;
  peakLimit : option float
}.

Definition normalizeLoudness (host : Host) (channels : list Float32Array)
    (sampleRate : float) (options : option NormalizeOptions)
  : result (list Float32Array) :=
  let target := nullish (optional options target) (-14) in
  let peakLimitDb := nullish (optional options peakLimit) (-1) in
  currentLoudness <- calculateIntegratedLoudness host channels sampleRate ;;
  if currentLoudness =? neg_infinity then Ok (map F32.copy channels)
  else
    let gainDb := target - currentLoudness in
    let gainLinear := dbToLinear host gainDb in
    let peakLimitLinear := dbToLinear host peakLimitDb in
    let maxPeak :=
      fold_left
        (fun maxPeak ch =>
           let peak := measureTruePeak host ch sampleRate in
           if maxPeak <? peak then peak else maxPeak)
        channels 0 in
    let peakAfterGain := maxPeak * gainLinear in
    let gainLinear :=
      if peakLimitLinear <? peakAfterGain then peakLimitLinear / maxPeak
      else gainLinear in
    Ok (map (scaleChannel gainLinear) channels).

(** ** reverse.ts *)

Definition reverseChannel (ch : Float32Array) : Float32Array :=
  for_range (length ch) 0
    (fun i out => F32.set out i (F32.get ch (length ch - 1 - i)))
    (F32.zeros (length ch)).

Definition reverseChannels (channels : list Float32Array) : list Float32Array :=
  map reverseChannel channels.

(** ** fade.ts *)

Definition fadeInChannel (fadeSamples : float) (ch : Float32Array) : Float32Array :=
  for_range (length ch) 0
    (fun i out =>
       let gain :=
         if JS.of_nat i <? fadeSamples then JS.of_nat i / fadeSamples else 1 in
       F32.set out i (F32.get ch i * gain))
    (F32.zeros (length ch)).

Definition applyFadeIn (channels : list Float32Array) (sampleRate ms : float)
  : list Float32Array :=
  let fadeSamples := JS.floor ((ms / 1000) * sampleRate) in
  map (fadeInChannel fadeSamples) channels.

Definition fadeOutChannel (fadeSamples : float) (ch : Float32Array) : Float32Array :=
  let fadeStart := JS.of_nat (length ch) - fadeSamples in
  for_range (length ch) 0
    (fun i out =>
       let gain :=
         if fadeStart <=? JS.of_nat i
         then (JS.of_nat (length ch) - 1 - JS.of_nat i) / fadeSamples
         else 1 in
       F32.set out i (F32.get ch i * gain))
    (F32.zeros (length ch)).

Definition applyFadeOut (channels : list Float32Array) (sampleRate ms : float)
  : list Float32Array :=
  let fadeSamples := JS.floor ((ms / 1000) * sampleRate) in
  map (fadeOutChannel fadeSamples) channels.

(** ** slice.ts *)

(** Without [endMs] the end is [channels[0]!.length], whose evaluation
    throws when there is no channel. *)
Definition sliceChannels (channels : list Float32Array) (sampleRate startMs : float)
    (endMs : option float) : result (list Float32Array) :=
  let startSample := JS.floor ((startMs / 1000) * sampleRate) in
  endSample <-
    match endMs with
    | Some endMs => Ok (JS.floor ((endMs / 1000) * sampleRate))
    | None =>
        match channels with
        | [] => Throw TypeError
        | channel0 :: _ => Ok (JS.of_nat (length channel0))
        end
    end ;;
  Ok (map (fun ch => F32.slice ch startSample endSample) channels).

End Transforms.

(* ================================================================== *)
(** * src/audio-track.ts *)

Module AudioTrack.
Import Transforms.

Record t : Set := mk {
  _channels : list Float32Array;
  _sampleRate : float
}.

(** ** Construction *)

Definition fromChannels (channels : list Float32Array) (sampleRate : float)
  : result t :=
  Ok (mk channels sampleRate).

Definition silence (capacity : nat) (durationMs : float) (sampleRate : option float)
    (channels : option nat) : result t :=
  let sampleRate := nullish sampleRate 44100 in
  let channels := match channels with Some c => c | None => 1%nat end in
  let numSamples := JS.floor ((durationMs / 1000) * sampleRate) in
  chans <- mapM (fun _ => F32.alloc capacity numSamples) (seq 0 channels) ;;
  Ok (mk chans sampleRate).

(** ** Properties *)

Definition sampleRate (track : t) : float := _sampleRate track.

Definition channels (track : t) : nat := length (_channels track).

Definition length (track : t) : result nat :=
  match _channels track with
  | [] => Throw TypeError
  | channel0 :: _ => Ok (List.length channel0)
  end.

(** ** Measurement *)

Definition loudness (host : Host) (track : t) : result float :=
  Lufs.calculateIntegratedLoudness host (_channels track) (_sampleRate track).

Definition truePeak (host : Host) (track : t) : float :=
  fold_left
    (fun peak ch =>
       let p := TruePeak.measureTruePeak host ch (_sampleRate track) in
       if peak <? p then p else peak)
    (_channels track) 0.

(** ** Transforms *)

Definition normalize (host : Host) (track : t) (opts : option NormalizeOptions)
  : result t :=
  chans <- normalizeLoudness host (_channels track) (_sampleRate track) opts ;;
  Ok (mk chans (_sampleRate track)).

Definition trimSilence (track : t) (opts : option TrimOptions) : result t :=
  chans <- Transforms.trimSilence (_channels track) (_sampleRate track) opts ;;
  Ok (mk chans (_sampleRate track)).

Definition concat (track other : t) : result t :=
  if negb (List.length (_channels track) =? List.length (_channels other))%nat
  then Throw ChannelCountMismatch
  else
    chans <- concatChannels (_channels track) (_channels other) ;;
    Ok (mk chans (_sampleRate track)).

Definition mix (host : Host) (track other : t) (gainDb : option float) : result t :=
  chans <- mixChannels host (_channels track) (_channels other) gainDb ;;
  Ok (mk chans (_sampleRate track)).

Definition speed (capacity : nat) (track : t) (rate : float) : result t :=
  chans <- changeSpeed capacity (_channels track) rate ;;
  Ok (mk chans (_sampleRate track)).

Definition gain (host : Host) (track : t) (db : float) : t :=
  mk (applyGain host (_channels track) db) (_sampleRate track).

Definition fadeIn (track : t) (ms : float) : t :=
  mk (applyFadeIn (_channels track) (_sampleRate track) ms) (_sampleRate track).

Definition fadeOut (track : t) (ms : float) : t :=
  mk (applyFadeOut (_channels track) (_sampleRate track) ms) (_sampleRate track).

Definition slice (track : t) (startMs : float) (endMs : option float) : result t :=
  chans <- sliceChannels (_channels track) (_sampleRate track) startMs endMs ;;
  Ok (mk chans (_sampleRate track)).

Definition reverse (track : t) : t :=
  mk (reverseChannels (_channels track)) (_sampleRate track).

(** ** More measurement *)

(** [rms()]: the two accumulators of the loop over the channels. *)
Definition rms (track : t) : float :=
  let '(sumSquares, totalSamples) :=
    fold_left
      (fun '(sumSquares, totalSamples) ch =>
         (for_range (List.length ch) 0
            (fun i sumSquares => sumSquares + F32.get ch i * F32.get ch i)
            sumSquares,
          totalSamples + JS.of_nat (List.length ch)))
      (_channels track) (0, 0) in
  PrimFloat.sqrt (sumSquares / totalSamples).

(** ** Invariant I1: all channel buffers have the same length. *)

Definition I1 (track : t) : Prop :=
  forall a b, In a (_channels track) -> In b (_channels track) ->
              List.length a = List.length b.

End AudioTrack.

(* ================================================================== *)
(** * src/codecs/wav.ts *)

(** The codec is embedded over exact numbers.  A byte is a [Z] in
    [0, 256), an offset or a length a [nat].  A sample is a rational: every
    finite binary32 value is one, and on such values the arithmetic of the
    codec is exact in binary64 (a 24-bit significand times 32767 or 32768
    has at most 39 bits; an int16 divided by 32768 is a binary32 value), so
    no rounding is lost by the embedding.  [dataSize / (numChannels *
    bytesPerSample)] is a quotient of integers below 2^35 by a multiple of
    1/8; its binary64 rounding lies between the same two integers as the
    exact quotient, which is all the code uses of it. *)

Module Wav.
#[local] Open Scope nat_scope.

Definition Buffer : Set := list Z.

Definition HEADER_SIZE : nat := 44.

(** The ASCII codes of the four chunk tags. *)
Definition tag_RIFF : list Z := [82; 73; 70; 70]%Z.
Definition tag_WAVE : list Z := [87; 65; 86; 69]%Z.
Definition tag_fmt : list Z := [102; 109; 116; 32]%Z.
Definition tag_data : list Z := [100; 97; 116; 97]%Z.

(** [Buffer.alloc(size)]. *)
Definition alloc (size : nat) : Buffer := repeat 0%Z size.

(** [buffer.write(string, offset)]: copies the bytes that fit. *)
Definition write (buffer : Buffer) (bytes : list Z) (offset : nat) : Buffer :=
  firstn offset buffer
  ++ firstn (length buffer - offset) bytes
  ++ skipn (offset + length bytes) buffer.

(** [buffer.toString("ascii", start, end)]: the ascii decoder clears the
    high bit of every byte. *)
Definition toString (buffer : Buffer) (start end_ : nat) : list Z :=
  map (fun b => (b mod 128)%Z) (firstn (end_ - start) (skipn start buffer)).

(** [===] on two strings, given by their character codes. *)
Definition same_string (s1 s2 : list Z) : bool :=
  if list_eq_dec Z.eq_dec s1 s2 then true else false.

(** The stores of [DataView], little-endian; out of bounds they throw. *)
Definition setBytes (buffer : Buffer) (offset : nat) (bytes : list Z) : result Buffer :=
  if offset + length bytes <=? length buffer
  then Ok (firstn offset buffer ++ bytes ++ skipn (offset + length bytes) buffer)
  else Throw RangeError.

(** The little-endian bytes of an unsigned 16-bit and 32-bit integer. *)
Definition bytes16 (u : Z) : list Z := [u mod 256; u / 256]%Z.

Definition bytes32 (u : Z) : list Z :=
  [u mod 256; (u / 256) mod 256; (u / 2 ^ 16) mod 256; u / 2 ^ 24]%Z.

Definition setUint16 (buffer : Buffer) (offset : nat) (value : Z) : result Buffer :=
  setBytes buffer offset (bytes16 (value mod 2 ^ 16)).

Definition setUint32 (buffer : Buffer) (offset : nat) (value : Z) : result Buffer :=
  setBytes buffer offset (bytes32 (value mod 2 ^ 32)).

(** ToInt16 of a number: truncation towards zero, modulo 2^16. *)
Definition truncate (value : Q) : Z := Z.quot (Qnum value) (Zpos (Qden value)).

Definition setInt16 (buffer : Buffer) (offset : nat) (value : Q) : result Buffer :=
  setUint16 buffer offset (truncate value).

(** The loads of [DataView], little-endian. *)
Definition byteAt (buffer : Buffer) (offset : nat) : Z := nth offset buffer 0%Z.

Definition getUint16 (buffer : Buffer) (offset : nat) : result Z :=
  if offset + 2 <=? length buffer
  then Ok (byteAt buffer offset + 256 * byteAt buffer (offset + 1))%Z
  else Throw RangeError.

Definition getUint32 (buffer : Buffer) (offset : nat) : result Z :=
  if offset + 4 <=? length buffer
  then Ok (byteAt buffer offset + 256 * byteAt buffer (offset + 1)
           + 2 ^ 16 * byteAt buffer (offset + 2)
           + 2 ^ 24 * byteAt buffer (offset + 3))%Z
  else Throw RangeError.

Definition getInt16 (buffer : Buffer) (offset : nat) : result Z :=
  u <- getUint16 buffer offset ;;
  Ok (if (u <? 2 ^ 15)%Z then u else (u - 2 ^ 16)%Z).

(** ** encodeWav *)

(** [channels[ch]![i]!] converted to the number handed to [setInt16];
    [undefined] (a channel shorter than the first one) becomes NaN, which
    [setInt16] stores as 0. *)
Definition int16_of_sample (sample : option Q) : Q :=
  match sample with
  | None => 0%Q
  | Some x =>
      let clamped := Qmax (-1) (Qmin 1 x) in
      if Qlt_le_dec clamped 0 then (clamped * 32768)%Q else (clamped * 32767)%Q
  end.

Definition sampleAt (channels : list (list Q)) (ch i : nat) : option Q :=
  match nth_error channels ch with
  | Some channel => nth_error channel i
  | None => None
  end.

Definition encodeWav (channels : list (list Q)) (sampleRate : Z) : result Buffer :=
  let numChannels := length channels in
  match channels with
  | [] => Throw TypeError
  | channel0 :: _ =>
      let numSamples := length channel0 in
      let dataSize := numSamples * numChannels * 2 in
      let fileSize := HEADER_SIZE + dataSize in
      let buffer := alloc fileSize in
      (* RIFF header *)
      let buffer := write buffer tag_RIFF 0 in
      buffer <- setUint32 buffer 4 (Z.of_nat fileSize - 8) ;;
      let buffer := write buffer tag_WAVE 8 in
      (* fmt chunk *)
      let buffer := write buffer tag_fmt 12 in
      buffer <- setUint32 buffer 16 16 ;;
      buffer <- setUint16 buffer 20 1 ;;
      buffer <- setUint16 buffer 22 (Z.of_nat numChannels) ;;
      buffer <- setUint32 buffer 24 sampleRate ;;
      buffer <- setUint32 buffer 28 (sampleRate * Z.of_nat numChannels * 2) ;;
      buffer <- setUint16 buffer 32 (Z.of_nat numChannels * 2) ;;
      buffer <- setUint16 buffer 34 16 ;;
      (* data chunk *)
      let buffer := write buffer tag_data 36 in
      buffer <- setUint32 buffer 40 (Z.of_nat dataSize) ;;
      (* interleaved 16-bit PCM *)
      final <-
        for_rangeM numSamples 0
          (fun i state =>
             for_rangeM numChannels 0
               (fun ch '(buffer, offset) =>
                  let int16 := int16_of_sample (sampleAt channels ch i) in
                  buffer <- setInt16 buffer offset int16 ;;
                  Ok (buffer, offset + 2))
               state)
          (buffer, HEADER_SIZE) ;;
      Ok (fst final)
  end.

(** ** decodeWav *)

Record Decoded : Set := mkDecoded {
  channels : list (list Q);
  sampleRate : Z
}.

(** [dataSize / (numChannels * bytesPerSample)]: a quotient of
    non-negative numbers, NaN for 0/0 and Infinity for x/0. *)
Inductive quotient : Set :=
| QuotientNaN
| QuotientInfinity
| Quotient (q : Q).

Definition divide (dataSize : Z) (divisor : Q) : quotient :=
  if Qeq_bool divisor 0
  then (if (dataSize =? 0)%Z then QuotientNaN else QuotientInfinity)
  else Quotient (inject_Z dataSize / divisor).

(** [new Float32Array(numSamples)]: ToIndex truncates the length.  The
    codec is embedded on a host that creates the data block it is asked
    for: for a file of bytes the length is below 2^35, and an infinite
    length is refused. *)
Definition newFloat32Array (numSamples : quotient) : result (list Q) :=
  match numSamples with
  | QuotientNaN => Ok []
  | QuotientInfinity => Throw RangeError
  | Quotient q => Ok (repeat 0%Q (Z.to_nat (Qfloor q)))
  end.

(** [channels[ch]![i] = value]; a store outside the array is ignored. *)
Definition store (channels : list (list Q)) (ch i : nat) (value : Q)
  : list (list Q) :=
  match nth_error channels ch with
  | Some channel =>
      if i <? length channel
      then firstn ch channels
           ++ (firstn i channel ++ value :: skipn (S i) channel)
           :: skipn (S ch) channels
      else channels
  | None => channels
  end.

(** The state of the sample loop: the arrays, the read offset, the offsets
    at which [getInt16] has been called so far, and the exception that has
    ended the loop, if any. *)
Record LoopState : Set := mkState {
  arrays : list (list Q);
  offset : nat;
  reads : list nat;
  raised : option error
}.

(** The body of the inner loop. *)
Definition readSample (buffer : Buffer) (i ch : nat) (state : LoopState) : LoopState :=
  match raised state with
  | Some _ => state
  | None =>
      let reads := reads state ++ [offset state] in
      match getInt16 buffer (offset state) with
      | Ok int16 =>
          {| arrays := store (arrays state) ch i (int16 # 32768);
             offset := offset state + 2;
             reads := reads;
             raised := None |}
      | Throw e =>
          {| arrays := arrays state; offset := offset state;
             reads := reads; raised := Some e |}
      | Diverge => state
      end
  end.

(** A run of the decoder: what it returns or throws, and the offsets of
    the 16-bit reads it has made. *)
Record Run : Set := mkRun {
  outcome : result Decoded;
  sampleReads : list nat
}.

Definition decodeWav (buffer : Buffer) : Run :=
  if length buffer <? HEADER_SIZE then mkRun (Throw InvalidWav) []
  else
    let riff := toString buffer 0 4 in
    let wave := toString buffer 8 12 in
    if negb (same_string riff tag_RIFF) || negb (same_string wave tag_WAVE)
    then mkRun (Throw InvalidWav) []
    else
      let header :=
        numChannels <- getUint16 buffer 22 ;;
        sampleRate <- getUint32 buffer 24 ;;
        bitsPerSample <- getUint16 buffer 34 ;;
        dataSize <- getUint32 buffer 40 ;;
        Ok (numChannels, sampleRate, bitsPerSample, dataSize) in
      match header with
      | Ok (numChannels, sampleRate, bitsPerSample, dataSize) =>
          let bytesPerSample := (inject_Z bitsPerSample / 8)%Q in
          let numSamples :=
            divide dataSize (inject_Z numChannels * bytesPerSample)%Q in
          match mapM (fun _ => newFloat32Array numSamples)
                     (seq 0 (Z.to_nat numChannels)) with
          | Ok channels =>
              match numSamples with
              | QuotientInfinity => mkRun Diverge []
              | _ =>
                  let rows :=
                    match numSamples with
                    | Quotient q => Z.to_nat (Qceiling q)
                    | _ => 0
                    end in
                  let final :=
                    for_range rows 0
                      (fun i state =>
                         for_range (Z.to_nat numChannels) 0
                           (fun ch state => readSample buffer i ch state)
                           state)
                      (mkState channels HEADER_SIZE [] None) in
                  match raised final with
                  | Some e => mkRun (Throw e) (reads final)
                  | None => mkRun (Ok (mkDecoded (arrays final) sampleRate))
                                  (reads final)
                  end
              end
          | Throw e => mkRun (Throw e) []
          | Diverge => mkRun Diverge []
          end
      | Throw e => mkRun (Throw e) []
      | Diverge => mkRun Diverge []
      end.

End Wav.

(* ================================================================== *)
(** * Vocabulary of the specification *)

(** A peak is the number [+0] or a positive number. *)
Definition is_peak (m : float) : Prop := m = 0 \/ (0 <? m) = true.

(** [bounds m m']: [m'] is a number, every number below [m] is below [m']
    too, and [m'] is a peak if [m] is.  Running maxima only move this
    way. *)
Definition bounds (m m' : float) : Prop :=
  is_nan m' = false
  /\ (forall y, (y <=? m) = true -> (y <=? m') = true)
  /\ (is_peak m -> is_peak m').

(** A sample of digital silence: the number [+0] or [-0]. *)
Definition is_zero_sample (x : float) : Prop := x = 0 \/ x = -0.

(** The sample rates for which K-weighting coefficients exist. *)
Definition supported (sampleRate : float) : Prop :=
  sampleRate = 44100 \/ sampleRate = 48000.

(** The K-weighting filters in use: fresh or not, one of the four
    coefficient sets, with a state made of zeros. *)
Definition silent_filter (f : Biquad.BiquadFilter) : Prop :=
  (exists c, In c [KWeighting.PREFILTER_48000; KWeighting.RLB_48000;
                   KWeighting.PREFILTER_44100; KWeighting.RLB_44100]
             /\ Biquad.f_b0 f = Biquad.f_b0 (Biquad.new c)
             /\ Biquad.f_b1 f = Biquad.f_b1 (Biquad.new c)
             /\ Biquad.f_b2 f = Biquad.f_b2 (Biquad.new c)
             /\ Biquad.f_a1 f = Biquad.f_a1 (Biquad.new c)
             /\ Biquad.f_a2 f = Biquad.f_a2 (Biquad.new c))
  /\ is_zero_sample (Biquad.x1 f) /\ is_zero_sample (Biquad.x2 f)
  /\ is_zero_sample (Biquad.y1 f) /\ is_zero_sample (Biquad.y2 f).

(** The power of a silent block: the number [+0], or NaN when a channel is
    shorter than the first one. *)
Definition zero_or_nan (x : float) : Prop := x = 0 \/ x = nan.

(** ** The bytes of a WAV file *)

(** The 44-byte header that [encodeWav] writes. *)
Definition wav_header (numChannels : nat) (sampleRate : Z) (dataSize : nat) : list Z :=
  Wav.tag_RIFF
  ++ Wav.bytes32 ((Z.of_nat (Wav.HEADER_SIZE + dataSize) - 8) mod 2 ^ 32)
  ++ Wav.tag_WAVE
  ++ Wav.tag_fmt
  ++ Wav.bytes32 (16 mod 2 ^ 32)
  ++ Wav.bytes16 (1 mod 2 ^ 16)
  ++ Wav.bytes16 (Z.of_nat numChannels mod 2 ^ 16)
  ++ Wav.bytes32 (sampleRate mod 2 ^ 32)
  ++ Wav.bytes32 ((sampleRate * Z.of_nat numChannels * 2) mod 2 ^ 32)
  ++ Wav.bytes16 ((Z.of_nat numChannels * 2) mod 2 ^ 16)
  ++ Wav.bytes16 (16 mod 2 ^ 16)
  ++ Wav.tag_data
  ++ Wav.bytes32 (Z.of_nat dataSize mod 2 ^ 32).

(** The two bytes stored for one sample. *)
Definition pcm16 (sample : option Q) : list Z :=
  Wav.bytes16 (Wav.truncate (Wav.int16_of_sample sample) mod 2 ^ 16).

(** The interleaved samples, row after row. *)
Definition wav_payload (channels : list (list Q)) (rows : list nat) : list Z :=
  flat_map
    (fun i => flat_map (fun ch => pcm16 (Wav.sampleAt channels ch i))
                       (seq 0 (length channels)))
    rows.

(** A sample after a trip through the 16-bit encoding. *)
Definition requantize (x : Q) : Q :=
  let u := (Wav.truncate (Wav.int16_of_sample (Some x)) mod 2 ^ 16)%Z in
  (if (u <? 2 ^ 15)%Z then u else (u - 2 ^ 16)%Z) # 32768.

(** ** The reads of the WAV decoder *)

(** The initial checks of [decodeWav]. *)
Definition passes_initial_checks (buffer : Wav.Buffer) : Prop :=
  (Wav.HEADER_SIZE <= length buffer)%nat
  /\ Wav.toString buffer 0 4 = Wav.tag_RIFF
  /\ Wav.toString buffer 8 12 = Wav.tag_WAVE.





(** The array that the decoder holds for the channel [column] after [rows]
    rows have been read: the requantized samples, then the zeros of the
    allocation. *)
Definition decoded_rows (numSamples rows : nat) (column : list Q) : list Q :=
  map requantize (firstn rows column) ++ repeat 0%Q (numSamples - rows).

(** The signed 16-bit integer stored for a sample. *)
Definition stored_int16 (sample : option Q) : Z :=
  let u := (Wav.truncate (Wav.int16_of_sample sample) mod 2 ^ 16)%Z in
  if (u <? 2 ^ 15)%Z then u else (u - 2 ^ 16)%Z.

(** ** Inputs used in the examples *)

(** A host whose functions are constant; enough to run the code where the
    result does not depend on them. *)
Definition constant_host : Host :=
  mkHost (fun _ _ => 1) (fun _ => 0) (fun _ => 0).

(** At 1000 Hz: 20 ms of silence, one sample at half scale, 60 ms of
    silence. *)
Definition padded_click : AudioTrack.t :=
  AudioTrack.mk [repeat 0 20 ++ [0.5] ++ repeat 0 60] 1000.

(** The defaults of [trimSilence] as the API documentation gives them:
    -30 dB (as a linear amplitude), 10 ms, 50 ms. *)
Definition documented_trim_defaults : Transforms.TrimOptions :=
  Transforms.mkTrimOptions (Some 0.03162277660168379) (Some 10) (Some 50).

(** Two mono tracks of one sample each, at 44100 Hz and at 48000 Hz. *)
Definition track_44100 : AudioTrack.t := AudioTrack.mk [[0.5]] 44100.
Definition track_48000 : AudioTrack.t := AudioTrack.mk [[0.25]] 48000.

(** ** Buffers and tracks *)

(** A number that a [Float32Array] can hold: storing it changes nothing. *)
Definition is_float32 (x : float) : Prop := JS.fround x = x.

(** The lengths of the channel buffers. *)
Definition shape (channels : list Float32Array) : list nat :=
  map (@length float) channels.

(** The number of blocks of [size] samples, [hop] samples apart, that fit
    in [n] samples. *)
Definition block_count (size hop n : Z) : Z :=
  if (n <? size)%Z then 0%Z else ((n - size) / hop + 1)%Z.

(** What a product or a sum of silence can be: a zero or NaN (the product
    of a zero and an infinite or NaN coefficient). *)
Definition zero_sample_or_nan (x : float) : Prop := x = 0 \/ x = -0 \/ x = nan.

(** What a transform owes to the track it is called on: buffers of one
    common length (invariant I1) at the sample rate of the receiver. *)
Definition well_formed_from (track result : AudioTrack.t) : Prop :=
  AudioTrack.I1 result
  /\ AudioTrack.sampleRate result = AudioTrack.sampleRate track.

(** A stereo track with buffers of three samples. *)
Definition stereo_track : AudioTrack.t :=
  AudioTrack.mk [[1; 0.5; -0.25]; [0; 0.75; -1]] 44100.

(** ** More on WAV files *)

(** A buffer holds bytes. *)
Definition proper_bytes (buffer : Wav.Buffer) : Prop :=
  Forall (fun b => (0 <= b < 256)%Z) buffer.

(** The range of a decoded sample: a signed 16-bit integer over 32768. *)
Definition in_pcm_range (q : Q) : Prop := (-1 <= q /\ q < 1)%Q.

(** The header of a file that announces no channel and 4 bytes of
    samples, followed by those bytes. *)
Definition zero_channel_wav : Wav.Buffer :=
  wav_header 0 44100 4 ++ [1; 2; 3; 4]%Z.

(** Two channels of two samples. *)
Definition stereo_samples : list (list Q) :=
  [[1 # 2; -1 # 4]; [0; 1]]%Q.

(** The signed 16-bit integer that comes back when the decoded sample
    [z / 32768] is encoded and decoded again. *)
Definition second_generation (z : Z) : Z :=
  if (0 <? z)%Z then (z - 1)%Z else z.

(** Decoded samples, given by their 16-bit integers. *)
Definition pcm_samples (ints : list (list Z)) : list (list Q) :=
  map (map (fun z => z # 32768)) ints.

(** The length of the buffer that [changeSpeed] asks for, for a channel:
    [Math.round(ch.length / rate)], as an array length. *)
Definition speed_length (rate : float) (ch : Float32Array) : result nat :=
  JS.ToIndex (JS.round (JS.of_nat (length ch) / rate)).

(** A length that a host with the given capacity allocates: at most
    2^53 - 1 bytes of binary32 elements, and no more elements than the
    host grants. *)
Definition granted (capacity n : nat) : Prop :=
  (4 * Z.of_nat n <= 2 ^ 53 - 1)%Z /\ (n <= capacity)%nat.

(* ================================================================== *)
(** * Loops and arrays *)

Lemma skipn_nth_cons {A : Type} (d : A) (l : list A) (i : nat) :
  (i < length l)%nat -> skipn i l = nth i l d :: skipn (S i) l.
Proof.
  revert i; induction l as [|a l IH]; intros [|i] H; simpl in *; try lia.
  - reflexivity.
  - apply IH; lia.
Qed.

Lemma firstn_snoc_nth {A : Type} (d : A) (l : list A) (i : nat) :
  (i < length l)%nat -> firstn (S i) l = firstn i l ++ [nth i l d].
Proof.
  revert i; induction l as [|a l IH]; intros [|i] H; simpl in *; try lia.
  - reflexivity.
  - f_equal. apply IH; lia.
Qed.

Lemma F32_set_length (a : Float32Array) (i : nat) (v : float) :
  length (F32.set a i v) = length a.
Proof.
  unfold F32.set. destruct (Nat.ltb_spec i (length a)); [|reflexivity].
  rewrite length_app, length_firstn. cbn [length]. rewrite length_skipn. lia.
Qed.

Lemma skipn_app_cons {A : Type} (front back : list A) (x : A) :
  skipn (S (length front)) (front ++ x :: back) = back.
Proof. induction front as [|a front IH]; simpl in *; auto. Qed.

Lemma firstn_app_exact {A : Type} (front back : list A) :
  firstn (length front) (front ++ back) = front.
Proof. induction front as [|a front IH]; simpl; [now destruct back|now f_equal]. Qed.

Lemma F32_set_app (front back : Float32Array) (old v : float) :
  F32.set (front ++ old :: back) (length front) v = front ++ JS.fround v :: back.
Proof.
  unfold F32.set. rewrite length_app; cbn [length].
  destruct (Nat.ltb_spec (length front) (length front + S (length back))); [|lia].
  now rewrite firstn_app_exact, skipn_app_cons.
Qed.

Lemma F32_zeros_length (n : nat) : length (F32.zeros n) = n.
Proof. apply repeat_length. Qed.

(** A loop that stores [value i s] at every index of a fresh array while
    threading a state. *)
Lemma for_range_fill {S : Type} (step : nat -> S -> S * float) :
  forall (n : nat) (front back : Float32Array) (s : S),
    length back = n ->
    for_range n (length front)
      (fun i '(s, out) => let '(s', y) := step i s in (s', F32.set out i y))
      (s, front ++ back)
    = for_range n (length front)
        (fun i '(s, out) => let '(s', y) := step i s in (s', out ++ [JS.fround y]))
        (s, front).
Proof.
  induction n as [|n IH]; intros front back s Hlen.
  - destruct back; [|discriminate]. simpl. now rewrite app_nil_r.
  - destruct back as [|old back]; [discriminate|]. simpl.
    destruct (step (length front) s) as [s' y].
    rewrite F32_set_app.
    change (front ++ JS.fround y :: back) with (front ++ [JS.fround y] ++ back).
    rewrite app_assoc.
    replace (Datatypes.S (length front)) with (length (front ++ [JS.fround y]))
      by (rewrite length_app; simpl; lia).
    apply IH. simpl in Hlen. lia.
Qed.

(* ================================================================== *)
(** * Biquad filter *)

Lemma processBuffer_loop (input : Float32Array) :
  forall (n : nat) (front : Float32Array) (f : Biquad.BiquadFilter),
    (length front + n = length input)%nat ->
    for_range n (length front)
      (fun i '(f, out) =>
         let '(f', y) := Biquad.process f (F32.get input i) in
         (f', out ++ [JS.fround y]))
      (f, front)
    = (fst (Biquad.process_calls f (skipn (length front) input)),
       front ++ map JS.fround
                  (snd (Biquad.process_calls f (skipn (length front) input)))).
Proof.
  induction n as [|n IH]; intros front f Hlen.
  - rewrite skipn_all2 by lia. simpl. now rewrite app_nil_r.
  - rewrite (skipn_nth_cons nan) by lia.
    cbn [for_range Biquad.process_calls].
    change (F32.get input (length front)) with (nth (length front) input nan).
    destruct (Biquad.process f (nth (length front) input nan)) as [f' y] eqn:Hp.
    specialize (IH (front ++ [JS.fround y]) f').
    rewrite length_app in IH. cbn [length] in IH.
    rewrite Nat.add_1_r in IH.
    etransitivity; [apply IH; lia|].
    destruct (Biquad.process_calls f' _) as [f'' ys].
    simpl. now rewrite <- app_assoc.
Qed.

(** [processBuffer] in terms of the sequential calls. *)
Lemma processBuffer_calls (f : Biquad.BiquadFilter) (input : Float32Array) :
  Biquad.processBuffer f input
  = (fst (Biquad.process_calls f input),
     map JS.fround (snd (Biquad.process_calls f input))).
Proof.
  unfold Biquad.processBuffer.
  transitivity
    (for_range (length input) 0
       (fun i '(f, out) =>
          let '(f', y) := Biquad.process f (F32.get input i) in
          (f', out ++ [JS.fround y]))
       (f, [])).
  - exact (for_range_fill
             (fun i f => Biquad.process f (F32.get input i))
             (length input) [] (F32.zeros (length input)) f
             (F32_zeros_length _)).
  - exact (processBuffer_loop input (length input) [] f eq_refl).
Qed.

(** C6 (as amended): [processBuffer] stores, at every index, the number
    returned by the corresponding sequential call of [process], rounded to
    binary32 by the store into the output [Float32Array]; the filter is left
    in the state reached by the sequential calls. *)
Theorem processBuffer_sequential (f : Biquad.BiquadFilter) (input : Float32Array) :
  Biquad.processBuffer f input
  = (fst (Biquad.process_calls f input),
     map JS.fround (snd (Biquad.process_calls f input))).
Proof.
  unfold Biquad.processBuffer.
  etransitivity.
  - exact (for_range_fill
             (fun i f => Biquad.process f (F32.get input i))
             (length input) [] (F32.zeros (length input)) f
             (F32_zeros_length _)).
  - exact (processBuffer_loop input (length input) [] f eq_refl).
Qed.

(** C6, as stated, fails: with [b0 = 0.1] the call [process(1)] returns the
    binary64 number 0.1, while [processBuffer] leaves its binary32 rounding
    in the output array. *)
Lemma processBuffer_not_exact :
  let f := Biquad.new (Biquad.mkCoeffs 0.1 0 0 1 0 0) in
  snd (Biquad.processBuffer f [1]) <> snd (Biquad.process_calls f [1])
  /\ snd (Biquad.process_calls f [1]) = [0.1]
  /\ snd (Biquad.processBuffer f [1]) = [0.10000000149011612].
Proof.
  cbv zeta. split; [|split; reflexivity].
  intro H.
  apply (f_equal (fun l => match l with x :: _ => x =? 0.1 | [] => true end)) in H.
  vm_compute in H. discriminate.
Qed.

(* ================================================================== *)
(** * The order of binary64 numbers *)

(** The comparisons of [float] are specified through [SFcompare]; the
    facts below hold for all [spec_float]s, canonical or not. *)

Ltac sf_cases :=
  repeat match goal with
         | x : spec_float |- _ => destruct x
         end;
  repeat match goal with
         | b : bool |- _ => destruct b
         end;
  unfold SFleb, SFltb, SFeqb, SFcompare in *;
  change (Pos.compare_cont Eq) with Pos.compare in *;
  try discriminate; try congruence; try reflexivity.

Ltac cmp_cases :=
  repeat match goal with
         | H : context [Z.compare ?a ?b] |- _ =>
             destruct (Z.compare_spec a b); try discriminate
         | |- context [Z.compare ?a ?b] =>
             destruct (Z.compare_spec a b); try discriminate
         | H : context [Pos.compare ?a ?b] |- _ =>
             destruct (Pos.compare_spec a b); try discriminate
         | |- context [Pos.compare ?a ?b] =>
             destruct (Pos.compare_spec a b); try discriminate
         end;
  subst; simpl in *; try reflexivity; try discriminate; try lia.

Lemma SFleb_ltb_trans (a b c : spec_float) :
  SFleb a b = true -> SFltb b c = true -> SFleb a c = true.
Proof. intros Hab Hbc. sf_cases; cmp_cases. Qed.

Lemma SFltb_trans (a b c : spec_float) :
  SFltb a b = true -> SFltb b c = true -> SFltb a c = true.
Proof. intros Hab Hbc. sf_cases; cmp_cases. Qed.

Lemma SFleb_trans (a b c : spec_float) :
  SFleb a b = true -> SFleb b c = true -> SFleb a c = true.
Proof. intros Hab Hbc. sf_cases; cmp_cases. Qed.

Lemma SFltb_false_leb (m a : spec_float) :
  SFltb m a = false -> a <> S754_nan -> m <> S754_nan -> SFleb a m = true.
Proof. intros Hlt Ha Hm. sf_cases; cmp_cases. Qed.

Lemma SFleb_refl (a : spec_float) : a <> S754_nan -> SFleb a a = true.
Proof. intros Ha. sf_cases; cmp_cases. Qed.

Lemma SFleb_ltb_false (a b : spec_float) :
  SFleb a b = true -> SFltb b a = false.
Proof. intros Hab. sf_cases; cmp_cases. Qed.

Lemma SFltb_not_nan (a b : spec_float) :
  SFltb a b = true -> a <> S754_nan /\ b <> S754_nan.
Proof. intros Hab. split; intros ->; sf_cases. Qed.

Lemma SFeqb_refl_not_nan (a : spec_float) :
  SFeqb a a = true <-> a <> S754_nan.
Proof.
  split.
  - intros H ->. discriminate.
  - intros Ha. sf_cases; cmp_cases.
Qed.

(** A non-negative number that is at most zero is a zero. *)
Lemma SFleb_zero_abs (a : spec_float) :
  SFleb (SFabs a) (S754_zero false) = true -> SFabs a = S754_zero false.
Proof. intros H. destruct a as [s|s| |s m e]; simpl in *; sf_cases. Qed.

Lemma is_nan_spec (x : float) :
  is_nan x = false <-> Prim2SF x <> S754_nan.
Proof.
  unfold is_nan. rewrite FloatAxioms.eqb_spec, negb_false_iff. apply SFeqb_refl_not_nan.
Qed.

Lemma is_nan_abs (x : float) : is_nan (PrimFloat.abs x) = is_nan x.
Proof.
  destruct (is_nan x) eqn:Hx.
  - apply not_false_iff_true. rewrite is_nan_spec, abs_spec.
    apply not_false_iff_true in Hx. rewrite is_nan_spec in Hx.
    intro H; apply H. destruct (Prim2SF x); try reflexivity; exfalso; apply Hx; discriminate.
  - rewrite is_nan_spec in *. rewrite abs_spec. destruct (Prim2SF x); simpl; congruence.
Qed.

Lemma float_leb_ltb_trans (a b c : float) :
  (a <=? b) = true -> (b <? c) = true -> (a <=? c) = true.
Proof. rewrite !FloatAxioms.leb_spec, FloatAxioms.ltb_spec. apply SFleb_ltb_trans. Qed.

Lemma float_ltb_trans (a b c : float) :
  (a <? b) = true -> (b <? c) = true -> (a <? c) = true.
Proof. rewrite !FloatAxioms.ltb_spec. apply SFltb_trans. Qed.

Lemma float_leb_trans (a b c : float) :
  (a <=? b) = true -> (b <=? c) = true -> (a <=? c) = true.
Proof. rewrite !FloatAxioms.leb_spec. apply SFleb_trans. Qed.

Lemma float_ltb_false_leb (m a : float) :
  (m <? a) = false -> is_nan a = false -> is_nan m = false -> (a <=? m) = true.
Proof. rewrite FloatAxioms.ltb_spec, FloatAxioms.leb_spec, !is_nan_spec. apply SFltb_false_leb. Qed.

Lemma float_leb_refl (a : float) : is_nan a = false -> (a <=? a) = true.
Proof. rewrite FloatAxioms.leb_spec, is_nan_spec. apply SFleb_refl. Qed.

Lemma float_leb_ltb_false (a b : float) : (a <=? b) = true -> (b <? a) = false.
Proof. rewrite FloatAxioms.leb_spec, FloatAxioms.ltb_spec. apply SFleb_ltb_false. Qed.

Lemma float_ltb_not_nan (a b : float) :
  (a <? b) = true -> is_nan a = false /\ is_nan b = false.
Proof. rewrite FloatAxioms.ltb_spec, !is_nan_spec. apply SFltb_not_nan. Qed.

Lemma float_ltb_nan_r (a b : float) : is_nan b = true -> (a <? b) = false.
Proof.
  intros Hb. destruct (a <? b) eqn:H; [|reflexivity].
  apply float_ltb_not_nan in H. destruct H; congruence.
Qed.

(* ================================================================== *)
(** * True peak *)

Lemma for_range_invariant {S : Type} (P : nat -> S -> Prop) (body : nat -> S -> S) :
  forall (n start : nat) (s : S),
    P start s ->
    (forall i s, (start <= i < start + n)%nat -> P i s -> P (Datatypes.S i) (body i s)) ->
    P (start + n)%nat (for_range n start body s).
Proof.
  induction n as [|n IH]; intros start s H0 Hstep; simpl.
  - now rewrite Nat.add_0_r.
  - rewrite <- Nat.add_succ_comm. apply IH.
    + apply Hstep; [lia|assumption].
    + intros i s' Hi. apply Hstep. lia.
Qed.

Lemma bounds_refl (m : float) : is_nan m = false -> bounds m m.
Proof. intros H; repeat split; auto. Qed.

Lemma bounds_trans (a b c : float) : bounds a b -> bounds b c -> bounds a c.
Proof. intros (_ & Hab & Pab) (Hc & Hbc & Pbc); repeat split; auto. Qed.

(** [if (v > m) m = v] *)
Lemma bounds_update (m v : float) :
  is_nan m = false -> bounds m (if m <? v then v else m).
Proof.
  intros Hm. destruct (m <? v) eqn:Hlt.
  - repeat split.
    + now apply float_ltb_not_nan in Hlt.
    + intros y Hy. eapply float_leb_ltb_trans; eauto.
    + intros [->|Hpos]; right; [assumption|].
      eapply float_ltb_trans; eauto.
  - now apply bounds_refl.
Qed.

Lemma update_above (m v : float) :
  is_nan m = false -> is_nan v = false -> (v <=? (if m <? v then v else m)) = true.
Proof.
  intros Hm Hv. destruct (m <? v) eqn:Hlt.
  - now apply float_leb_refl.
  - now apply float_ltb_false_leb.
Qed.

Lemma bounds_nan (m m' : float) : bounds m m' -> is_nan m' = false.
Proof. now intros [H _]. Qed.

Lemma bounds_below (m m' y : float) :
  bounds m m' -> (y <=? m) = true -> (y <=? m') = true.
Proof. intros (_ & H & _). apply H. Qed.

Lemma bounds_zero_peak (m : float) : bounds 0 m -> is_peak m.
Proof. intros (_ & _ & H). apply H. now left. Qed.

(** One iteration of the loop over [n] in [measureTruePeak]. *)
Lemma measureTruePeak_loop (host : Host) (samples : Float32Array) :
  forall k : nat,
    let result :=
      for_range k 0
        (fun n maxPeak =>
           let rawAbs := PrimFloat.abs (F32.get samples n) in
           let maxPeak := if maxPeak <? rawAbs then rawAbs else maxPeak in
           if (n <? TruePeak.FIR_TAPS_PER_PHASE - 1)%nat then maxPeak
           else
             for_range TruePeak.OVERSAMPLING_FACTOR 0
               (fun p maxPeak =>
                  let phase := nth p (TruePeak.PHASES host) [] in
                  let sum :=
                    for_range TruePeak.FIR_TAPS_PER_PHASE 0
                      (fun k sum => sum + nth k phase nan * F32.get samples (n - k))
                      0 in
                  let absValue := PrimFloat.abs sum in
                  if maxPeak <? absValue then absValue else maxPeak)
               maxPeak)
        0 in
    bounds 0 result
    /\ forall j, (j < k)%nat -> is_nan (F32.get samples j) = false ->
                 (PrimFloat.abs (F32.get samples j) <=? result) = true.
Proof.
  intros k result. subst result.
  match goal with
  | |- context [for_range k 0 ?b 0] => set (body := b)
  end.
  change k with (0 + k)%nat at 1 3.
  apply (for_range_invariant
           (fun k m => bounds 0 m /\
                       forall j, (j < k)%nat -> is_nan (F32.get samples j) = false ->
                                 (PrimFloat.abs (F32.get samples j) <=? m) = true)).
  - split; [now apply bounds_refl|]. intros j Hj; lia.
  - intros i m _ [Hm Hprev].
    assert (Hnan : is_nan m = false) by now apply bounds_nan in Hm.
    set (m1 := if m <? PrimFloat.abs (F32.get samples i)
               then PrimFloat.abs (F32.get samples i) else m).
    assert (H1 : bounds m m1) by now apply bounds_update.
    assert (H2 : bounds m1 (body i m)).
    { unfold body. fold m1. cbv zeta.
      destruct (i <? TruePeak.FIR_TAPS_PER_PHASE - 1)%nat.
      - apply bounds_refl. now apply bounds_nan in H1.
      - change TruePeak.OVERSAMPLING_FACTOR with (0 + TruePeak.OVERSAMPLING_FACTOR)%nat.
        apply (for_range_invariant (fun _ m' => bounds m1 m')).
        + apply bounds_refl. now apply bounds_nan in H1.
        + intros p m' _ Hm'. eapply bounds_trans; [exact Hm'|].
          apply bounds_update. now apply bounds_nan in Hm'. }
    split.
    + eapply bounds_trans; [exact Hm|]. eapply bounds_trans; eassumption.
    + intros j Hj Hx.
      destruct (Nat.eq_dec j i) as [->|Hne].
      * apply (bounds_below _ _ _ H2). unfold m1. apply update_above; [assumption|].
        now rewrite is_nan_abs.
      * apply (bounds_below _ _ _ H2), (bounds_below _ _ _ H1), Hprev; [lia|assumption].
Qed.

Lemma measureTruePeak_bounds (host : Host) (samples : Float32Array) (rate : float) :
  bounds 0 (TruePeak.measureTruePeak host samples rate).
Proof.
  unfold TruePeak.measureTruePeak.
  destruct (length samples =? 0)%nat.
  - now apply bounds_refl.
  - apply (measureTruePeak_loop host samples (length samples)).
Qed.

Lemma measureTruePeak_above (host : Host) (samples : Float32Array) (rate : float)
    (n : nat) (x : float) :
  nth_error samples n = Some x -> is_nan x = false ->
  (PrimFloat.abs x <=? TruePeak.measureTruePeak host samples rate) = true.
Proof.
  intros Hn Hx.
  assert (Hlt : (n < length samples)%nat) by (apply nth_error_Some; congruence).
  assert (Hget : F32.get samples n = x).
  { unfold F32.get. now apply nth_error_nth. }
  unfold TruePeak.measureTruePeak.
  destruct (Nat.eqb_spec (length samples) 0) as [H0|_]; [lia|].
  rewrite <- Hget.
  apply (measureTruePeak_loop host samples (length samples)); [assumption|].
  now rewrite Hget.
Qed.

(** The loop of [truePeak] (and of [normalizeLoudness]) over the channels. *)
Lemma fold_peak {A : Type} (f : A -> float) (Hf : forall a, bounds 0 (f a)) :
  forall (l : list A) (m : float),
    is_nan m = false ->
    let result := fold_left (fun peak a => if peak <? f a then f a else peak) l m in
    bounds m result
    /\ (forall a, In a l -> (f a <=? result) = true)
    /\ (result = m \/ exists a, In a l /\ result = f a).
Proof.
  induction l as [|a l IH]; intros m Hm; cbn [fold_left].
  - split; [now apply bounds_refl|]. split; [intros a []|now left].
  - set (m1 := if m <? f a then f a else m).
    assert (H1 : bounds m m1) by now apply bounds_update.
    destruct (IH m1 (bounds_nan _ _ H1)) as (Hb & Hall & Hex).
    split; [|split].
    + eapply bounds_trans; eassumption.
    + intros b [<-|Hb']; [|now apply Hall].
      apply (bounds_below _ _ _ Hb). apply update_above; [assumption|].
      apply (bounds_nan _ _ (Hf a)).
    + destruct Hex as [->|(b & Hin & ->)].
      * unfold m1. destruct (m <? f a); [right; exists a; split; [now left|reflexivity]|now left].
      * right. exists b. split; [now right|reflexivity].
Qed.

Lemma peak_below_zero (m : float) : is_peak m -> (m <=? 0) = true -> m = 0.
Proof.
  intros [->|Hpos] Hle; [reflexivity|].
  apply float_leb_ltb_false in Hle. congruence.
Qed.

Lemma truePeak_is_max (host : Host) (track : AudioTrack.t) :
  (forall ch, In ch (AudioTrack._channels track) ->
              (TruePeak.measureTruePeak host ch (AudioTrack._sampleRate track)
               <=? AudioTrack.truePeak host track) = true)
  /\ (AudioTrack._channels track <> [] ->
      exists ch, In ch (AudioTrack._channels track)
                 /\ AudioTrack.truePeak host track
                    = TruePeak.measureTruePeak host ch (AudioTrack._sampleRate track)).
Proof.
  unfold AudioTrack.truePeak.
  set (f := fun ch => TruePeak.measureTruePeak host ch (AudioTrack._sampleRate track)).
  change (fold_left _ (AudioTrack._channels track) 0)
    with (fold_left (fun peak a => if peak <? f a then f a else peak)
            (AudioTrack._channels track) 0).
  destruct (fold_peak f (fun ch => measureTruePeak_bounds host ch _)
              (AudioTrack._channels track) 0 eq_refl) as (Hb & Hall & Hex).
  set (r := fold_left _ _ _) in *.
  split; [exact Hall|].
  intros Hne. destruct Hex as [H0|Hex]; [|exact Hex].
  destruct (AudioTrack._channels track) as [|ch chs]; [congruence|].
  exists ch. split; [now left|].
  rewrite H0. symmetry.
  apply peak_below_zero.
  - apply bounds_zero_peak. apply (measureTruePeak_bounds host ch).
  - rewrite <- H0. apply Hall. now left.
Qed.

(* ================================================================== *)
(** * K-weighting and integrated loudness *)

Lemma process_calls_length (xs : list float) :
  forall f, length (snd (Biquad.process_calls f xs)) = length xs.
Proof.
  induction xs as [|x xs IH]; intros f; [reflexivity|].
  cbn [Biquad.process_calls].
  destruct (Biquad.process f x) as [f' y].
  specialize (IH f'). destruct (Biquad.process_calls f' xs) as [f'' ys].
  cbn [snd length] in *. now rewrite IH.
Qed.

Lemma processBuffer_length (f : Biquad.BiquadFilter) (input : Float32Array) :
  length (snd (Biquad.processBuffer f input)) = length input.
Proof.
  rewrite processBuffer_calls. simpl.
  now rewrite length_map, process_calls_length.
Qed.

Lemma process_silence (f : Biquad.BiquadFilter) (x : float) :
  silent_filter f -> is_zero_sample x ->
  silent_filter (fst (Biquad.process f x))
  /\ is_zero_sample (JS.fround (snd (Biquad.process f x))).
Proof.
  intros ((c & Hc & E0 & E1 & E2 & E3 & E4) & Hx1 & Hx2 & Hy1 & Hy2) Hx.
  destruct f as [fb0 fb1 fb2 fa1 fa2 sx1 sx2 sy1 sy2]. simpl in *.
  assert (Hy : is_zero_sample
                 (fb0 * x + fb1 * sx1 + fb2 * sx2 - fa1 * sy1 - fa2 * sy2)
               /\ is_zero_sample
                    (JS.fround (fb0 * x + fb1 * sx1 + fb2 * sx2 - fa1 * sy1 - fa2 * sy2))).
  { subst fb0 fb1 fb2 fa1 fa2.
    destruct Hc as [<-|[<-|[<-|[<-|[]]]]];
      destruct Hx1 as [->| ->], Hx2 as [->| ->], Hy1 as [->| ->], Hy2 as [->| ->],
               Hx as [->| ->];
      vm_compute; split; auto. }
  destruct Hy as [Hy Hfy].
  split; [|exact Hfy].
  split; [exists c; now repeat split|]. now repeat split.
Qed.

Lemma new_filter_silent (c : Biquad.BiquadCoefficients) :
  In c [KWeighting.PREFILTER_48000; KWeighting.RLB_48000;
        KWeighting.PREFILTER_44100; KWeighting.RLB_44100] ->
  silent_filter (Biquad.new c).
Proof.
  intros Hc. split; [exists c; now repeat split|].
  repeat split; now left.
Qed.

Lemma process_calls_silence (xs : list float) :
  forall f, silent_filter f -> Forall is_zero_sample xs ->
            Forall is_zero_sample (map JS.fround (snd (Biquad.process_calls f xs))).
Proof.
  induction xs as [|x xs IH]; intros f Hf Hxs; [constructor|].
  inversion Hxs as [|? ? Hx Hxs']; subst.
  cbn [Biquad.process_calls].
  destruct (process_silence f x Hf Hx) as [Hf' Hy].
  destruct (Biquad.process f x) as [f' y]. cbn [fst snd] in *.
  specialize (IH f' Hf' Hxs').
  destruct (Biquad.process_calls f' xs) as [f'' ys].
  cbn [snd map] in *. now constructor.
Qed.

Lemma processBuffer_silence (f : Biquad.BiquadFilter) (input : Float32Array) :
  silent_filter f -> Forall is_zero_sample input ->
  Forall is_zero_sample (snd (Biquad.processBuffer f input)).
Proof.
  intros Hf Hin. rewrite processBuffer_calls. cbn [snd].
  now apply process_calls_silence.
Qed.

Lemma createKWeightingFilters_48000 :
  KWeighting.createKWeightingFilters 48000
  = Ok {| KWeighting.preFilter := Biquad.new KWeighting.PREFILTER_48000;
          KWeighting.rlbFilter := Biquad.new KWeighting.RLB_48000 |}.
Proof. reflexivity. Qed.

Lemma createKWeightingFilters_44100 :
  KWeighting.createKWeightingFilters 44100
  = Ok {| KWeighting.preFilter := Biquad.new KWeighting.PREFILTER_44100;
          KWeighting.rlbFilter := Biquad.new KWeighting.RLB_44100 |}.
Proof. reflexivity. Qed.

(** For a supported rate K-weighting returns a buffer of the same length,
    silent if the input is. *)
Lemma applyKWeighting_supported (samples : Float32Array) (rate : float) :
  supported rate ->
  exists out, KWeighting.applyKWeighting samples rate = Ok out
              /\ length out = length samples
              /\ (Forall is_zero_sample samples -> Forall is_zero_sample out).
Proof.
  intros [-> | ->]; unfold KWeighting.applyKWeighting;
    [rewrite createKWeightingFilters_44100|rewrite createKWeightingFilters_48000];
    cbn [bind KWeighting.preFilter KWeighting.rlbFilter];
    (eexists; split; [reflexivity|split;
      [ now rewrite !processBuffer_length
      | intros Hs; apply processBuffer_silence;
        [|apply processBuffer_silence; [|exact Hs]];
        apply new_filter_silent; simpl; tauto ]]).
Qed.

Lemma mapM_applyKWeighting (channels : list Float32Array) (rate : float) :
  supported rate ->
  exists kWeighted,
    mapM (fun channel => KWeighting.applyKWeighting channel rate) channels = Ok kWeighted
    /\ map (@length float) kWeighted = map (@length float) channels
    /\ (Forall (Forall is_zero_sample) channels ->
        Forall (Forall is_zero_sample) kWeighted).
Proof.
  intros Hrate. induction channels as [|ch chs IH].
  - exists []. repeat split; auto.
  - destruct (applyKWeighting_supported ch rate Hrate) as (out & Hout & Hlen & Hz).
    destruct IH as (outs & Houts & Hlens & Hzs).
    exists (out :: outs). cbn [mapM]. rewrite Hout. cbn [bind]. rewrite Houts. cbn [bind].
    split; [reflexivity|]. split; [cbn [map]; congruence|].
    intros Hall. inversion Hall; subst. constructor; auto.
Qed.

Lemma mapM_applyKWeighting_unsupported (ch : Float32Array) (chs : list Float32Array)
    (rate : float) :
  (rate =? 48000) = false -> (rate =? 44100) = false ->
  mapM (fun channel => KWeighting.applyKWeighting channel rate) (ch :: chs)
  = Throw UnsupportedSampleRate.
Proof.
  intros H1 H2. cbn [mapM].
  unfold KWeighting.applyKWeighting, KWeighting.createKWeightingFilters.
  now rewrite H1, H2.
Qed.

Lemma get_silent (channel : Float32Array) (i : nat) :
  Forall is_zero_sample channel ->
  F32.get channel i = 0 \/ F32.get channel i = -0 \/ F32.get channel i = nan.
Proof.
  intros Hch. unfold F32.get.
  destruct (nth_in_or_default i channel nan) as [Hin | ->]; [|tauto].
  rewrite Forall_forall in Hch. destruct (Hch _ Hin); tauto.
Qed.

Lemma channelSum_silent (channel : Float32Array) :
  Forall is_zero_sample channel ->
  forall (n start : nat) (acc : float),
    zero_or_nan acc ->
    zero_or_nan
      (for_range n start
         (fun i channelSum =>
            let sample := F32.get channel i in channelSum + sample * sample)
         acc).
Proof.
  intros Hch. induction n as [|n IH]; intros start acc Hacc; [exact Hacc|].
  cbn [for_range]. apply IH. cbv zeta.
  destruct (get_silent channel start Hch) as [-> | [-> | ->]];
    destruct Hacc as [-> | ->]; vm_compute; tauto.
Qed.

Lemma weight_of_channel (numChannels ch : nat) :
  (ch < numChannels)%nat ->
  nth ch (map (fun ch => KWeighting.getChannelWeight ch numChannels) (seq 0 numChannels)) nan
  = KWeighting.getChannelWeight ch numChannels.
Proof.
  intros Hlt.
  rewrite (nth_indep _ nan (KWeighting.getChannelWeight 0 numChannels))
    by now rewrite length_map, length_seq.
  rewrite (map_nth (fun ch => KWeighting.getChannelWeight ch numChannels)).
  now rewrite seq_nth.
Qed.

Lemma blockPower_silent (channels : list Float32Array) (blockSize : float)
    (size start : nat) :
  Forall (Forall is_zero_sample) channels ->
  blockSize = 17640 \/ blockSize = 19200 ->
  zero_or_nan
    (Lufs.blockPower channels
       (map (fun ch => KWeighting.getChannelWeight ch (length channels))
            (seq 0 (length channels)))
       blockSize size start).
Proof.
  intros Hch Hsize. unfold Lufs.blockPower.
  change (length channels) with (0 + length channels)%nat at 1.
  apply (for_range_invariant (fun _ s => zero_or_nan s)); [now left|].
  intros ch weightedSum [_ Hlt] Hsum. simpl in Hlt.
  rewrite weight_of_channel by assumption.
  assert (Hsilent : Forall is_zero_sample (nth ch channels [])).
  { rewrite Forall_forall in Hch. apply Hch, nth_In. assumption. }
  pose proof (channelSum_silent _ Hsilent size start 0 (or_introl eq_refl)) as Hcs.
  cbv zeta in Hcs |- *.
  set (channelSum := for_range size start _ 0) in *.
  unfold KWeighting.getChannelWeight.
  destruct (length channels <=? 2)%nat; [|destruct (length channels =? 6)%nat;
    [destruct (ch =? 3)%nat; [|destruct ((ch =? 4)%nat || (ch =? 5)%nat)]|]];
    destruct Hsum as [-> | ->], Hcs as [-> | ->], Hsize as [-> | ->];
    vm_compute; tauto.
Qed.

Lemma blocks_loop_silent (block : nat -> float) (blockSize hopSize numSamples : Z) :
  (forall start, zero_or_nan (block start)) ->
  forall (fuel : nat) (start : Z),
    Forall zero_or_nan (Lufs.blocks_loop fuel block blockSize hopSize numSamples start).
Proof.
  intros Hblock. induction fuel as [|fuel IH]; intros start; cbn [Lufs.blocks_loop].
  - constructor.
  - destruct (start + blockSize <=? numSamples)%Z; constructor; auto.
Qed.

Lemma blockSize_44100 : JS.floor (Lufs.BLOCK_DURATION_SEC * 44100) = 17640.
Proof. reflexivity. Qed.

Lemma blockSize_48000 : JS.floor (Lufs.BLOCK_DURATION_SEC * 48000) = 19200.
Proof. reflexivity. Qed.

Lemma hopSize_44100 : JS.floor (17640 * (1 - Lufs.OVERLAP_RATIO)) = 4410.
Proof. reflexivity. Qed.

Lemma hopSize_48000 : JS.floor (19200 * (1 - Lufs.OVERLAP_RATIO)) = 4800.
Proof. reflexivity. Qed.

(** What [calculateBlockMeanSquares] computes for a supported rate: no
    block for less than 400 ms of audio, a terminating loop otherwise. *)
Lemma calculateBlockMeanSquares_supported (channel0 : Float32Array)
    (rest : list Float32Array) (rate : float) :
  supported rate ->
  exists (blockSize : float) (size hop : Z),
    (blockSize = 17640 \/ blockSize = 19200)
    /\ JS.floor (Lufs.BLOCK_DURATION_SEC * rate) = blockSize
    /\ JS.ToIntegerOrInfinity blockSize = JS.Integer size
    /\ Lufs.calculateBlockMeanSquares (channel0 :: rest) rate
       = if (Z.of_nat (length channel0) <? size)%Z then Ok []
         else Ok (Lufs.blocks_loop (S (length channel0))
                    (Lufs.blockPower (channel0 :: rest)
                       (map (fun ch => KWeighting.getChannelWeight ch
                                         (length (channel0 :: rest)))
                            (seq 0 (length (channel0 :: rest))))
                       blockSize (Z.to_nat size))
                    size hop (Z.of_nat (length channel0)) 0).
Proof.
  intros [-> | ->]; unfold Lufs.calculateBlockMeanSquares.
  - exists 17640, 17640%Z, 4410%Z.
    rewrite blockSize_44100, hopSize_44100. repeat split; auto.
  - exists 19200, 19200%Z, 4800%Z.
    rewrite blockSize_48000, hopSize_48000. repeat split; auto.
Qed.

Lemma filter_silent (threshold : float) (blocks : list float) :
  (threshold <? 0) = false ->
  Forall zero_or_nan blocks ->
  filter (fun ms => threshold <? ms) blocks = [].
Proof.
  intros Hthr. induction 1 as [|ms blocks Hms _ IH]; [reflexivity|].
  cbn [filter]. destruct Hms as [-> | ->].
  - now rewrite Hthr.
  - now rewrite float_ltb_nan_r.
Qed.

Lemma applyGating_silent (host : Host) (blocks : list float) :
  (Lufs.lufsToMeanSquare host Lufs.ABSOLUTE_GATE_LUFS <? 0) = false ->
  Forall zero_or_nan blocks ->
  Lufs.applyGating host blocks = 0.
Proof.
  intros Hthr Hblocks. unfold Lufs.applyGating.
  destruct blocks; [reflexivity|].
  now rewrite (filter_silent _ _ Hthr Hblocks).
Qed.

(** The fuel given to the loop over [start] is enough: with a positive hop
    the loop leaves by its own test, and more fuel changes nothing. *)
Lemma blocks_loop_fuel (block : nat -> float) (blockSize hopSize numSamples : Z) :
  (0 < hopSize)%Z -> (0 <= blockSize)%Z ->
  forall (fuel extra : nat) (start : Z),
    (numSamples - start < Z.of_nat fuel)%Z ->
    Lufs.blocks_loop (fuel + extra) block blockSize hopSize numSamples start
    = Lufs.blocks_loop fuel block blockSize hopSize numSamples start.
Proof.
  intros Hhop Hsize. induction fuel as [|fuel IH]; intros extra start Hfuel.
  - destruct extra; [reflexivity|]. cbn [Nat.add Lufs.blocks_loop].
    destruct (Z.leb_spec (start + blockSize) numSamples); [lia|reflexivity].
  - cbn [Nat.add Lufs.blocks_loop].
    destruct (start + blockSize <=? numSamples)%Z; [|reflexivity].
    f_equal. apply IH. lia.
Qed.

Lemma loudness_of_short_track (host : Host) (channel0 : Float32Array)
    (rest : list Float32Array) (rate : float) (size : Z) :
  supported rate ->
  JS.ToIntegerOrInfinity (JS.floor (Lufs.BLOCK_DURATION_SEC * rate)) = JS.Integer size ->
  (Z.of_nat (length channel0) < size)%Z ->
  Lufs.calculateIntegratedLoudness host (channel0 :: rest) rate = Ok neg_infinity.
Proof.
  intros Hrate Hsize Hshort. unfold Lufs.calculateIntegratedLoudness.
  destruct (mapM_applyKWeighting (channel0 :: rest) rate Hrate)
    as (kWeighted & -> & Hlen & _).
  cbn [bind].
  destruct kWeighted as [|k0 krest]; [discriminate|].
  cbn [map] in Hlen. injection Hlen as Hlen0 _.
  destruct (calculateBlockMeanSquares_supported k0 krest rate Hrate)
    as (blockSize & size' & hop & _ & Hfloor & Hint & ->).
  rewrite Hfloor in Hsize. rewrite Hint in Hsize. injection Hsize as ->.
  rewrite Hlen0.
  destruct (Z.ltb_spec (Z.of_nat (length channel0)) size); [reflexivity|lia].
Qed.

Lemma loudness_of_silence (host : Host) (channels : list Float32Array) (rate : float) :
  channels <> [] -> supported rate ->
  (Lufs.lufsToMeanSquare host Lufs.ABSOLUTE_GATE_LUFS <? 0) = false ->
  Forall (Forall is_zero_sample) channels ->
  Lufs.calculateIntegratedLoudness host channels rate = Ok neg_infinity.
Proof.
  intros Hne Hrate Hthr Hsilent. unfold Lufs.calculateIntegratedLoudness.
  destruct channels as [|channel0 rest]; [congruence|].
  destruct (mapM_applyKWeighting (channel0 :: rest) rate Hrate)
    as (kWeighted & -> & Hlen & Hzero).
  specialize (Hzero Hsilent). cbn [bind].
  destruct kWeighted as [|k0 krest]; [discriminate|].
  destruct (calculateBlockMeanSquares_supported k0 krest rate Hrate)
    as (blockSize & size & hop & Hbs & _ & _ & ->).
  destruct (Z.of_nat (length k0) <? size)%Z; [reflexivity|].
  cbn [bind].
  match goal with
  | |- context [Lufs.blocks_loop ?fuel ?block ?a ?b ?c ?d] =>
      pose proof (blocks_loop_silent block a b c
                    (fun start => blockPower_silent (k0 :: krest) blockSize
                                    (Z.to_nat size) start Hzero Hbs) fuel d) as Hblocks;
      set (blocks := Lufs.blocks_loop fuel block a b c d) in *
  end.
  destruct blocks as [|b bs] eqn:E; [reflexivity|].
  now rewrite (applyGating_silent host (b :: bs) Hthr Hblocks).
Qed.

Lemma loudness_unsupported_rate (host : Host) (channels : list Float32Array)
    (rate : float) :
  channels <> [] -> (rate =? 48000) = false -> (rate =? 44100) = false ->
  Lufs.calculateIntegratedLoudness host channels rate = Throw UnsupportedSampleRate.
Proof.
  intros Hne H1 H2. unfold Lufs.calculateIntegratedLoudness.
  destruct channels as [|channel0 rest]; [congruence|].
  now rewrite mapM_applyKWeighting_unsupported.
Qed.

(* ================================================================== *)
(** * WAV codec: the encoder *)

Lemma skipn_app_exact {A : Type} (front back : list A) :
  skipn (length front) (front ++ back) = back.
Proof. induction front as [|a front IH]; simpl; auto. Qed.

Lemma setBytes_at (front old back bytes : list Z) :
  length old = length bytes ->
  Wav.setBytes (front ++ old ++ back) (length front) bytes
  = Ok (front ++ bytes ++ back).
Proof.
  intros Hlen. unfold Wav.setBytes.
  rewrite !length_app.
  destruct (Nat.leb_spec (length front + length bytes)
              (length front + (length old + length back))); [|lia].
  rewrite firstn_app_exact.
  rewrite Nat.add_comm, <- skipn_skipn, skipn_app_exact.
  now rewrite <- Hlen, skipn_app_exact.
Qed.

(** The header stores of [encodeWav], followed by any continuation. *)
Lemma encodeWav_header {A : Type} (k : Wav.Buffer -> result A)
    (numChannels : nat) (sampleRate : Z) (dataSize : nat) (tail : list Z) :
  (let fileSize := (Wav.HEADER_SIZE + dataSize)%nat in
   let buffer := Wav.write (repeat 0%Z Wav.HEADER_SIZE ++ tail) Wav.tag_RIFF 0 in
   buffer <- Wav.setUint32 buffer 4 (Z.of_nat fileSize - 8) ;;
   let buffer := Wav.write buffer Wav.tag_WAVE 8 in
   let buffer := Wav.write buffer Wav.tag_fmt 12 in
   buffer <- Wav.setUint32 buffer 16 16 ;;
   buffer <- Wav.setUint16 buffer 20 1 ;;
   buffer <- Wav.setUint16 buffer 22 (Z.of_nat numChannels) ;;
   buffer <- Wav.setUint32 buffer 24 sampleRate ;;
   buffer <- Wav.setUint32 buffer 28 (sampleRate * Z.of_nat numChannels * 2) ;;
   buffer <- Wav.setUint16 buffer 32 (Z.of_nat numChannels * 2) ;;
   buffer <- Wav.setUint16 buffer 34 16 ;;
   let buffer := Wav.write buffer Wav.tag_data 36 in
   buffer <- Wav.setUint32 buffer 40 (Z.of_nat dataSize) ;;
   k buffer)
  = k (wav_header numChannels sampleRate dataSize ++ tail).
Proof.
  unfold wav_header, Wav.write, Wav.setUint32, Wav.setUint16, Wav.setBytes,
    Wav.bytes16, Wav.bytes32, Wav.tag_RIFF, Wav.tag_WAVE, Wav.tag_fmt, Wav.tag_data,
    Wav.HEADER_SIZE.
  cbn [repeat app length firstn skipn Nat.add Nat.sub Nat.leb bind].
  reflexivity.
Qed.

Lemma pcm16_length (sample : option Q) : length (pcm16 sample) = 2%nat.
Proof. reflexivity. Qed.

Lemma row_length (sample : nat -> option Q) (n start : nat) :
  length (flat_map (fun ch => pcm16 (sample ch)) (seq start n)) = (2 * n)%nat.
Proof.
  revert start. induction n as [|n IH]; intros start; [reflexivity|].
  cbn [seq flat_map]. rewrite length_app, IH, pcm16_length. lia.
Qed.

(** The inner loop of [encodeWav] writes one row of samples. *)
Lemma encode_row (channels : list (list Q)) (i : nat) :
  forall (m ch : nat) (pre back : list Z),
    for_rangeM m ch
      (fun ch '(buffer, offset) =>
         let int16 := Wav.int16_of_sample (Wav.sampleAt channels ch i) in
         buffer <- Wav.setInt16 buffer offset int16 ;;
         Ok (buffer, (offset + 2)%nat))
      (pre ++ repeat 0%Z (2 * m) ++ back, length pre)
    = Ok (pre ++ flat_map (fun ch => pcm16 (Wav.sampleAt channels ch i)) (seq ch m)
              ++ back,
          (length pre + 2 * m)%nat).
Proof.
  induction m as [|m IH]; intros ch pre back.
  - cbn. now rewrite Nat.add_0_r.
  - replace (2 * S m)%nat with (2 + 2 * m)%nat by lia.
    rewrite repeat_app, <- app_assoc.
    cbn [for_rangeM]. cbv zeta. unfold Wav.setInt16, Wav.setUint16.
    rewrite (setBytes_at pre (repeat 0%Z 2)) by reflexivity.
    cbn [bind seq flat_map].
    fold (pcm16 (Wav.sampleAt channels ch i)).
    set (bytes := pcm16 (Wav.sampleAt channels ch i)).
    replace (length pre + 2)%nat with (length (pre ++ bytes))
      by (rewrite length_app; reflexivity).
    rewrite (app_assoc pre bytes).
    rewrite IH. rewrite length_app. subst bytes. rewrite pcm16_length.
    f_equal. f_equal; [now rewrite <- !app_assoc|lia].
Qed.

(** The outer loop writes the rows one after the other. *)
Lemma encode_rows (channels : list (list Q)) :
  forall (n start : nat) (pre back : list Z),
    for_rangeM n start
      (fun i state =>
         for_rangeM (length channels) 0
           (fun ch '(buffer, offset) =>
              let int16 := Wav.int16_of_sample (Wav.sampleAt channels ch i) in
              buffer <- Wav.setInt16 buffer offset int16 ;;
              Ok (buffer, (offset + 2)%nat))
           state)
      (pre ++ repeat 0%Z (n * length channels * 2) ++ back, length pre)
    = Ok (pre ++ wav_payload channels (seq start n) ++ back,
          (length pre + n * length channels * 2)%nat).
Proof.
  induction n as [|n IH]; intros start pre back.
  - cbn. now rewrite Nat.add_0_r.
  - replace (S n * length channels * 2)%nat
      with (2 * length channels + n * length channels * 2)%nat by lia.
    rewrite repeat_app, <- app_assoc.
    cbn [for_rangeM]. rewrite encode_row. cbn [bind].
    set (row := flat_map _ (seq 0 (length channels))).
    assert (Hrow : length row = (2 * length channels)%nat).
    { apply (row_length (fun ch => Wav.sampleAt channels ch start)). }
    replace (length pre + 2 * length channels)%nat with (length (pre ++ row))
      by (rewrite length_app; lia).
    rewrite (app_assoc pre row).
    rewrite IH. rewrite length_app, Hrow.
    unfold wav_payload. cbn [seq flat_map]. fold row.
    f_equal. f_equal; [now rewrite <- !app_assoc|lia].
Qed.

(** What [encodeWav] returns: the header followed by the interleaved
    samples. *)
Lemma encodeWav_bytes (channel0 : list Q) (rest : list (list Q)) (sampleRate : Z) :
  let channels := channel0 :: rest in
  let dataSize := (length channel0 * length channels * 2)%nat in
  Wav.encodeWav channels sampleRate
  = Ok (wav_header (length channels) sampleRate dataSize
        ++ wav_payload channels (seq 0 (length channel0))).
Proof.
  intros channels dataSize. unfold Wav.encodeWav, channels.
  cbv beta iota zeta. fold channels. fold dataSize. unfold Wav.alloc.
  rewrite repeat_app.
  rewrite (encodeWav_header _ (length channels) sampleRate dataSize).
  replace Wav.HEADER_SIZE
    with (length (wav_header (length channels) sampleRate dataSize)) at 1
    by reflexivity.
  rewrite <- (app_nil_r (repeat 0%Z dataSize)).
  unfold dataSize at 2. rewrite encode_rows. cbn [bind fst].
  now rewrite app_nil_r.
Qed.

(* ================================================================== *)
(** * WAV codec: the reads of the decoder *)








Lemma mapM_newFloat32Array (q : Q) (indices : list nat) :
  mapM (fun _ : nat => Wav.newFloat32Array (Wav.Quotient q)) indices
  = Ok (map (fun _ => repeat 0%Q (Z.to_nat (Qfloor q))) indices).
Proof.
  induction indices as [|i indices IH]; [reflexivity|].
  cbn [mapM map Wav.newFloat32Array bind] in *. now rewrite IH.
Qed.

(** The sample loop of [decodeWav], seen from outside: [total] reads are
    asked for by the header. *)
Lemma decodeWav_run (buffer : Wav.Buffer)
    (numChannels sampleRate bitsPerSample dataSize : Z) (numSamples : Q) :
  passes_initial_checks buffer ->
  Wav.getUint16 buffer 22 = Ok numChannels ->
  Wav.getUint32 buffer 24 = Ok sampleRate ->
  Wav.getUint16 buffer 34 = Ok bitsPerSample ->
  Wav.getUint32 buffer 40 = Ok dataSize ->
  Wav.divide dataSize (inject_Z numChannels * (inject_Z bitsPerSample / 8))
  = Wav.Quotient numSamples ->
  exists final : Wav.LoopState,
    final = for_range (Z.to_nat (Qceiling numSamples)) 0
              (fun i state =>
                 for_range (Z.to_nat numChannels) 0
                   (fun ch state => Wav.readSample buffer i ch state) state)
              (Wav.mkState
                 (map (fun _ => repeat 0%Q (Z.to_nat (Qfloor numSamples)))
                      (seq 0 (Z.to_nat numChannels)))
                 Wav.HEADER_SIZE [] None)
    /\ Wav.decodeWav buffer
       = match Wav.raised final with
         | Some e => Wav.mkRun (Throw e) (Wav.reads final)
         | None => Wav.mkRun (Ok (Wav.mkDecoded (Wav.arrays final) sampleRate))
                             (Wav.reads final)
         end.
Proof.
  intros (Hlen & Hriff & Hwave) Hnc Hrate Hbits Hsize Hdiv.
  eexists. split; [reflexivity|].
  unfold Wav.decodeWav.
  destruct (Nat.ltb_spec (length buffer) Wav.HEADER_SIZE) as [Hshort|_]; [lia|].
  rewrite Hriff, Hwave. cbn [Wav.same_string negb orb].
  unfold Wav.same_string.
  destruct (list_eq_dec Z.eq_dec Wav.tag_RIFF Wav.tag_RIFF) as [_|Hne]; [|congruence].
  destruct (list_eq_dec Z.eq_dec Wav.tag_WAVE Wav.tag_WAVE) as [_|Hne]; [|congruence].
  cbn [negb orb].
  rewrite Hnc, Hrate, Hbits, Hsize. cbn [bind].
  rewrite Hdiv, mapM_newFloat32Array. reflexivity.
Qed.





(* ================================================================== *)
(** * WAV codec: quantization *)

#[local] Open Scope Q_scope.

(** The integer that [setInt16] stores for a clamped sample, and how far
    it is from the sample. *)
Lemma quantize_bounds (c : Q) :
  -1 <= c -> c <= 1 ->
  let z := Wav.truncate (if Qlt_le_dec c 0 then c * 32768 else c * 32767) in
  (-32768 <= z <= 32767)%Z
  /\ (0 <= c -> 0 <= c - (z # 32768) /\ c - (z # 32768) < 2 # 32768)
  /\ (c < 0 -> 0 <= (z # 32768) - c /\ (z # 32768) - c < 1 # 32768).
Proof.
  destruct c as [n d]. unfold Qle, Qlt. cbn [Qnum Qden]. intros Hlo Hhi.
  destruct (Qlt_le_dec (n # d) 0) as [Hneg|Hpos].
  - unfold Qlt in Hneg. cbn [Qnum Qden] in Hneg.
    unfold Wav.truncate, Qmult, Qminus, Qplus, Qopp. cbn [Qnum Qden].
    rewrite Pos.mul_1_r.
    pose proof (Z.quot_rem' (n * 32768) (Zpos d)) as Hqr.
    pose proof (Z.rem_bound_pos_neg (n * 32768) (Zpos d)) as Hr.
    set (z := ((n * 32768) ÷ Zpos d)%Z) in *.
    set (r := Z.rem (n * 32768) (Zpos d)) in *.
    assert (Hd : (0 < Zpos d)%Z) by lia.
    specialize (Hr Hd ltac:(lia)).
    rewrite !Pos2Z.inj_mul.
    split; [nia|]. split; [intros; lia|]. intros _. split; nia.
  - unfold Qle in Hpos. cbn [Qnum Qden] in Hpos.
    unfold Wav.truncate, Qmult, Qminus, Qplus, Qopp. cbn [Qnum Qden].
    rewrite Pos.mul_1_r.
    pose proof (Z.quot_rem' (n * 32767) (Zpos d)) as Hqr.
    pose proof (Z.rem_bound_pos (n * 32767) (Zpos d)) as Hr.
    set (z := ((n * 32767) ÷ Zpos d)%Z) in *.
    set (r := Z.rem (n * 32767) (Zpos d)) in *.
    assert (Hd : (0 < Zpos d)%Z) by lia.
    specialize (Hr ltac:(lia) Hd).
    rewrite !Pos2Z.inj_mul.
    split; [nia|]. split; [|intros; lia]. intros _. split; nia.
Qed.

Lemma clamp_id (x : Q) : -1 <= x -> x <= 1 -> Qmax (-1) (Qmin 1 x) == x.
Proof.
  intros Hlo Hhi. rewrite (Q.min_r 1 x Hhi). now apply Q.max_r.
Qed.

Lemma signed16 (z : Z) :
  (-32768 <= z <= 32767)%Z ->
  (if z mod 2 ^ 16 <? 2 ^ 15 then z mod 2 ^ 16 else z mod 2 ^ 16 - 2 ^ 16)%Z = z.
Proof.
  intros Hz.
  destruct (Z.ltb_spec (z mod 2 ^ 16) (2 ^ 15))%Z as [H|H];
    pose proof (Z.mod_pos_bound z (2 ^ 16) ltac:(lia));
    pose proof (Z.div_mod z (2 ^ 16) ltac:(lia)); lia.
Qed.

(** The error of one sample over the round trip. *)
Lemma requantize_error (x : Q) :
  -1 <= x -> x <= 1 ->
  Qabs (requantize x - x) < 2 # 32768
  /\ (x <= 0 -> Qabs (requantize x - x) < 1 # 32768).
Proof.
  intros Hlo Hhi. unfold requantize, Wav.int16_of_sample. cbv zeta.
  set (c := Qmax (-1) (Qmin 1 x)).
  assert (Hc : c == x) by now apply clamp_id.
  assert (Hclo : -1 <= c) by now rewrite Hc.
  assert (Hchi : c <= 1) by now rewrite Hc.
  destruct (quantize_bounds c Hclo Hchi) as (Hz & Hnonneg & Hneg).
  set (z := Wav.truncate (if Qlt_le_dec c 0 then c * 32768 else c * 32767)) in *.
  rewrite (signed16 z Hz). rewrite <- Hc.
  destruct (Qlt_le_dec c 0) as [Hlt|Hge].
  - destruct (Hneg Hlt) as [H0 H1].
    rewrite Qabs_pos by exact H0.
    split; [|intros _; exact H1].
    eapply Qlt_trans; [exact H1|]. reflexivity.
  - destruct (Hnonneg Hge) as [H0 H1].
    assert (Habs : Qabs ((z # 32768) - c) == c - (z # 32768)).
    { rewrite Qabs_neg.
      - ring.
      - apply (Qplus_le_r _ _ (c - (z # 32768))). ring_simplify.
        exact H0. }
    rewrite Habs. split; [exact H1|].
    intros Hle. assert (Hc0 : c == 0) by now apply Qle_antisym.
    clear - Hc0 Hz Hge. subst z.
    destruct (Qlt_le_dec c 0) as [Hlt|_].
    + exfalso. rewrite Hc0 in Hlt. discriminate.
    + destruct c as [n d]. unfold Qeq in Hc0. cbn [Qnum Qden] in Hc0.
      assert (n = 0%Z) by lia. subst n. reflexivity.
Qed.

(* ================================================================== *)
(** * WAV codec: the decoder on an encoded buffer *)

#[local] Open Scope nat_scope.

Lemma bytes16_value (u : Z) : (u mod 256 + 256 * (u / 256))%Z = u.
Proof. pose proof (Z.div_mod u 256 ltac:(lia)). lia. Qed.

Lemma bytes32_value (u : Z) :
  (0 <= u < 2 ^ 32)%Z ->
  (u mod 256 + 256 * ((u / 256) mod 256) + 2 ^ 16 * ((u / 2 ^ 16) mod 256)
   + 2 ^ 24 * (u / 2 ^ 24))%Z = u.
Proof.
  intros Hu.
  pose proof (Z.div_mod u 256 ltac:(lia)).
  pose proof (Z.div_mod (u / 256) 256 ltac:(lia)).
  pose proof (Z.div_mod (u / 2 ^ 16) 256 ltac:(lia)).
  replace (u / 2 ^ 16)%Z with (u / 256 / 256)%Z in *
    by (rewrite Z.div_div by lia; reflexivity).
  replace (u / 2 ^ 24)%Z with (u / 256 / 256 / 256)%Z
    by (rewrite !Z.div_div by lia; reflexivity).
  lia.
Qed.

Lemma getInt16_at (pre back : list Z) (sample : option Q) :
  Wav.getInt16 (pre ++ pcm16 sample ++ back) (length pre) = Ok (stored_int16 sample).
Proof.
  unfold Wav.getInt16, Wav.getUint16, Wav.byteAt, pcm16, Wav.bytes16, stored_int16.
  set (u := (Wav.truncate (Wav.int16_of_sample sample) mod 2 ^ 16)%Z).
  rewrite length_app. cbn [app length].
  destruct (Nat.leb_spec (length pre + 2) (length pre + S (S (length back)))); [|lia].
  rewrite nth_middle.
  replace (length pre + 1) with (length (pre ++ [(u mod 256)%Z]))
    by (rewrite length_app; reflexivity).
  change (pre ++ (u mod 256)%Z :: (u / 256)%Z :: back)
    with (pre ++ [(u mod 256)%Z] ++ (u / 256)%Z :: back).
  rewrite app_assoc, nth_middle.
  cbn [bind]. now rewrite bytes16_value.
Qed.

Lemma store_at (done todo : list (list Q)) (front rest : list Q) (old value : Q) :
  Wav.store (done ++ (front ++ old :: rest) :: todo) (length done) (length front) value
  = done ++ (front ++ value :: rest) :: todo.
Proof.
  unfold Wav.store.
  rewrite nth_error_app2 by lia. rewrite Nat.sub_diag. cbn [nth_error].
  rewrite length_app. cbn [length].
  destruct (Nat.ltb_spec (length front) (length front + S (length rest))); [|lia].
  now rewrite !firstn_app_exact, !skipn_app_cons.
Qed.

Lemma decoded_rows_step (numSamples i : nat) (column : list Q) (x : Q) :
  nth_error column i = Some x -> length column = numSamples ->
  decoded_rows numSamples i column
  = map requantize (firstn i column) ++ 0%Q :: repeat 0%Q (numSamples - S i)
  /\ decoded_rows numSamples (S i) column
     = map requantize (firstn i column) ++ requantize x :: repeat 0%Q (numSamples - S i).
Proof.
  intros Hx Hlen.
  assert (Hi : i < length column) by (apply nth_error_Some; congruence).
  unfold decoded_rows. split.
  - replace (numSamples - i) with (S (numSamples - S i)) by lia. reflexivity.
  - rewrite (firstn_snoc_nth x) by assumption.
    rewrite (nth_error_nth _ _ _ Hx), map_app, <- app_assoc. reflexivity.
Qed.

Lemma store_decoded (numSamples i : nat) (done todo : list (list Q))
    (column : list Q) (x : Q) :
  nth_error column i = Some x -> length column = numSamples ->
  Wav.store (map (decoded_rows numSamples (S i)) done
             ++ map (decoded_rows numSamples i) (column :: todo))
    (length done) i (requantize x)
  = map (decoded_rows numSamples (S i)) (done ++ [column])
    ++ map (decoded_rows numSamples i) todo.
Proof.
  intros Hx Hcol.
  destruct (decoded_rows_step numSamples i column x Hx Hcol) as [Hold Hnew].
  assert (Hi : i < length column) by (apply nth_error_Some; congruence).
  pose proof (store_at (map (decoded_rows numSamples (S i)) done)
                (map (decoded_rows numSamples i) todo)
                (map requantize (firstn i column))
                (repeat 0%Q (numSamples - S i)) 0%Q (requantize x)) as Hstore.
  rewrite !length_map, length_firstn, Nat.min_l in Hstore by lia.
  cbn [map]. rewrite Hold, Hstore, <- Hnew.
  rewrite map_app, <- app_assoc. reflexivity.
Qed.

(** One row of the sample loop on a buffer that holds the samples of the
    columns [todo] at the read offset. *)
Lemma decode_row (buffer : Wav.Buffer) (numSamples i : nat) :
  forall (todo done : list (list Q)) (pre back : list Z) (reads : list nat),
    Forall (fun column => length column = numSamples) todo ->
    i < numSamples ->
    buffer = pre ++ flat_map (fun column => pcm16 (nth_error column i)) todo ++ back ->
    exists reads',
      for_range (length todo) (length done)
        (fun ch state => Wav.readSample buffer i ch state)
        (Wav.mkState
           (map (decoded_rows numSamples (S i)) done
            ++ map (decoded_rows numSamples i) todo)
           (length pre) reads None)
      = Wav.mkState (map (decoded_rows numSamples (S i)) (done ++ todo))
          (length pre + 2 * length todo) reads' None.
Proof.
  induction todo as [|column todo IH]; intros done pre back reads Hlen Hi Hbuf.
  - exists reads. cbn. now rewrite !app_nil_r, Nat.add_0_r.
  - apply Forall_cons_iff in Hlen. destruct Hlen as [Hcol Htodo].
    destruct (nth_error column i) as [x|] eqn:Hx;
      [|apply nth_error_None in Hx; lia].
    destruct (decoded_rows_step numSamples i column x Hx Hcol) as [Hold Hnew].
    cbn [flat_map] in Hbuf. rewrite Hx, <- app_assoc in Hbuf.
    cbn [length for_range].
    unfold Wav.readSample at 2. cbn [Wav.raised Wav.offset Wav.reads Wav.arrays].
    assert (Hget : Wav.getInt16 buffer (length pre) = Ok (stored_int16 (Some x)))
      by (rewrite Hbuf; apply getInt16_at).
    rewrite Hget.
    change (stored_int16 (Some x) # 32768) with (requantize x).
    rewrite (store_decoded numSamples i done todo column x Hx Hcol).
    specialize (IH (done ++ [column]) (pre ++ pcm16 (Some x)) back
                  (reads ++ [length pre]) Htodo Hi).
    rewrite <- app_assoc in IH. specialize (IH Hbuf).
    destruct IH as [reads' IH]. exists reads'.
    rewrite !length_app, pcm16_length in IH. cbn [length] in IH.
    rewrite Nat.add_1_r in IH. rewrite IH.
    rewrite <- app_assoc. cbn [app]. f_equal. lia.
Qed.

Lemma flat_map_indices {A B : Type} (g : option A -> list B) :
  forall (l pre : list A),
    flat_map (fun k => g (nth_error (pre ++ l) k)) (seq (length pre) (length l))
    = flat_map (fun x => g (Some x)) l.
Proof.
  induction l as [|a l IH]; intros pre; [reflexivity|].
  cbn [length seq flat_map].
  rewrite nth_error_app2 by lia. rewrite Nat.sub_diag. cbn [nth_error].
  f_equal.
  specialize (IH (pre ++ [a])). rewrite <- app_assoc in IH. cbn [app] in IH.
  rewrite length_app in IH. cbn [length] in IH. rewrite Nat.add_1_r in IH.
  exact IH.
Qed.

Lemma row_bytes (channels : list (list Q)) (i : nat) :
  flat_map (fun ch => pcm16 (Wav.sampleAt channels ch i)) (seq 0 (length channels))
  = flat_map (fun column => pcm16 (nth_error column i)) channels.
Proof.
  unfold Wav.sampleAt.
  exact (flat_map_indices
           (fun c => pcm16 match c with Some channel => nth_error channel i | None => None end)
           channels []).
Qed.

(** The sample loop on a buffer that holds the rows [i], [i+1], ... at the
    read offset. *)
Lemma decode_rows (buffer : Wav.Buffer) (channels : list (list Q)) (numSamples : nat) :
  Forall (fun column => length column = numSamples) channels ->
  forall (n i : nat) (pre back : list Z) (reads : list nat),
    i + n = numSamples ->
    buffer = pre ++ wav_payload channels (seq i n) ++ back ->
    exists reads',
      for_range n i
        (fun i state =>
           for_range (length channels) 0
             (fun ch state => Wav.readSample buffer i ch state) state)
        (Wav.mkState (map (decoded_rows numSamples i) channels) (length pre) reads None)
      = Wav.mkState (map (decoded_rows numSamples numSamples) channels)
          (length pre + 2 * length channels * n) reads' None.
Proof.
  intros Hlen. induction n as [|n IH]; intros i pre back reads Hrows Hbuf.
  - exists reads. cbn [for_range]. rewrite Nat.add_0_r in Hrows. subst i.
    f_equal. lia.
  - unfold wav_payload in Hbuf. cbn [seq flat_map] in Hbuf.
    rewrite row_bytes, <- app_assoc in Hbuf. fold (wav_payload channels (seq (S i) n)) in Hbuf.
    cbn [for_range].
    destruct (decode_row buffer numSamples i channels [] pre
                (wav_payload channels (seq (S i) n) ++ back) reads Hlen ltac:(lia) Hbuf)
      as [reads1 Hrow].
    cbn [length map app] in Hrow. rewrite Hrow.
    set (row := flat_map (fun column => pcm16 (nth_error column i)) channels) in *.
    assert (Hrowlen : length row = 2 * length channels).
    { unfold row. rewrite <- row_bytes.
      apply (row_length (fun ch => Wav.sampleAt channels ch i)). }
    rewrite app_assoc in Hbuf.
    destruct (IH (S i) (pre ++ row) back reads1 ltac:(lia) Hbuf) as [reads' Hrest].
    rewrite length_app, Hrowlen in Hrest. rewrite Hrest.
    exists reads'. f_equal. lia.
Qed.

Lemma decoded_rows_none (numSamples : nat) (channels : list (list Q)) (start : nat) :
  map (decoded_rows numSamples 0) channels
  = map (fun _ => repeat 0%Q numSamples) (seq start (length channels)).
Proof.
  revert start. induction channels as [|column channels IH]; intros start; [reflexivity|].
  cbn [map length seq]. rewrite <- IH. f_equal.
  unfold decoded_rows. cbn [firstn map app]. now rewrite Nat.sub_0_r.
Qed.

Lemma decoded_rows_all (numSamples : nat) (channels : list (list Q)) :
  Forall (fun column => length column = numSamples) channels ->
  map (decoded_rows numSamples numSamples) channels = map (map requantize) channels.
Proof.
  intros Hlen. apply map_ext_in. intros column Hin.
  rewrite Forall_forall in Hlen. specialize (Hlen _ Hin).
  unfold decoded_rows. rewrite <- Hlen. rewrite firstn_all, Nat.sub_diag.
  apply app_nil_r.
Qed.

(** The header fields that [decodeWav] reads back from an encoded buffer. *)
Lemma encoded_header_fields (numChannels : nat) (rate : Z) (dataSize : nat)
    (payload : list Z) :
  let buffer := wav_header numChannels rate dataSize ++ payload in
  passes_initial_checks buffer
  /\ Wav.getUint16 buffer 22 = Ok (Z.of_nat numChannels mod 2 ^ 16)%Z
  /\ Wav.getUint32 buffer 24 = Ok (rate mod 2 ^ 32)%Z
  /\ Wav.getUint16 buffer 34 = Ok 16%Z
  /\ Wav.getUint32 buffer 40 = Ok (Z.of_nat dataSize mod 2 ^ 32)%Z.
Proof.
  intros buffer. subst buffer.
  unfold passes_initial_checks, Wav.getUint16, Wav.getUint32, Wav.byteAt,
    Wav.toString, wav_header, Wav.bytes16, Wav.bytes32,
    Wav.tag_RIFF, Wav.tag_WAVE, Wav.tag_fmt, Wav.tag_data, Wav.HEADER_SIZE.
  cbn [app length Nat.add Nat.sub Nat.leb nth firstn skipn map].
  repeat split.
  - lia.
  - now rewrite bytes16_value.
  - rewrite bytes32_value; [reflexivity|]. apply Z.mod_pos_bound. lia.
  - rewrite bytes32_value; [reflexivity|]. apply Z.mod_pos_bound. lia.
Qed.

(** [dataSize / (numChannels * bytesPerSample)] for the header of an
    encoded buffer: the number of samples per channel. *)
Lemma encoded_sample_count (numSamples numChannels : nat) :
  (0 < numChannels)%nat ->
  exists q : Q,
    Wav.divide (Z.of_nat (numSamples * numChannels * 2))
      (inject_Z (Z.of_nat numChannels) * (inject_Z 16 / 8))
    = Wav.Quotient q
    /\ Qfloor q = Z.of_nat numSamples
    /\ Qceiling q = Z.of_nat numSamples.
Proof.
  intros Hnc. unfold Wav.divide.
  assert (Hnz : ~ inject_Z (Z.of_nat numChannels) == 0).
  { unfold Qeq. cbn. lia. }
  destruct (Qeq_bool (inject_Z (Z.of_nat numChannels) * (inject_Z 16 / 8)) 0) eqn:Hzero.
  - exfalso. apply Qeq_bool_eq in Hzero. apply Hnz.
    unfold Qeq in *. cbn in *. lia.
  - eexists. split; [reflexivity|].
    assert (Hq : inject_Z (Z.of_nat (numSamples * numChannels * 2))
                 / (inject_Z (Z.of_nat numChannels) * (inject_Z 16 / 8))
                 == inject_Z (Z.of_nat numSamples)).
    { rewrite !Nat2Z.inj_mul, !inject_Z_mult.
      change (inject_Z (Z.of_nat 2)) with 2%Q. change (inject_Z 16) with 16%Q.
      field. exact Hnz. }
    split.
    + rewrite (Qfloor_comp _ _ Hq). apply Qfloor_Z.
    + rewrite (Qceiling_comp _ _ Hq). apply Qceiling_Z.
Qed.

Lemma sampleAt_requantized (channels : list (list Q)) (ch i : nat) :
  Wav.sampleAt (map (map requantize) channels) ch i
  = option_map requantize (Wav.sampleAt channels ch i).
Proof.
  unfold Wav.sampleAt. rewrite nth_error_map.
  destruct (nth_error channels ch) as [channel|]; [|reflexivity].
  cbn [option_map]. apply nth_error_map.
Qed.

(** Decoding an encoded buffer returns every sample requantized. *)
Lemma decode_encode (channel0 : list Q) (rest : list (list Q)) (rate : Z) :
  let channels := channel0 :: rest in
  (Z.of_nat (length channels) < 2 ^ 16)%Z ->
  Forall (fun column => length column = length channel0) channels ->
  (Z.of_nat (length channel0 * length channels * 2) < 2 ^ 32)%Z ->
  (0 <= rate < 2 ^ 32)%Z ->
  exists buffer,
    Wav.encodeWav channels rate = Ok buffer
    /\ Wav.outcome (Wav.decodeWav buffer)
       = Ok (Wav.mkDecoded (map (map requantize) channels) rate).
Proof.
  intros channels Hnc Hlen Hsize Hrate.
  set (numSamples := length channel0) in *.
  set (dataSize := (numSamples * length channels * 2)%nat) in *.
  set (buffer := wav_header (length channels) rate dataSize
                 ++ wav_payload channels (seq 0 numSamples)).
  exists buffer. split; [apply encodeWav_bytes|].
  destruct (encoded_header_fields (length channels) rate dataSize
              (wav_payload channels (seq 0 numSamples)))
    as (Hchecks & Hf1 & Hf2 & Hf3 & Hf4).
  fold buffer in Hchecks, Hf1, Hf2, Hf3, Hf4.
  rewrite Z.mod_small in Hf1 by lia.
  rewrite Z.mod_small in Hf2 by lia.
  rewrite Z.mod_small in Hf4 by lia.
  destruct (encoded_sample_count numSamples (length channels)
              ltac:(cbn [length channels]; lia)) as (q & Hdiv & Hfloor & Hceil).
  fold dataSize in Hdiv.
  destruct (decodeWav_run buffer _ _ _ _ _ Hchecks Hf1 Hf2 Hf3 Hf4 Hdiv)
    as (final & Hfinal & ->).
  rewrite Hfloor, Hceil, !Nat2Z.id in Hfinal.
  rewrite <- (decoded_rows_none numSamples channels 0) in Hfinal.
  destruct (decode_rows buffer channels numSamples Hlen numSamples 0
              (wav_header (length channels) rate dataSize) [] []
              eq_refl ltac:(unfold buffer; now rewrite app_nil_r))
    as [reads' Hloop].
  change (length (wav_header (length channels) rate dataSize)) with Wav.HEADER_SIZE in Hloop.
  rewrite Hloop in Hfinal. subst final. cbn [Wav.raised Wav.arrays Wav.outcome].
  now rewrite decoded_rows_all.
Qed.

(* ================================================================== *)
(** * The track façade *)

#[local] Open Scope float_scope.

(** C1: [normalize()] without options applies the ceiling coded in
    normalize.ts, -1 dBTP, and not the documented -1.5 dBTP: the call is
    the same as the call with [peakLimit: -1], for every track. *)
Theorem normalize_default_peak_limit (host : Host) (track : AudioTrack.t) :
  AudioTrack.normalize host track None
  = AudioTrack.normalize host track
      (Some (Transforms.mkNormalizeOptions (Some (-14)) (Some (-1))))
  /\ Transforms.normalizeLoudness host (AudioTrack._channels track)
       (AudioTrack._sampleRate track) None
     = Transforms.normalizeLoudness host (AudioTrack._channels track)
         (AudioTrack._sampleRate track)
         (Some (Transforms.mkNormalizeOptions None (Some (-1)))).
Proof. split; reflexivity. Qed.

(** C2: [trimSilence()] without options uses a linear threshold of 0.01 and
    keeps no head or tail: of the padded click only the click is left,
    where the documented defaults would keep 10 + 1 + 50 samples. *)
Theorem trimSilence_defaults :
  (forall channels rate,
      Transforms.trimSilence channels rate None
      = Transforms.trimSilence channels rate
          (Some (Transforms.mkTrimOptions (Some 0.01) (Some 0) (Some 0))))
  /\ AudioTrack.trimSilence padded_click None = Ok (AudioTrack.mk [[0.5]] 1000)
  /\ AudioTrack.trimSilence padded_click (Some documented_trim_defaults)
     = Ok (AudioTrack.mk [repeat 0 10 ++ [0.5] ++ repeat 0 50] 1000).
Proof. split; [reflexivity|split; vm_compute; reflexivity]. Qed.

Lemma concatChannels_from_errors (a b : list Float32Array) :
  forall i, Transforms.concatChannels_from i a b <> Throw SampleRateMismatch.
Proof.
  induction a as [|aCh a IH]; intros i; cbn [Transforms.concatChannels_from].
  - discriminate.
  - destruct (nth_error b i); [|discriminate].
    specialize (IH (S i)).
    destruct (Transforms.concatChannels_from (S i) a b); cbn [bind]; congruence.
Qed.

Lemma mixChannels_from_errors (gain : float) (a b : list Float32Array) :
  forall i, Transforms.mixChannels_from i gain a b <> Throw SampleRateMismatch.
Proof.
  induction a as [|aCh a IH]; intros i; cbn [Transforms.mixChannels_from].
  - discriminate.
  - destruct (nth_error b i); [|discriminate].
    specialize (IH (S i)).
    destruct (Transforms.mixChannels_from (S i) gain a b); cbn [bind]; congruence.
Qed.

(** C3: [concat] and [mix] never look at the sample rates: they never
    report a mismatch, and joining a 44100 Hz track with a 48000 Hz track
    returns a track at 44100 Hz. *)
Theorem concat_mix_ignore_sample_rate (host : Host) :
  (forall a b gainDb,
      AudioTrack.concat a b <> Throw SampleRateMismatch
      /\ AudioTrack.mix host a b gainDb <> Throw SampleRateMismatch)
  /\ AudioTrack.concat track_44100 track_48000
     = Ok (AudioTrack.mk [[0.5; 0.25]] 44100)
  /\ exists mixed,
       AudioTrack.mix host track_44100 track_48000 None
       = Ok (AudioTrack.mk [[mixed]] 44100).
Proof.
  split; [|split].
  - intros a b gainDb. unfold AudioTrack.concat, AudioTrack.mix,
      Transforms.concatChannels, Transforms.mixChannels. split.
    + destruct (negb _); [discriminate|].
      pose proof (concatChannels_from_errors (AudioTrack._channels a)
                    (AudioTrack._channels b) 0) as H.
      destruct (Transforms.concatChannels_from 0 _ _); cbn [bind]; congruence.
    + set (gain := dbToLinear host _).
      pose proof (mixChannels_from_errors gain (AudioTrack._channels a)
                    (AudioTrack._channels b) 0) as H.
      destruct (Transforms.mixChannels_from 0 _ _ _); cbn [bind]; congruence.
  - reflexivity.
  - eexists. reflexivity.
Qed.

Lemma changeSpeed_errors (capacity : nat) (rate : float)
    (channels : list Float32Array) :
  Transforms.changeSpeed capacity channels rate <> Throw InvalidSpeedRate.
Proof.
  unfold Transforms.changeSpeed.
  induction channels as [|ch channels IH]; cbn [mapM]; [discriminate|].
  unfold Transforms.changeSpeedChannel at 1, F32.alloc, JS.ToIndex.
  destruct (JS.ToIntegerOrInfinity _) as [|z|]; cbn [bind]; try discriminate.
  destruct ((0 <=? z)%Z && (z <=? 2 ^ 53 - 1)%Z); cbn [bind]; [|discriminate].
  destruct (_ && _)%bool; cbn [bind]; [|discriminate].
  destruct (mapM _ channels); cbn [bind]; congruence.
Qed.

(** C4: [speed] does not check its rate: it never reports an invalid
    rate, and a one-sample track played at rate -4 comes back as an empty
    track.  This holds whatever the host is able to allocate. *)
Theorem speed_accepts_negative_rate (capacity : nat) :
  (forall track rate,
      AudioTrack.speed capacity track rate <> Throw InvalidSpeedRate)
  /\ AudioTrack.speed capacity track_44100 (-4) = Ok (AudioTrack.mk [[]] 44100)
  /\ AudioTrack.speed capacity (AudioTrack.mk [[]] 44100) 0
     = Ok (AudioTrack.mk [[]] 44100)
  /\ AudioTrack.speed capacity track_44100 0 = Throw RangeError.
Proof.
  split; [|repeat split; reflexivity].
  intros track rate. unfold AudioTrack.speed.
  pose proof (changeSpeed_errors capacity rate (AudioTrack._channels track)) as H.
  destruct (Transforms.changeSpeed _ _ _); cbn [bind]; congruence.
Qed.

(** C5 (as amended): [fromChannels] validates nothing.  It never fails, it
    wraps the channel list and the rate it is given, and the track it
    builds satisfies I1 exactly when the buffers it was given have the same
    length. *)
Theorem fromChannels_wraps (channels : list Float32Array) (sampleRate : float) :
  AudioTrack.fromChannels channels sampleRate = Ok (AudioTrack.mk channels sampleRate)
  /\ (AudioTrack.I1 (AudioTrack.mk channels sampleRate)
      <-> forall a b, In a channels -> In b channels -> length a = length b).
Proof. split; [reflexivity|]. unfold AudioTrack.I1. cbn. tauto. Qed.

(** C5, as stated, fails: an empty channel list and buffers of different
    lengths are both accepted, and the second track breaks I1. *)
Lemma fromChannels_accepts_anything :
  AudioTrack.fromChannels [] 44100 = Ok (AudioTrack.mk [] 44100)
  /\ AudioTrack.fromChannels [[0]; [0; 0]] 44100 = Ok (AudioTrack.mk [[0]; [0; 0]] 44100)
  /\ ~ AudioTrack.I1 (AudioTrack.mk [[0]; [0; 0]] 44100).
Proof.
  split; [reflexivity|split; [reflexivity|]].
  intros H. specialize (H [0] [0; 0] (or_introl eq_refl) (or_intror (or_introl eq_refl))).
  discriminate.
Qed.

(* ================================================================== *)
(** * The claims about measurement and the codec *)

(** C8: for a supported rate the integrated loudness of non-empty channels
    is -Infinity when the first channel is shorter than one 400 ms block,
    [floor(0.4 * rate)] samples, and when every sample is zero (given a
    host whose [Math.pow] does not return a negative absolute gate); for
    any other rate the measurement throws. *)
Theorem integrated_loudness_edge_cases (host : Host) :
  (forall channel0 rest rate size,
      supported rate ->
      JS.ToIntegerOrInfinity (JS.floor (Lufs.BLOCK_DURATION_SEC * rate))
      = JS.Integer size ->
      (Z.of_nat (length channel0) < size)%Z ->
      Lufs.calculateIntegratedLoudness host (channel0 :: rest) rate = Ok neg_infinity)
  /\ (forall channels rate,
         channels <> [] -> supported rate ->
         (Lufs.lufsToMeanSquare host Lufs.ABSOLUTE_GATE_LUFS <? 0) = false ->
         Forall (Forall is_zero_sample) channels ->
         Lufs.calculateIntegratedLoudness host channels rate = Ok neg_infinity)
  /\ (forall channels rate,
         channels <> [] -> (rate =? 48000) = false -> (rate =? 44100) = false ->
         Lufs.calculateIntegratedLoudness host channels rate
         = Throw UnsupportedSampleRate).
Proof.
  split; [|split].
  - intros. eapply loudness_of_short_track; eassumption.
  - intros. now apply loudness_of_silence.
  - intros. now apply loudness_unsupported_rate.
Qed.

(** C8 at work: 100 samples at 48000 Hz, a second of silence at 44100 Hz,
    and a rate of 22050 Hz. *)
Lemma integrated_loudness_edge_cases_witness :
  Lufs.calculateIntegratedLoudness constant_host [repeat 0.5 100] 48000 = Ok neg_infinity
  /\ Lufs.calculateIntegratedLoudness constant_host [repeat 0 (Z.to_nat 44100)] 44100
     = Ok neg_infinity
  /\ Lufs.calculateIntegratedLoudness constant_host [[0.5]] 22050
     = Throw UnsupportedSampleRate.
Proof.
  destruct (integrated_loudness_edge_cases constant_host) as (Hshort & Hsilent & Hrate).
  split; [|split].
  - apply (Hshort (repeat 0.5 100) [] 48000 19200%Z).
    + right; reflexivity.
    + reflexivity.
    + rewrite repeat_length. reflexivity.
  - apply Hsilent.
    + discriminate.
    + left; reflexivity.
    + reflexivity.
    + constructor; [|constructor]. apply Forall_forall. intros x Hx.
      apply repeat_spec in Hx. now left.
  - apply Hrate; [discriminate|reflexivity|reflexivity].
Defined.

(** C9: [measureTruePeak] never returns less than the magnitude of a
    sample, interpolated or not, and is at least that magnitude for every
    sample that is a number; it is 0 for an empty buffer; and [truePeak]
    of a track bounds the true peak of every channel and is the true peak
    of one of them. *)
Theorem truePeak_lower_bound_and_max (host : Host) :
  (forall samples rate n x,
      nth_error samples n = Some x ->
      (TruePeak.measureTruePeak host samples rate <? PrimFloat.abs x) = false
      /\ (is_nan x = false ->
          (PrimFloat.abs x <=? TruePeak.measureTruePeak host samples rate) = true))
  /\ (forall rate, TruePeak.measureTruePeak host [] rate = 0)
  /\ (forall track,
         (forall ch, In ch (AudioTrack._channels track) ->
                     (TruePeak.measureTruePeak host ch (AudioTrack._sampleRate track)
                      <=? AudioTrack.truePeak host track) = true)
         /\ (AudioTrack._channels track <> [] ->
             exists ch, In ch (AudioTrack._channels track)
                        /\ AudioTrack.truePeak host track
                           = TruePeak.measureTruePeak host ch
                               (AudioTrack._sampleRate track))).
Proof.
  split; [|split].
  - intros samples rate n x Hn.
    assert (Habove : is_nan x = false ->
                     (PrimFloat.abs x <=? TruePeak.measureTruePeak host samples rate) = true)
      by (intros Hx; eapply measureTruePeak_above; eassumption).
    split; [|exact Habove].
    destruct (is_nan x) eqn:Hx.
    + apply float_ltb_nan_r. now rewrite is_nan_abs.
    + now apply float_leb_ltb_false, Habove.
  - reflexivity.
  - apply truePeak_is_max.
Qed.

(** C9 at work on a two-sample buffer. *)
Lemma truePeak_lower_bound_and_max_witness :
  (PrimFloat.abs (-0.5)
   <=? TruePeak.measureTruePeak constant_host [0.25; -0.5] 48000) = true.
Proof.
  destruct (truePeak_lower_bound_and_max constant_host) as (Hbound & _).
  apply (Hbound [0.25; -0.5] 48000 1%nat (-0.5)); reflexivity.
Defined.

#[local] Open Scope Q_scope.

(** What the codec does keep over a round trip: for channels of equal
    length with samples in [-1, 1], and sizes and a rate that fit the 16-
    and 32-bit header fields, [decodeWav (encodeWav c r)] returns the rate
    [r], as many channels of the same lengths, and samples that differ
    from the originals by less than 2/32768, and by less than 1/32768 for
    the samples that are not positive. *)
Lemma wav_round_trip (channel0 : list Q) (rest : list (list Q)) (rate : Z) :
  let channels := channel0 :: rest in
  (Z.of_nat (length channels) < 2 ^ 16)%Z ->
  Forall (fun column => length column = length channel0) channels ->
  (Z.of_nat (length channel0 * length channels * 2) < 2 ^ 32)%Z ->
  (0 <= rate < 2 ^ 32)%Z ->
  Forall (Forall (fun x => -1 <= x /\ x <= 1)) channels ->
  exists buffer decoded,
    Wav.encodeWav channels rate = Ok buffer
    /\ Wav.outcome (Wav.decodeWav buffer) = Ok decoded
    /\ Wav.sampleRate decoded = rate
    /\ map (@length Q) (Wav.channels decoded) = map (@length Q) channels
    /\ forall ch i x,
         Wav.sampleAt channels ch i = Some x ->
         exists y,
           Wav.sampleAt (Wav.channels decoded) ch i = Some y
           /\ Qabs (y - x) < 2 # 32768
           /\ (x <= 0 -> Qabs (y - x) < 1 # 32768).
Proof.
  intros channels Hnc Hlen Hsize Hrate Hrange.
  destruct (decode_encode channel0 rest rate Hnc Hlen Hsize Hrate)
    as (buffer & Hencode & Hdecode).
  exists buffer, (Wav.mkDecoded (map (map requantize) channels) rate).
  split; [exact Hencode|]. split; [exact Hdecode|]. split; [reflexivity|].
  cbn [Wav.channels]. split.
  - rewrite map_map. apply map_ext. intros column. apply length_map.
  - intros ch i x Hx. exists (requantize x).
    rewrite sampleAt_requantized. fold channels. rewrite Hx. split; [reflexivity|].
    unfold Wav.sampleAt in Hx.
    destruct (nth_error channels ch) as [column|] eqn:Hch; [|discriminate].
    apply nth_error_In in Hch, Hx.
    rewrite Forall_forall in Hrange. specialize (Hrange _ Hch).
    rewrite Forall_forall in Hrange. destruct (Hrange _ Hx) as [Hlo Hhi].
    now apply requantize_error.
Qed.

(** The round trip of a stereo buffer. *)
Lemma wav_round_trip_witness :
  exists buffer decoded,
    Wav.encodeWav [[1 # 2; -1 # 2]; [1 # 4; -1 # 4]] 44100 = Ok buffer
    /\ Wav.outcome (Wav.decodeWav buffer) = Ok decoded
    /\ Wav.sampleRate decoded = 44100%Z.
Proof.
  destruct (wav_round_trip [1 # 2; -1 # 2] [[1 # 4; -1 # 4]] 44100)
    as (buffer & decoded & Hencode & Hdecode & Hrate & _).
  - reflexivity.
  - repeat constructor.
  - reflexivity.
  - split; [discriminate|reflexivity].
  - repeat constructor; discriminate.
  - exists buffer, decoded. auto.
Defined.

(** A positive sample can come back more than one step lower: the
    binary32 sample 0.75 + 2^-16 is stored as 24575 and read back as
    24575/32768, 1.5/32768 below the original. *)
Lemma wav_round_trip_error_above_one_step :
  let x := 49153 # 65536 in
  let y := 24575 # 32768 in
  -1 <= x /\ x <= 1
  /\ (exists buffer,
         Wav.encodeWav [[x]] 44100 = Ok buffer
         /\ Wav.outcome (Wav.decodeWav buffer) = Ok (Wav.mkDecoded [[y]] 44100))
  /\ ~ Qabs (y - x) <= 1 # 32768.
Proof.
  cbv zeta. split; [discriminate|]. split; [discriminate|]. split.
  - eexists. split; reflexivity.
  - intros H. vm_compute in H. apply H. reflexivity.
Qed.

(** C7: the codec breaks the round-trip tolerance of 1/32768, on the
    data of the repository's own round-trip test, whose stated tolerance
    is 1/32768 + 1e-7.  The two channels of that test hold samples in
    [-1, 1]; the sample 0.9 (the binary32 value 15099494 / 2^24) of the
    second channel is scaled by 32767, truncated to 29490 by the store
    and decoded as 29490/32768, which is more than 1/32768 + 1e-7 below
    the sample. *)
Theorem wav_round_trip_exceeds_tolerance :
  let L := [0; 1 # 2; -1 # 2; 1; -1] in
  let R := [13421773 # 134217728; -13421773 # 134217728;
            15099494 # 16777216; -15099494 # 16777216; 0] in
  Forall (Forall (fun x => -1 <= x /\ x <= 1)) [L; R]
  /\ Wav.sampleAt [L; R] 1 2 = Some (15099494 # 16777216)
  /\ exists buffer,
       Wav.encodeWav [L; R] 44100 = Ok buffer
       /\ Wav.outcome (Wav.decodeWav buffer)
          = Ok (Wav.mkDecoded
                  [[0 # 32768; 16383 # 32768; -16384 # 32768;
                    32767 # 32768; -32768 # 32768];
                   [3276 # 32768; -3276 # 32768; 29490 # 32768;
                    -29491 # 32768; 0 # 32768]]
                  44100)
       /\ (1 # 32768) + (1 # 10000000) < (15099494 # 16777216) - (29490 # 32768).
Proof.
  cbv zeta. split; [|split; [reflexivity|]].
  - repeat constructor; vm_compute; discriminate.
  - match goal with
    | |- exists buffer, ?encoded = Ok buffer /\ _ =>
        exists (match encoded with Ok buffer => buffer | _ => [] end)
    end.
    split; [vm_compute; reflexivity|].
    split; vm_compute; reflexivity.
Qed.

(* ================================================================== *)
(** * Filling a typed array *)

#[local] Open Scope float_scope.

Lemma fill_loop (g : nat -> float) :
  forall (n : nat) (front back : Float32Array),
    length back = n ->
    for_range n (length front) (fun i out => F32.set out i (g i)) (front ++ back)
    = front ++ map (fun i => JS.fround (g i)) (seq (length front) n).
Proof.
  induction n as [|n IH]; intros front back Hlen.
  - destruct back; [|discriminate]. reflexivity.
  - destruct back as [|old back]; [discriminate|].
    cbn [for_range seq map].
    rewrite F32_set_app.
    replace (front ++ JS.fround (g (length front)) :: back)
      with ((front ++ [JS.fround (g (length front))]) ++ back)
      by (rewrite <- app_assoc; reflexivity).
    replace (S (length front)) with (length (front ++ [JS.fround (g (length front))]))
      by (rewrite length_app; simpl; lia).
    rewrite IH by (simpl in Hlen; lia).
    rewrite <- app_assoc. reflexivity.
Qed.

Lemma fill_zeros (g : nat -> float) (n : nat) :
  for_range n 0 (fun i out => F32.set out i (g i)) (F32.zeros n)
  = map (fun i => JS.fround (g i)) (seq 0 n).
Proof.
  exact (fill_loop g n [] (F32.zeros n) (F32_zeros_length n)).
Qed.

Lemma map_get_seq (f : float -> float) (ch : Float32Array) :
  map (fun i => f (F32.get ch i)) (seq 0 (length ch)) = map f ch.
Proof.
  unfold F32.get.
  induction ch as [|x ch IH]; [reflexivity|].
  cbn [length seq map nth]. f_equal.
  rewrite <- seq_shift, map_map. exact IH.
Qed.

Lemma map_get_rev (f : float -> float) (ch : Float32Array) :
  map (fun i => f (F32.get ch (length ch - 1 - i))) (seq 0 (length ch))
  = map f (rev ch).
Proof.
  unfold F32.get.
  induction ch as [|x ch IH]; [reflexivity|].
  cbn [length rev]. rewrite seq_S, !map_app. cbn [map plus].
  replace (S (length ch) - 1 - length ch)%nat with 0%nat by lia.
  cbn [nth]. f_equal.
  rewrite <- IH. apply map_ext_in. intros i Hi.
  apply in_seq in Hi.
  replace (S (length ch) - 1 - i)%nat with (S (length ch - 1 - i)) by lia.
  reflexivity.
Qed.

Lemma scaleChannel_map (multiplier : float) (ch : Float32Array) :
  Transforms.scaleChannel multiplier ch
  = map (fun x => JS.fround (x * multiplier)) ch.
Proof.
  unfold Transforms.scaleChannel.
  rewrite (fill_zeros (fun i => F32.get ch i * multiplier)).
  exact (map_get_seq (fun x => JS.fround (x * multiplier)) ch).
Qed.

Lemma reverseChannel_map (ch : Float32Array) :
  Transforms.reverseChannel ch = map JS.fround (rev ch).
Proof.
  unfold Transforms.reverseChannel.
  rewrite (fill_zeros (fun i => F32.get ch (length ch - 1 - i))).
  exact (map_get_rev JS.fround ch).
Qed.

(* ================================================================== *)
(** * Biquad filter: chunks and reset *)

Lemma process_calls_app (a b : list float) :
  forall f : Biquad.BiquadFilter,
    Biquad.process_calls f (a ++ b)
    = (fst (Biquad.process_calls (fst (Biquad.process_calls f a)) b),
       snd (Biquad.process_calls f a)
       ++ snd (Biquad.process_calls (fst (Biquad.process_calls f a)) b)).
Proof.
  induction a as [|x a IH]; intro f.
  - cbn [app Biquad.process_calls fst snd]. now destruct (Biquad.process_calls f b).
  - cbn [app Biquad.process_calls].
    destruct (Biquad.process f x) as [f' y].
    rewrite IH.
    destruct (Biquad.process_calls f' a) as [f'' ys].
    reflexivity.
Qed.

(** X1.  Streaming: filtering a buffer in two chunks with the same filter
    object gives the output of filtering it in one call, and leaves the
    filter in the same state. *)
Theorem processBuffer_chunks (f : Biquad.BiquadFilter) (a b : Float32Array) :
  Biquad.processBuffer f (a ++ b)
  = (let (f1, ya) := Biquad.processBuffer f a in
     let (f2, yb) := Biquad.processBuffer f1 b in
     (f2, ya ++ yb)).
Proof.
  rewrite (processBuffer_calls f (a ++ b)), (processBuffer_calls f a).
  rewrite processBuffer_calls, process_calls_app. cbn [fst snd].
  now rewrite map_app.
Qed.

Lemma process_calls_coefficients (xs : list float) :
  forall f : Biquad.BiquadFilter,
    Biquad.reset (fst (Biquad.process_calls f xs)) = Biquad.reset f.
Proof.
  induction xs as [|x xs IH]; intro f; [reflexivity|].
  cbn [Biquad.process_calls].
  destruct (Biquad.process f x) as [f' y] eqn:Hp.
  specialize (IH f').
  destruct (Biquad.process_calls f' xs) as [f'' ys].
  cbn [fst] in *. rewrite IH.
  unfold Biquad.process in Hp. injection Hp as <- _. reflexivity.
Qed.

(** X2.  After [reset], a filter that has processed any input behaves as
    the filter it was constructed as: it gives the output and the final
    state of a new filter with the same coefficients. *)
Theorem reset_restarts (coeffs : Biquad.BiquadCoefficients) (used next : Float32Array) :
  let f := fst (Biquad.processBuffer (Biquad.new coeffs) used) in
  Biquad.processBuffer (Biquad.reset f) next
  = Biquad.processBuffer (Biquad.new coeffs) next.
Proof.
  intro f. subst f.
  rewrite (processBuffer_calls (Biquad.new coeffs) used). cbn [fst].
  now rewrite process_calls_coefficients.
Qed.

(* ================================================================== *)
(** * K-weighting and loudness: outcomes *)

#[local] Open Scope float_scope.

Lemma SFeqb_finite (a : spec_float) (s : bool) (m : positive) (e : Z) :
  SFeqb a (S754_finite s m e) = true -> a = S754_finite s m e.
Proof.
  intros H. destruct a as [sa| sa| |sa ma ea]; destruct s; try destruct sa;
    unfold SFeqb, SFcompare in H; try discriminate.
  - destruct (Z.compare_spec ea e); try discriminate. subst.
    change (Pos.compare_cont Eq) with Pos.compare in H.
    destruct (Pos.compare_spec ma m); try discriminate. now subst.
  - destruct (Z.compare_spec ea e); try discriminate. subst.
    change (Pos.compare_cont Eq) with Pos.compare in H.
    destruct (Pos.compare_spec ma m); try discriminate. now subst.
Qed.

Lemma eqb_supported (rate : float) :
  (rate =? 48000) || (rate =? 44100) = true -> supported rate.
Proof.
  intros H. apply orb_true_iff in H. destruct H as [H | H];
    rewrite FloatAxioms.eqb_spec in H; [right | left]; apply Prim2SF_inj;
    exact (SFeqb_finite _ _ _ _ H).
Qed.

(** X3.  [applyKWeighting] has K-weighting coefficients for 48000 Hz and
    44100 Hz only: for these rates it returns a buffer as long as its
    input, for every other rate it throws the unsupported-rate error. *)
Theorem applyKWeighting_outcome (samples : Float32Array) (rate : float) :
  if (rate =? 48000) || (rate =? 44100)
  then exists out, KWeighting.applyKWeighting samples rate = Ok out
                   /\ length out = length samples
  else KWeighting.applyKWeighting samples rate = Throw UnsupportedSampleRate.
Proof.
  unfold KWeighting.applyKWeighting, KWeighting.createKWeightingFilters.
  destruct (rate =? 48000); [|destruct (rate =? 44100)]; cbn [orb bind];
    try reflexivity;
    (eexists; split; [reflexivity|]; now rewrite !processBuffer_length).
Qed.

Lemma loudness_returns (host : Host) (channels : list Float32Array) (rate : float) :
  supported rate ->
  exists lufs, Lufs.calculateIntegratedLoudness host channels rate = Ok lufs.
Proof.
  intros Hrate. unfold Lufs.calculateIntegratedLoudness.
  destruct channels as [|channel0 rest]; [now eexists|].
  destruct (mapM_applyKWeighting (channel0 :: rest) rate Hrate)
    as (kWeighted & -> & Hlen & _).
  cbn [bind].
  destruct kWeighted as [|k0 krest]; [discriminate|].
  destruct (calculateBlockMeanSquares_supported k0 krest rate Hrate)
    as (blockSize & size & hop & _ & _ & _ & ->).
  destruct (Z.of_nat (length k0) <? size)%Z; [now eexists|].
  cbn [bind].
  match goal with
  | |- context [Lufs.blocks_loop ?fuel ?block ?a ?b ?c ?d] =>
      destruct (Lufs.blocks_loop fuel block a b c d) as [|b0 bs]
  end; [now eexists|].
  destruct (Lufs.applyGating host (b0 :: bs) =? 0); now eexists.
Qed.

(** X4.  The mono/stereo loudness measurement always returns a number at
    48000 Hz and 44100 Hz, whatever the samples and the host's [Math]
    functions are (no exception, no endless loop); at any other rate it
    throws the unsupported-rate error. *)
Theorem measureLUFS_outcome (host : Host) (leftChannel : Float32Array)
    (rightChannel : option Float32Array) (rate : float) :
  if (rate =? 48000) || (rate =? 44100)
  then exists lufs, Lufs.measureLUFS host leftChannel rightChannel rate = Ok lufs
  else Lufs.measureLUFS host leftChannel rightChannel rate
       = Throw UnsupportedSampleRate.
Proof.
  unfold Lufs.measureLUFS.
  destruct ((rate =? 48000) || (rate =? 44100)) eqn:Hrate.
  - apply loudness_returns, eqb_supported, Hrate.
  - apply orb_false_iff in Hrate. destruct Hrate as [H1 H2].
    apply loudness_unsupported_rate; [|assumption|assumption].
    destruct rightChannel; discriminate.
Qed.

(** ** The number of gating blocks *)

Lemma blocks_loop_exit (block : nat -> float) (size hop n : Z) (fuel : nat) (start : Z) :
  (n < start + size)%Z ->
  Lufs.blocks_loop fuel block size hop n start = [].
Proof.
  intros H. destruct fuel; [reflexivity|]. cbn [Lufs.blocks_loop].
  destruct (Z.leb_spec (start + size) n); [lia|reflexivity].
Qed.

Lemma blocks_loop_length (block : nat -> float) (size hop n : Z) :
  (0 < hop)%Z -> (0 <= size)%Z ->
  forall (fuel : nat) (start : Z),
    (n - start < Z.of_nat fuel)%Z ->
    (start + size <= n)%Z ->
    Z.of_nat (length (Lufs.blocks_loop fuel block size hop n start))
    = ((n - size - start) / hop + 1)%Z.
Proof.
  intros Hhop Hsize. induction fuel as [|fuel IH]; intros start Hfuel Hfit.
  - simpl in Hfuel. lia.
  - cbn [Lufs.blocks_loop].
    destruct (Z.leb_spec (start + size) n) as [_|]; [|lia].
    cbn [length]. rewrite Nat2Z.inj_succ.
    destruct (Z.le_gt_cases (start + hop + size) n) as [Hnext | Hlast].
    + rewrite IH by lia.
      replace (n - size - start)%Z with ((n - size - (start + hop)) + 1 * hop)%Z by lia.
      rewrite Z.div_add by lia. lia.
    + rewrite blocks_loop_exit by lia.
      rewrite Z.div_small by lia. reflexivity.
Qed.

Lemma calculateBlockMeanSquares_44100 (channel0 : Float32Array)
    (rest : list Float32Array) :
  Lufs.calculateBlockMeanSquares (channel0 :: rest) 44100
  = if (Z.of_nat (length channel0) <? 17640)%Z then Ok []
    else Ok (Lufs.blocks_loop (S (length channel0))
               (Lufs.blockPower (channel0 :: rest)
                  (map (fun ch => KWeighting.getChannelWeight ch
                                    (length (channel0 :: rest)))
                       (seq 0 (length (channel0 :: rest))))
                  17640 (Z.to_nat 17640))
               17640 4410 (Z.of_nat (length channel0)) 0).
Proof.
  unfold Lufs.calculateBlockMeanSquares.
  rewrite blockSize_44100, hopSize_44100. reflexivity.
Qed.

Lemma calculateBlockMeanSquares_48000 (channel0 : Float32Array)
    (rest : list Float32Array) :
  Lufs.calculateBlockMeanSquares (channel0 :: rest) 48000
  = if (Z.of_nat (length channel0) <? 19200)%Z then Ok []
    else Ok (Lufs.blocks_loop (S (length channel0))
               (Lufs.blockPower (channel0 :: rest)
                  (map (fun ch => KWeighting.getChannelWeight ch
                                    (length (channel0 :: rest)))
                       (seq 0 (length (channel0 :: rest))))
                  19200 (Z.to_nat 19200))
               19200 4800 (Z.of_nat (length channel0)) 0).
Proof.
  unfold Lufs.calculateBlockMeanSquares.
  rewrite blockSize_48000, hopSize_48000. reflexivity.
Qed.

(** X5.  The gating blocks are 400 ms long and start every 100 ms: for
    [n] samples per channel, [calculateBlockMeanSquares] returns no block
    when [n] is below the block size (17640 samples at 44100 Hz, 19200 at
    48000 Hz) and [(n - size) / hop + 1] blocks otherwise, with the hop
    4410 and 4800. *)
Theorem calculateBlockMeanSquares_block_count (channel0 : Float32Array)
    (rest : list Float32Array) :
  let n := Z.of_nat (length channel0) in
  (exists blocks,
      Lufs.calculateBlockMeanSquares (channel0 :: rest) 44100 = Ok blocks
      /\ Z.of_nat (length blocks) = block_count 17640 4410 n)
  /\ (exists blocks,
         Lufs.calculateBlockMeanSquares (channel0 :: rest) 48000 = Ok blocks
         /\ Z.of_nat (length blocks) = block_count 19200 4800 n).
Proof.
  intro n. subst n. unfold block_count. split.
  - rewrite calculateBlockMeanSquares_44100.
    destruct (Z.of_nat (length channel0) <? 17640)%Z eqn:Hshort.
    + now eexists.
    + apply Z.ltb_ge in Hshort. eexists. split; [reflexivity|].
      rewrite blocks_loop_length by lia. f_equal. f_equal. lia.
  - rewrite calculateBlockMeanSquares_48000.
    destruct (Z.of_nat (length channel0) <? 19200)%Z eqn:Hshort.
    + now eexists.
    + apply Z.ltb_ge in Hshort. eexists. split; [reflexivity|].
      rewrite blocks_loop_length by lia. f_equal. f_equal. lia.
Qed.

(* ================================================================== *)
(** * True peak: the range of the result, silence, stereo *)

#[local] Open Scope float_scope.

Lemma fold_truePeak (host : Host) (track : AudioTrack.t) :
  bounds 0 (AudioTrack.truePeak host track).
Proof.
  unfold AudioTrack.truePeak.
  set (f := fun ch => TruePeak.measureTruePeak host ch (AudioTrack._sampleRate track)).
  change (fold_left _ (AudioTrack._channels track) 0)
    with (fold_left (fun peak a => if peak <? f a then f a else peak)
            (AudioTrack._channels track) 0).
  apply (fold_peak f); [|reflexivity].
  intro ch. apply measureTruePeak_bounds.
Qed.

(** X6.  A true peak is [+0] or a positive number (possibly Infinity): it
    is never NaN, negative or [-0], whatever the samples (NaN included)
    and the host's [Math.sin] are.  This holds for [measureTruePeak] and
    for the [truePeak()] of a track. *)
Theorem truePeak_range (host : Host) (samples : Float32Array) (rate : float)
    (track : AudioTrack.t) :
  let peak := TruePeak.measureTruePeak host samples rate in
  let trackPeak := AudioTrack.truePeak host track in
  (peak = 0 \/ (0 <? peak) = true) /\ is_nan peak = false
  /\ (trackPeak = 0 \/ (0 <? trackPeak) = true) /\ is_nan trackPeak = false.
Proof.
  cbv zeta.
  pose proof (measureTruePeak_bounds host samples rate) as Hp.
  pose proof (fold_truePeak host track) as Ht.
  split; [exact (bounds_zero_peak _ Hp)|].
  split; [exact (bounds_nan _ _ Hp)|].
  split; [exact (bounds_zero_peak _ Ht)|].
  exact (bounds_nan _ _ Ht).
Qed.

(** ** Silence *)

Lemma zero_sample_or_nan_spec (x : float) :
  (exists s, Prim2SF x = S754_zero s) \/ Prim2SF x = S754_nan ->
  zero_sample_or_nan x.
Proof.
  intros [[[|] H] | H].
  - right; left. apply Prim2SF_inj. exact H.
  - left. apply Prim2SF_inj. exact H.
  - right; right. apply Prim2SF_inj. exact H.
Qed.

Lemma mul_silence (c z : float) :
  zero_sample_or_nan z -> zero_sample_or_nan (c * z).
Proof.
  intros Hz. apply zero_sample_or_nan_spec. rewrite FloatAxioms.mul_spec.
  destruct Hz as [-> | [-> | ->]];
    [change (Prim2SF 0) with (S754_zero false)
    |change (Prim2SF (-0)) with (S754_zero true)
    |change (Prim2SF nan) with S754_nan];
    destruct (Prim2SF c) as [s|s| |s m e]; unfold SF64mul; cbn [SFmul]; eauto.
Qed.

Lemma add_silence (a b : float) :
  zero_sample_or_nan a -> zero_sample_or_nan b -> zero_sample_or_nan (a + b).
Proof.
  intros [-> | [-> | ->]] [-> | [-> | ->]]; vm_compute; tauto.
Qed.

Lemma abs_silence (x : float) :
  zero_sample_or_nan x ->
  (if 0 <? PrimFloat.abs x then PrimFloat.abs x else 0) = 0.
Proof. intros [-> | [-> | ->]]; reflexivity. Qed.

Lemma convolution_silence (samples : Float32Array) (phase : list float) (n : nat) :
  Forall is_zero_sample samples ->
  zero_sample_or_nan
    (for_range TruePeak.FIR_TAPS_PER_PHASE 0
       (fun k sum => sum + nth k phase nan * F32.get samples (n - k))
       0).
Proof.
  intros Hs.
  change TruePeak.FIR_TAPS_PER_PHASE with (0 + TruePeak.FIR_TAPS_PER_PHASE)%nat.
  apply (for_range_invariant (fun _ s => zero_sample_or_nan s)); [now left|].
  intros k sum _ Hsum.
  apply add_silence; [assumption|].
  apply mul_silence. exact (get_silent samples (n - k) Hs).
Qed.

Lemma measureTruePeak_silence (host : Host) (samples : Float32Array) (rate : float) :
  Forall is_zero_sample samples ->
  TruePeak.measureTruePeak host samples rate = 0.
Proof.
  intros Hs. unfold TruePeak.measureTruePeak.
  destruct (length samples =? 0)%nat; [reflexivity|].
  change (length samples) with (0 + length samples)%nat at 1.
  apply (for_range_invariant (fun _ m => m = 0)); [reflexivity|].
  intros n maxPeak _ ->. cbv zeta.
  rewrite (abs_silence _ (get_silent samples n Hs)).
  destruct (n <? TruePeak.FIR_TAPS_PER_PHASE - 1)%nat; [reflexivity|].
  change TruePeak.OVERSAMPLING_FACTOR with (0 + TruePeak.OVERSAMPLING_FACTOR)%nat.
  apply (for_range_invariant (fun _ m => m = 0)); [reflexivity|].
  intros p m _ ->.
  exact (abs_silence _ (convolution_silence samples _ n Hs)).
Qed.

(** X7.  The true peak of digital silence is exactly 0: when every sample
    is [+0] or [-0], [measureTruePeak] returns [+0] for every filter table
    the host's [Math.sin] may have produced, infinite or NaN coefficients
    included. *)
Theorem truePeak_of_silence (host : Host) (samples : Float32Array) (rate : float) :
  Forall is_zero_sample samples ->
  TruePeak.measureTruePeak host samples rate = 0.
Proof. exact (measureTruePeak_silence host samples rate). Qed.

Lemma truePeak_of_silence_witness :
  Forall is_zero_sample (repeat 0 16 ++ [-0])
  /\ TruePeak.measureTruePeak constant_host (repeat 0 16 ++ [-0]) 44100 = 0.
Proof.
  assert (H : Forall is_zero_sample (repeat 0 16 ++ [-0])).
  { apply Forall_app. split.
    - apply Forall_forall. intros x Hx. apply repeat_spec in Hx. now left.
    - constructor; [now right|constructor]. }
  split; [exact H|].
  exact (truePeak_of_silence constant_host (repeat 0 16 ++ [-0]) 44100 H).
Defined.

(** ** Stereo *)

Lemma SFltb_zero_sign (x : spec_float) :
  SFltb (S754_zero false) x = true ->
  SFeqb x (S754_zero false) = false /\ SFltb x (S754_zero false) = false.
Proof. intros H. split; sf_cases. Qed.

Lemma peak_get_sign (a : float) : is_peak a -> get_sign a = false.
Proof.
  intros [-> | Hpos]; [reflexivity|].
  unfold get_sign, PrimFloat.is_zero.
  rewrite FloatAxioms.ltb_spec in Hpos.
  destruct (SFltb_zero_sign _ Hpos) as [Heq Hlt].
  rewrite FloatAxioms.eqb_spec. change (Prim2SF zero) with (S754_zero false).
  rewrite Heq. rewrite FloatAxioms.ltb_spec. exact Hlt.
Qed.

Lemma peak_not_nan (a : float) : is_peak a -> is_nan a = false.
Proof.
  intros [-> | Hpos]; [reflexivity|]. now apply float_ltb_not_nan in Hpos.
Qed.

Lemma peak_update (a : float) : is_peak a -> (if 0 <? a then a else 0) = a.
Proof. intros [-> | ->]; reflexivity. Qed.

Lemma JS_max_peaks (a b : float) :
  is_peak a -> is_peak b -> JS.max a b = if a <? b then b else a.
Proof.
  intros Ha Hb. unfold JS.max.
  rewrite (peak_not_nan a Ha), (peak_not_nan b Hb). cbn [orb].
  destruct (a <? b); [reflexivity|].
  rewrite (peak_get_sign a Ha). now destruct (b <? a).
Qed.

(** X8.  The stereo helper and the track agree: [measureTruePeakStereo]
    of two buffers, which takes [Math.max] of the two peaks, returns the
    [truePeak()] of the stereo track made of them, which compares the
    peaks with [>]. *)
Theorem measureTruePeakStereo_is_track_peak (host : Host) (left right : Float32Array)
    (rate : float) :
  TruePeak.measureTruePeakStereo host left right rate
  = AudioTrack.truePeak host (AudioTrack.mk [left; right] rate).
Proof.
  unfold TruePeak.measureTruePeakStereo, AudioTrack.truePeak.
  cbn [AudioTrack._channels AudioTrack._sampleRate fold_left].
  pose proof (bounds_zero_peak _ (measureTruePeak_bounds host left rate)) as Hl.
  pose proof (bounds_zero_peak _ (measureTruePeak_bounds host right rate)) as Hr.
  rewrite (peak_update _ Hl).
  exact (JS_max_peaks _ _ Hl Hr).
Qed.

(** ** The filter table *)

(** X9.  The polyphase table has 4 phases of 12 coefficients each,
    whatever the host's [Math.sin] returns: the lookups [PHASES[p]![k]!]
    of [measureTruePeak], with [p < 4] and [k < 12], are all within the
    table. *)
Theorem PHASES_shape (host : Host) :
  length (TruePeak.PHASES host) = TruePeak.OVERSAMPLING_FACTOR
  /\ Forall (fun phase => length phase = TruePeak.FIR_TAPS_PER_PHASE)
            (TruePeak.PHASES host).
Proof.
  unfold TruePeak.PHASES, TruePeak.generatePolyphaseCoefficients. cbv zeta.
  split.
  - now rewrite !length_map, length_seq.
  - apply Forall_forall. intros phase Hin.
    apply in_map_iff in Hin. destruct Hin as (raw & <- & Hraw).
    apply in_map_iff in Hraw. destruct Hraw as (p & <- & _).
    now rewrite !length_map, length_seq.
Qed.

(* ================================================================== *)
(** * Transforms: what they return *)

#[local] Open Scope float_scope.

Lemma nth_error_skipn_cons {A : Type} (l : list A) :
  forall (i : nat) (x : A),
    nth_error l i = Some x -> skipn i l = x :: skipn (S i) l.
Proof.
  induction l as [|y l IH]; intros [|i] x H; try discriminate.
  - injection H as ->. reflexivity.
  - exact (IH i x H).
Qed.

(** ** concat *)

Lemma concatChannels_from_zip (a : list Float32Array) :
  forall (i : nat) (b : list Float32Array),
    (i + length a <= length b)%nat ->
    Transforms.concatChannels_from i a b
    = Ok (map (fun p => fst p ++ snd p) (combine a (skipn i b))).
Proof.
  induction a as [|aCh a IH]; intros i b Hlen; [reflexivity|].
  cbn [Transforms.concatChannels_from].
  destruct (nth_error b i) as [bCh|] eqn:Hb.
  - rewrite (nth_error_skipn_cons b i bCh Hb).
    rewrite IH by (simpl in Hlen; lia).
    reflexivity.
  - apply nth_error_None in Hb. simpl in Hlen. lia.
Qed.

(** X10.  [concat] throws the channel-count error when the two tracks
    differ in their number of channels; otherwise it returns, at the
    receiver's sample rate, the track whose channel [i] is the receiver's
    channel [i] followed by the other track's channel [i]. *)
Theorem concat_outcome (track other : AudioTrack.t) :
  AudioTrack.concat track other
  = if (AudioTrack.channels track =? AudioTrack.channels other)%nat
    then Ok (AudioTrack.mk
               (map (fun p => fst p ++ snd p)
                    (combine (AudioTrack._channels track) (AudioTrack._channels other)))
               (AudioTrack.sampleRate track))
    else Throw ChannelCountMismatch.
Proof.
  unfold AudioTrack.concat, AudioTrack.channels, AudioTrack.sampleRate,
    Transforms.concatChannels.
  destruct (Nat.eqb_spec (length (AudioTrack._channels track))
                         (length (AudioTrack._channels other))) as [Heq|]; cbn [negb];
    [|reflexivity].
  rewrite concatChannels_from_zip by (simpl; lia).
  reflexivity.
Qed.

(** ** mix *)

Lemma mixChannel_map (gain : float) (aCh bCh : Float32Array) :
  Transforms.mixChannel gain aCh bCh
  = map (fun j =>
           JS.fround
             ((if (j <? length aCh)%nat then F32.get aCh j else 0)
              + (if (j <? length bCh)%nat then F32.get bCh j * gain else 0)))
        (seq 0 (Nat.max (length aCh) (length bCh))).
Proof.
  unfold Transforms.mixChannel.
  exact (fill_zeros _ (Nat.max (length aCh) (length bCh))).
Qed.

Lemma mixChannel_length (gain : float) (aCh bCh : Float32Array) :
  length (Transforms.mixChannel gain aCh bCh) = Nat.max (length aCh) (length bCh).
Proof. now rewrite mixChannel_map, length_map, length_seq. Qed.

Lemma mixChannels_from_zip (gain : float) (a : list Float32Array) :
  forall (i : nat) (b : list Float32Array),
    (i + length a <= length b)%nat ->
    Transforms.mixChannels_from i gain a b
    = Ok (map (fun p => Transforms.mixChannel gain (fst p) (snd p))
              (combine a (skipn i b))).
Proof.
  induction a as [|aCh a IH]; intros i b Hlen; [reflexivity|].
  cbn [Transforms.mixChannels_from].
  destruct (nth_error b i) as [bCh|] eqn:Hb.
  - rewrite (nth_error_skipn_cons b i bCh Hb).
    rewrite IH by (simpl in Hlen; lia).
    reflexivity.
  - apply nth_error_None in Hb. simpl in Hlen. lia.
Qed.

Lemma mixChannels_from_missing (gain : float) (a : list Float32Array) :
  forall (i : nat) (b : list Float32Array),
    (i <= length b < i + length a)%nat ->
    Transforms.mixChannels_from i gain a b = Throw TypeError.
Proof.
  induction a as [|aCh a IH]; intros i b Hlen; [simpl in Hlen; lia|].
  cbn [Transforms.mixChannels_from].
  destruct (nth_error b i) as [bCh|] eqn:Hb; [|reflexivity].
  assert (i < length b)%nat by (apply nth_error_Some; congruence).
  rewrite IH by (simpl in Hlen; lia). reflexivity.
Qed.

(** X11.  [mixChannels] needs a channel of [b] for every channel of [a]:
    when [b] has fewer channels it throws a [TypeError]; otherwise it
    returns one buffer per channel of [a] (further channels of [b] are
    ignored), each as long as the longer of the two buffers mixed. *)
Theorem mixChannels_outcome (host : Host) (a b : list Float32Array)
    (gainDb : option float) :
  if (length a <=? length b)%nat
  then exists out,
         Transforms.mixChannels host a b gainDb = Ok out
         /\ shape out
            = map (fun p => Nat.max (length (fst p)) (length (snd p))) (combine a b)
  else Transforms.mixChannels host a b gainDb = Throw TypeError.
Proof.
  unfold Transforms.mixChannels.
  destruct (Nat.leb_spec (length a) (length b)).
  - rewrite mixChannels_from_zip by (simpl; lia).
    eexists. split; [reflexivity|].
    unfold shape. rewrite map_map. apply map_ext. intros [aCh bCh].
    apply mixChannel_length.
  - apply mixChannels_from_missing. simpl. lia.
Qed.

(** ** The sample-by-sample transforms *)

Lemma fadeInChannel_length (fadeSamples : float) (ch : Float32Array) :
  length (Transforms.fadeInChannel fadeSamples ch) = length ch.
Proof.
  unfold Transforms.fadeInChannel.
  rewrite (fill_zeros
             (fun i => F32.get ch i
                       * (if JS.of_nat i <? fadeSamples
                          then JS.of_nat i / fadeSamples else 1))).
  now rewrite length_map, length_seq.
Qed.

Lemma fadeOutChannel_length (fadeSamples : float) (ch : Float32Array) :
  length (Transforms.fadeOutChannel fadeSamples ch) = length ch.
Proof.
  unfold Transforms.fadeOutChannel. cbv zeta.
  rewrite (fill_zeros
             (fun i => F32.get ch i
                       * (if JS.of_nat (length ch) - fadeSamples <=? JS.of_nat i
                          then (JS.of_nat (length ch) - 1 - JS.of_nat i) / fadeSamples
                          else 1))).
  now rewrite length_map, length_seq.
Qed.

Lemma scaleChannel_length (multiplier : float) (ch : Float32Array) :
  length (Transforms.scaleChannel multiplier ch) = length ch.
Proof. now rewrite scaleChannel_map, length_map. Qed.

Lemma reverseChannel_length (ch : Float32Array) :
  length (Transforms.reverseChannel ch) = length ch.
Proof. now rewrite reverseChannel_map, length_map, length_rev. Qed.

Lemma shape_map (f : Float32Array -> Float32Array) (channels : list Float32Array) :
  (forall ch, length (f ch) = length ch) ->
  shape (map f channels) = shape channels.
Proof.
  intros Hf. unfold shape. rewrite map_map. apply map_ext. exact Hf.
Qed.

(** X12.  Gain, fade-in, fade-out and reverse keep the shape of the
    audio: they return as many channels as they are given, and every
    output buffer is as long as the input buffer it is computed from. *)
Theorem sample_transforms_keep_shape (host : Host) (channels : list Float32Array)
    (gainDb sampleRate ms : float) :
  shape (Transforms.applyGain host channels gainDb) = shape channels
  /\ shape (Transforms.applyFadeIn channels sampleRate ms) = shape channels
  /\ shape (Transforms.applyFadeOut channels sampleRate ms) = shape channels
  /\ shape (Transforms.reverseChannels channels) = shape channels.
Proof.
  unfold Transforms.applyGain, Transforms.applyFadeIn, Transforms.applyFadeOut,
    Transforms.reverseChannels.
  repeat split; apply shape_map; intro ch.
  - apply scaleChannel_length.
  - apply fadeInChannel_length.
  - apply fadeOutChannel_length.
  - apply reverseChannel_length.
Qed.

(** ** reverse *)

Lemma map_fround_float32 (ch : Float32Array) :
  Forall is_float32 ch -> map JS.fround ch = ch.
Proof.
  induction 1 as [|x ch Hx _ IH]; [reflexivity|].
  cbn [map]. now rewrite Hx, IH.
Qed.

Lemma reverseChannel_rev (ch : Float32Array) :
  Forall is_float32 ch -> Transforms.reverseChannel ch = rev ch.
Proof.
  intros H. rewrite reverseChannel_map.
  apply map_fround_float32, Forall_rev, H.
Qed.

Lemma reverseChannels_rev (channels : list Float32Array) :
  Forall (Forall is_float32) channels ->
  Transforms.reverseChannels channels = map (@rev float) channels.
Proof.
  unfold Transforms.reverseChannels.
  induction 1 as [|ch channels Hch _ IH]; [reflexivity|].
  cbn [map]. now rewrite reverseChannel_rev, IH.
Qed.

(** X13.  On buffers that hold binary32 values, as every [Float32Array]
    does, [reverseChannels] returns each channel in reverse order, and
    reversing twice gives the input back. *)
Theorem reverseChannels_involutive (channels : list Float32Array) :
  Forall (Forall is_float32) channels ->
  Transforms.reverseChannels channels = map (@rev float) channels
  /\ Transforms.reverseChannels (Transforms.reverseChannels channels) = channels.
Proof.
  intros H. split; [exact (reverseChannels_rev channels H)|].
  rewrite (reverseChannels_rev channels H).
  rewrite reverseChannels_rev.
  - rewrite map_map. rewrite <- (map_id channels) at 2.
    apply map_ext. intro ch. apply rev_involutive.
  - apply Forall_map. revert H. apply Forall_impl. intros ch. apply Forall_rev.
Qed.

Lemma reverseChannels_involutive_witness :
  Forall (Forall is_float32) [[1; 0.5; -0.25]; [0; 0.75; -1]]
  /\ Transforms.reverseChannels [[1; 0.5; -0.25]; [0; 0.75; -1]]
     = [[-0.25; 0.5; 1]; [-1; 0.75; 0]]
  /\ Transforms.reverseChannels
       (Transforms.reverseChannels [[1; 0.5; -0.25]; [0; 0.75; -1]])
     = [[1; 0.5; -0.25]; [0; 0.75; -1]].
Proof.
  assert (H : Forall (Forall is_float32) [[1; 0.5; -0.25]; [0; 0.75; -1]]).
  { repeat constructor. }
  split; [exact H|].
  exact (reverseChannels_involutive [[1; 0.5; -0.25]; [0; 0.75; -1]] H).
Defined.

(** ** gain *)

Lemma finite_spec (x : float) :
  is_finite x = true ->
  (exists s, Prim2SF x = S754_zero s) \/ (exists s m e, Prim2SF x = S754_finite s m e).
Proof.
  unfold is_finite, is_infinity. intros H.
  apply negb_true_iff, orb_false_iff in H. destruct H as [Hnan Hinf].
  apply is_nan_spec in Hnan.
  rewrite FloatAxioms.eqb_spec, FloatAxioms.abs_spec in Hinf.
  change (Prim2SF infinity) with (S754_infinity false) in Hinf.
  destruct (Prim2SF x) as [s|s| |s m e]; eauto; [discriminate|congruence].
Qed.

Lemma finite_times_zero (x : float) :
  is_finite x = true -> is_zero_sample (JS.fround (x * 0)).
Proof.
  intros H.
  assert (Hz : x * 0 = 0 \/ x * 0 = -0).
  { destruct (finite_spec x H) as [[s Hx] | (s & m & e & Hx)].
    - destruct s; [right | left]; apply Prim2SF_inj;
        rewrite FloatAxioms.mul_spec, Hx; reflexivity.
    - destruct s; [right | left]; apply Prim2SF_inj;
        rewrite FloatAxioms.mul_spec, Hx; reflexivity. }
  destruct Hz as [-> | ->]; [left | right]; reflexivity.
Qed.

Lemma not_finite_spec (x : float) :
  is_finite x = false ->
  Prim2SF x = S754_nan \/ exists s, Prim2SF x = S754_infinity s.
Proof.
  unfold is_finite, is_infinity, is_nan. intros H.
  apply negb_false_iff, orb_true_iff in H. destruct H as [Hnan | Hinf].
  - left. apply negb_true_iff in Hnan. rewrite FloatAxioms.eqb_spec in Hnan.
    destruct (Prim2SF x) as [s|s| |s m e] eqn:Hx; [| |reflexivity|];
      exfalso;
      match type of Hnan with
      | SFeqb ?a ?a = false =>
          assert (SFeqb a a = true) by (apply SFeqb_refl_not_nan; discriminate)
      end; congruence.
  - right. rewrite FloatAxioms.eqb_spec, FloatAxioms.abs_spec in Hinf.
    change (Prim2SF infinity) with (S754_infinity false) in Hinf.
    destruct (Prim2SF x) as [s|s| |s m e]; try discriminate; eauto.
Qed.

Lemma not_finite_times_zero (x : float) :
  is_finite x = false -> JS.fround (x * 0) = nan.
Proof.
  intros H.
  assert (Hz : x * 0 = nan).
  { apply Prim2SF_inj. rewrite FloatAxioms.mul_spec.
    destruct (not_finite_spec x H) as [-> | [s ->]]; reflexivity. }
  rewrite Hz. reflexivity.
Qed.

Lemma muted_channel (ch : Float32Array) :
  Forall2 (fun x y => if is_finite x then is_zero_sample y else y = nan)
          ch (Transforms.scaleChannel 0 ch).
Proof.
  rewrite scaleChannel_map.
  induction ch as [|x ch IH]; cbn [map]; constructor; [|exact IH].
  destruct (is_finite x) eqn:Hx.
  - exact (finite_times_zero x Hx).
  - exact (not_finite_times_zero x Hx).
Qed.

(** X14.  A gain of -Infinity dB mutes: [dbToLinear] maps it to the
    factor 0 without calling [Math.pow], and [applyGain] then returns,
    sample by sample, a zero ([+0] or [-0]) for every finite input sample
    and NaN for every input sample that is infinite or NaN. *)
Theorem applyGain_mutes (host : Host) (channels : list Float32Array) :
  Forall2
    (Forall2 (fun x y => if is_finite x then is_zero_sample y else y = nan))
    channels (Transforms.applyGain host channels neg_infinity).
Proof.
  unfold Transforms.applyGain.
  change (dbToLinear host neg_infinity) with 0.
  induction channels as [|ch channels IH]; cbn [map]; constructor;
    [exact (muted_channel ch)|exact IH].
Qed.

(* ================================================================== *)
(** * Normalization: outcomes *)

#[local] Open Scope float_scope.

Lemma normalizeLoudness_shape (host : Host) (channels out : list Float32Array)
    (rate : float) (options : option Transforms.NormalizeOptions) :
  Transforms.normalizeLoudness host channels rate options = Ok out ->
  shape out = shape channels.
Proof.
  unfold Transforms.normalizeLoudness.
  destruct (Lufs.calculateIntegratedLoudness host channels rate) as [lufs| |];
    cbn [bind]; try discriminate.
  destruct (lufs =? neg_infinity); intros H; injection H as <-.
  - apply shape_map. reflexivity.
  - apply shape_map. intro ch. apply scaleChannel_length.
Qed.

(** X15.  [normalizeLoudness] of at least one channel returns audio of
    the same shape (as many channels, each as long as its input) at
    48000 Hz and 44100 Hz, whatever the host's [Math] functions return;
    at any other rate it throws the unsupported-rate error. *)
Theorem normalizeLoudness_outcome (host : Host) (channels : list Float32Array)
    (rate : float) (options : option Transforms.NormalizeOptions) :
  channels <> [] ->
  if (rate =? 48000) || (rate =? 44100)
  then exists out,
         Transforms.normalizeLoudness host channels rate options = Ok out
         /\ shape out = shape channels
  else Transforms.normalizeLoudness host channels rate options
       = Throw UnsupportedSampleRate.
Proof.
  intros Hne.
  destruct ((rate =? 48000) || (rate =? 44100)) eqn:Hrate.
  - destruct (loudness_returns host channels rate (eqb_supported rate Hrate))
      as [lufs Hl].
    assert (exists out, Transforms.normalizeLoudness host channels rate options = Ok out)
      as [out Hout].
    { unfold Transforms.normalizeLoudness. rewrite Hl. cbn [bind].
      destruct (lufs =? neg_infinity); now eexists. }
    exists out. split; [exact Hout|].
    exact (normalizeLoudness_shape host channels out rate options Hout).
  - apply orb_false_iff in Hrate. destruct Hrate as [H1 H2].
    unfold Transforms.normalizeLoudness.
    now rewrite (loudness_unsupported_rate host channels rate Hne H1 H2).
Qed.

Lemma normalizeLoudness_outcome_witness :
  [[0.5; -0.5]] <> []
  /\ exists out,
       Transforms.normalizeLoudness constant_host [[0.5; -0.5]] 48000 None = Ok out
       /\ shape out = shape [[0.5; -0.5]].
Proof.
  assert (H : [[0.5; -0.5]] <> []) by discriminate.
  split; [exact H|].
  exact (normalizeLoudness_outcome constant_host [[0.5; -0.5]] 48000 None H).
Defined.

Lemma map_copy (channels : list Float32Array) : map F32.copy channels = channels.
Proof. unfold F32.copy. apply map_id. Qed.

(** X16.  Audio without a measurable loudness is returned unchanged by
    [normalizeLoudness]: at 44100 Hz and 48000 Hz, this is the case of
    audio shorter than one 400 ms block (17640 and 19200 samples) and,
    when the host's [Math.pow] gives no negative gate threshold, of
    digital silence of any length. *)
Theorem normalizeLoudness_unmeasurable (host : Host) (channel0 : Float32Array)
    (rest : list Float32Array) (rate : float) (size : Z)
    (options : option Transforms.NormalizeOptions) :
  (rate = 44100 /\ size = 17640%Z) \/ (rate = 48000 /\ size = 19200%Z) ->
  (Z.of_nat (length channel0) < size)%Z
  \/ ((Lufs.lufsToMeanSquare host Lufs.ABSOLUTE_GATE_LUFS <? 0) = false
      /\ Forall (Forall is_zero_sample) (channel0 :: rest)) ->
  Transforms.normalizeLoudness host (channel0 :: rest) rate options
  = Ok (channel0 :: rest).
Proof.
  intros Hrate Hcase. unfold Transforms.normalizeLoudness.
  assert (Hsupported : supported rate) by (destruct Hrate as [[-> _] | [-> _]];
                                           [left | right]; reflexivity).
  assert (Hsize : JS.ToIntegerOrInfinity (JS.floor (Lufs.BLOCK_DURATION_SEC * rate))
                  = JS.Integer size)
    by (destruct Hrate as [[-> ->] | [-> ->]]; reflexivity).
  assert (Lufs.calculateIntegratedLoudness host (channel0 :: rest) rate
          = Ok neg_infinity) as ->.
  { destruct Hcase as [Hshort | [Hthr Hsilent]].
    - exact (loudness_of_short_track host channel0 rest rate size
               Hsupported Hsize Hshort).
    - apply loudness_of_silence; [discriminate|assumption..]. }
  cbn [bind]. change (neg_infinity =? neg_infinity) with true. cbv iota.
  now rewrite map_copy.
Qed.

Lemma normalizeLoudness_unmeasurable_witness :
  Transforms.normalizeLoudness constant_host [[0.5; -0.5]; [0.25; 0]] 44100 None
  = Ok [[0.5; -0.5]; [0.25; 0]].
Proof.
  apply (normalizeLoudness_unmeasurable constant_host [0.5; -0.5] [[0.25; 0]] 44100
           17640 None).
  - left. split; reflexivity.
  - left. simpl. lia.
Defined.

(* ================================================================== *)
(** * Invariant I1 under the transforms *)

Lemma I1_shape (channels channels' : list Float32Array) (rate rate' : float) :
  shape channels' = shape channels ->
  AudioTrack.I1 (AudioTrack.mk channels rate) ->
  AudioTrack.I1 (AudioTrack.mk channels' rate').
Proof.
  unfold AudioTrack.I1. cbn [AudioTrack._channels].
  intros Hshape HI a b Ha Hb.
  apply (in_map (@length float)) in Ha, Hb.
  change (map (@length float) channels') with (shape channels') in Ha, Hb.
  rewrite Hshape in Ha, Hb.
  apply in_map_iff in Ha, Hb.
  destruct Ha as (a0 & <- & Ha0), Hb as (b0 & <- & Hb0).
  exact (HI a0 b0 Ha0 Hb0).
Qed.

Lemma I1_slice (channels : list Float32Array) (rate rate' start end_ : float) :
  AudioTrack.I1 (AudioTrack.mk channels rate) ->
  AudioTrack.I1
    (AudioTrack.mk (map (fun ch => F32.slice ch start end_) channels) rate').
Proof.
  unfold AudioTrack.I1. cbn [AudioTrack._channels].
  intros HI a b Ha Hb.
  apply in_map_iff in Ha, Hb.
  destruct Ha as (a0 & <- & Ha0), Hb as (b0 & <- & Hb0).
  unfold F32.slice. rewrite !length_firstn, !length_skipn.
  now rewrite (HI a0 b0 Ha0 Hb0).
Qed.

Lemma mapM_In {A B : Type} (f : A -> result B) (xs : list A) :
  forall ys, mapM f xs = Ok ys ->
             forall y, In y ys -> exists x, In x xs /\ f x = Ok y.
Proof.
  induction xs as [|x xs IH]; intros ys H y Hy; cbn [mapM] in H.
  - injection H as <-. destruct Hy.
  - destruct (f x) as [y0| |] eqn:Hx; cbn [bind] in H; try discriminate.
    destruct (mapM f xs) as [ys0| |]; cbn [bind] in H; try discriminate.
    injection H as <-. destruct Hy as [<- | Hy].
    + exists x. split; [now left|assumption].
    + destruct (IH ys0 eq_refl y Hy) as (x' & Hin & Hfx).
      exists x'. split; [now right|assumption].
Qed.

Lemma changeSpeedChannel_length (capacity : nat) (rate : float)
    (ch out : Float32Array) :
  Transforms.changeSpeedChannel capacity rate ch = Ok out ->
  JS.ToIndex (JS.round (JS.of_nat (length ch) / rate)) = Ok (length out)
  /\ granted capacity (length out).
Proof.
  unfold Transforms.changeSpeedChannel, F32.alloc, granted.
  destruct (JS.ToIndex (JS.round (JS.of_nat (length ch) / rate))) as [n| |];
    cbn [bind]; try discriminate.
  destruct (Z.leb_spec (4 * Z.of_nat n) (2 ^ 53 - 1)) as [Hbytes|];
    cbn [andb bind]; [|discriminate].
  destruct (Nat.leb_spec n capacity) as [Hcapacity|]; cbn [bind]; [|discriminate].
  rewrite repeat_length. change (repeat 0 n) with (F32.zeros n).
  intros H. injection H as <-.
  rewrite (fill_zeros
             (fun i =>
                F32.get_num ch (JS.floor (JS.of_nat i * rate))
                * (1 - (JS.of_nat i * rate - JS.floor (JS.of_nat i * rate)))
                + F32.get_num ch
                    (JS.min (JS.floor (JS.of_nat i * rate) + 1)
                            (JS.of_nat (length ch) - 1))
                  * (JS.of_nat i * rate - JS.floor (JS.of_nat i * rate)))).
  rewrite length_map, length_seq. auto.
Qed.

Lemma I1_speed (capacity : nat) (channels out : list Float32Array)
    (rate trackRate : float) :
  Transforms.changeSpeed capacity channels rate = Ok out ->
  AudioTrack.I1 (AudioTrack.mk channels trackRate) ->
  AudioTrack.I1 (AudioTrack.mk out trackRate).
Proof.
  unfold Transforms.changeSpeed, AudioTrack.I1. cbn [AudioTrack._channels].
  intros Hout HI a b Ha Hb.
  destruct (mapM_In _ _ _ Hout a Ha) as (a0 & Ha0 & Hfa).
  destruct (mapM_In _ _ _ Hout b Hb) as (b0 & Hb0 & Hfb).
  apply changeSpeedChannel_length in Hfa, Hfb.
  destruct Hfa as [Hfa _], Hfb as [Hfb _].
  rewrite (HI a0 b0 Ha0 Hb0) in Hfa. congruence.
Qed.

Ltac returned H :=
  match type of H with
  | bind ?r _ = Ok _ =>
      let chans := fresh "chans" in
      let E := fresh "E" in
      destruct r as [chans| |] eqn:E; cbn [bind] in H; try discriminate;
      injection H as <-
  end.

(** X17.  Every transform of one track keeps invariant I1 and the sample
    rate: called on a track whose buffers have one common length, [gain],
    [fadeIn], [fadeOut], [reverse], and [normalize], [trimSilence],
    [slice] and [speed] whenever they return, give a track whose buffers
    have one common length, at the sample rate of the receiver.  This
    holds whatever the host is able to allocate. *)
Theorem transforms_keep_I1 (host : Host) (capacity : nat) (track : AudioTrack.t)
    (db ms startMs rate : float) (endMs : option float)
    (normalizeOptions : option Transforms.NormalizeOptions)
    (trimOptions : option Transforms.TrimOptions) :
  AudioTrack.I1 track ->
  well_formed_from track (AudioTrack.gain host track db)
  /\ well_formed_from track (AudioTrack.fadeIn track ms)
  /\ well_formed_from track (AudioTrack.fadeOut track ms)
  /\ well_formed_from track (AudioTrack.reverse track)
  /\ (forall result, AudioTrack.normalize host track normalizeOptions = Ok result ->
                     well_formed_from track result)
  /\ (forall result, AudioTrack.trimSilence track trimOptions = Ok result ->
                     well_formed_from track result)
  /\ (forall result, AudioTrack.slice track startMs endMs = Ok result ->
                     well_formed_from track result)
  /\ (forall result, AudioTrack.speed capacity track rate = Ok result ->
                     well_formed_from track result).
Proof.
  destruct track as [channels trackRate]. intros HI.
  unfold well_formed_from, AudioTrack.gain, AudioTrack.fadeIn, AudioTrack.fadeOut,
    AudioTrack.reverse, AudioTrack.normalize, AudioTrack.trimSilence,
    AudioTrack.slice, AudioTrack.speed.
  cbn [AudioTrack._channels AudioTrack._sampleRate].
  split; [split; [|reflexivity]|].
  { refine (I1_shape _ _ _ _ (shape_map _ _ _) HI).
    intro ch. apply scaleChannel_length. }
  split; [split; [|reflexivity]|].
  { refine (I1_shape _ _ _ _ (shape_map _ _ _) HI).
    intro ch. apply fadeInChannel_length. }
  split; [split; [|reflexivity]|].
  { refine (I1_shape _ _ _ _ (shape_map _ _ _) HI).
    intro ch. apply fadeOutChannel_length. }
  split; [split; [|reflexivity]|].
  { refine (I1_shape _ _ _ _ (shape_map _ _ _) HI).
    intro ch. apply reverseChannel_length. }
  split; [|split; [|split]]; intros result H; returned H;
    (split; [|reflexivity]).
  - apply normalizeLoudness_shape in E. exact (I1_shape _ _ _ _ E HI).
  - unfold Transforms.trimSilence in E.
    destruct channels as [|channel0 rest]; [discriminate|].
    injection E as <-.
    exact (I1_slice (channel0 :: rest) trackRate trackRate _ _ HI).
  - unfold Transforms.sliceChannels in E.
    match type of E with
    | bind ?r _ = _ => destruct r as [endSample| |]; cbn [bind] in E; try discriminate
    end.
    injection E as <-.
    exact (I1_slice channels trackRate trackRate _ _ HI).
  - exact (I1_speed _ _ _ _ _ E HI).
Qed.

Lemma transforms_keep_I1_witness :
  AudioTrack.I1 stereo_track
  /\ well_formed_from stereo_track (AudioTrack.reverse stereo_track)
  /\ (forall result, AudioTrack.speed 8 stereo_track 2 = Ok result ->
                     well_formed_from stereo_track result).
Proof.
  assert (H : AudioTrack.I1 stereo_track).
  { intros a b [<- | [<- | []]] [<- | [<- | []]]; reflexivity. }
  split; [exact H|].
  pose proof (transforms_keep_I1 constant_host 8 stereo_track 0 0 0 2 None None None H)
    as (_ & _ & _ & Hr & _ & _ & _ & Hs).
  split; [exact Hr|exact Hs].
Defined.

(** X18.  [concat] and [mix] keep invariant I1 and the receiver's sample
    rate: when both tracks have buffers of one common length each, the
    track returned has buffers of one common length too. *)
Theorem concat_mix_keep_I1 (host : Host) (track other : AudioTrack.t)
    (gainDb : option float) :
  AudioTrack.I1 track -> AudioTrack.I1 other ->
  (forall result, AudioTrack.concat track other = Ok result ->
                  well_formed_from track result)
  /\ (forall result, AudioTrack.mix host track other gainDb = Ok result ->
                     well_formed_from track result).
Proof.
  destruct track as [a rate], other as [b rate']. intros Ha Hb.
  unfold AudioTrack.I1 in Ha, Hb. cbn [AudioTrack._channels] in Ha, Hb.
  split; intros result H.
  - unfold AudioTrack.concat, Transforms.concatChannels in H.
    cbn [AudioTrack._channels AudioTrack._sampleRate] in H.
    destruct (Nat.eqb_spec (length a) (length b)) as [Hlen|]; cbn [negb] in H;
      [|discriminate].
    rewrite concatChannels_from_zip in H by (simpl; lia).
    cbn [bind skipn] in H. injection H as <-.
    split; [|reflexivity].
    intros x y Hx Hy. cbn [AudioTrack._channels] in Hx, Hy.
    apply in_map_iff in Hx, Hy.
    destruct Hx as ([x1 x2] & <- & Hx), Hy as ([y1 y2] & <- & Hy).
    cbn [fst snd]. rewrite !length_app.
    rewrite (Ha x1 y1 (in_combine_l _ _ _ _ Hx) (in_combine_l _ _ _ _ Hy)).
    now rewrite (Hb x2 y2 (in_combine_r _ _ _ _ Hx) (in_combine_r _ _ _ _ Hy)).
  - unfold AudioTrack.mix, Transforms.mixChannels in H.
    cbn [AudioTrack._channels AudioTrack._sampleRate] in H.
    destruct (Nat.leb_spec (length a) (length b)) as [Hlen | Hlen].
    + rewrite mixChannels_from_zip in H by (simpl; lia).
      cbn [bind skipn] in H. injection H as <-.
      split; [|reflexivity].
      intros x y Hx Hy. cbn [AudioTrack._channels] in Hx, Hy.
      apply in_map_iff in Hx, Hy.
      destruct Hx as ([x1 x2] & <- & Hx), Hy as ([y1 y2] & <- & Hy).
      cbn [fst snd]. rewrite !mixChannel_length.
      rewrite (Ha x1 y1 (in_combine_l _ _ _ _ Hx) (in_combine_l _ _ _ _ Hy)).
      now rewrite (Hb x2 y2 (in_combine_r _ _ _ _ Hx) (in_combine_r _ _ _ _ Hy)).
    + rewrite mixChannels_from_missing in H by (simpl; lia). discriminate.
Qed.

Lemma concat_mix_keep_I1_witness :
  AudioTrack.I1 stereo_track
  /\ (forall result, AudioTrack.concat stereo_track stereo_track = Ok result ->
                     well_formed_from stereo_track result).
Proof.
  assert (H : AudioTrack.I1 stereo_track).
  { intros a b [<- | [<- | []]] [<- | [<- | []]]; reflexivity. }
  split; [exact H|].
  exact (proj1 (concat_mix_keep_I1 constant_host stereo_track stereo_track None H H)).
Defined.

(* ================================================================== *)
(** * The scanning loops of trimSilence *)

#[local] Open Scope float_scope.

Lemma findStart_found (channels : list Float32Array) (threshold : float) :
  forall (fuel i k : nat),
    (i <= k < i + fuel)%nat ->
    Transforms.aboveThreshold channels threshold k = true ->
    exists first : nat,
      Transforms.findStart channels threshold fuel i = Z.of_nat first
      /\ (i <= first <= k)%nat
      /\ Transforms.aboveThreshold channels threshold first = true
      /\ forall j, (i <= j < first)%nat ->
                   Transforms.aboveThreshold channels threshold j = false.
Proof.
  induction fuel as [|fuel IH]; intros i k Hk Hab; [lia|].
  cbn [Transforms.findStart].
  destruct (Transforms.aboveThreshold channels threshold i) eqn:Hi.
  - exists i. split; [reflexivity|]. split; [lia|]. split; [assumption|].
    intros j Hj. lia.
  - assert (k <> i) by congruence.
    destruct (IH (S i) k ltac:(lia) Hab) as (first & Hf & Hrange & Habove & Hbefore).
    exists first. split; [exact Hf|]. split; [lia|]. split; [exact Habove|].
    intros j Hj. destruct (Nat.eq_dec j i) as [-> | Hne]; [assumption|].
    apply Hbefore. lia.
Qed.

Lemma findStart_none (channels : list Float32Array) (threshold : float) :
  forall (fuel i : nat),
    (forall j, (i <= j < i + fuel)%nat ->
               Transforms.aboveThreshold channels threshold j = false) ->
    Transforms.findStart channels threshold fuel i = 0%Z.
Proof.
  induction fuel as [|fuel IH]; intros i Hnone; [reflexivity|].
  cbn [Transforms.findStart].
  rewrite (Hnone i) by lia. apply IH. intros j Hj. apply Hnone. lia.
Qed.

Lemma findEnd_found (channels : list Float32Array) (threshold : float) (n : nat) :
  forall (bound k : nat),
    (k < bound)%nat ->
    Transforms.aboveThreshold channels threshold k = true ->
    exists last : nat,
      Transforms.findEnd channels threshold n bound = Z.of_nat last
      /\ (k <= last < bound)%nat
      /\ Transforms.aboveThreshold channels threshold last = true
      /\ forall j, (last < j < bound)%nat ->
                   Transforms.aboveThreshold channels threshold j = false.
Proof.
  induction bound as [|i IH]; intros k Hk Hab; [lia|].
  cbn [Transforms.findEnd].
  destruct (Transforms.aboveThreshold channels threshold i) eqn:Hi.
  - exists i. split; [reflexivity|]. split; [lia|]. split; [assumption|].
    intros j Hj. lia.
  - assert (k <> i) by congruence.
    destruct (IH k ltac:(lia) Hab) as (last & Hl & Hrange & Habove & Hafter).
    exists last. split; [exact Hl|]. split; [lia|]. split; [exact Habove|].
    intros j Hj. destruct (Nat.eq_dec j i) as [-> | Hne]; [assumption|].
    apply Hafter. lia.
Qed.

Lemma findEnd_none (channels : list Float32Array) (threshold : float) (n : nat) :
  forall bound : nat,
    (forall j, (j < bound)%nat ->
               Transforms.aboveThreshold channels threshold j = false) ->
    Transforms.findEnd channels threshold n bound = (Z.of_nat n - 1)%Z.
Proof.
  induction bound as [|i IH]; intros Hnone; [reflexivity|].
  cbn [Transforms.findEnd].
  rewrite (Hnone i) by lia. apply IH. intros j Hj. apply Hnone. lia.
Qed.

(** X19.  The two scans of [trimSilence] over [n] samples find the first
    and the last index at which some channel is above the threshold:
    every such index lies between them.  When no sample is above the
    threshold they keep their initial values, 0 and [n - 1], which select
    the whole audio. *)
Theorem trimSilence_scans (channels : list Float32Array) (threshold : float)
    (n : nat) :
  (forall k,
      (k < n)%nat ->
      Transforms.aboveThreshold channels threshold k = true ->
      exists first last : nat,
        Transforms.findStart channels threshold n 0 = Z.of_nat first
        /\ Transforms.findEnd channels threshold n n = Z.of_nat last
        /\ (first <= k <= last)%nat /\ (last < n)%nat
        /\ Transforms.aboveThreshold channels threshold first = true
        /\ Transforms.aboveThreshold channels threshold last = true
        /\ forall j, (j < first \/ last < j < n)%nat ->
                     Transforms.aboveThreshold channels threshold j = false)
  /\ ((forall j, (j < n)%nat ->
                 Transforms.aboveThreshold channels threshold j = false) ->
      Transforms.findStart channels threshold n 0 = 0%Z
      /\ Transforms.findEnd channels threshold n n = (Z.of_nat n - 1)%Z).
Proof.
  split.
  - intros k Hk Hab.
    destruct (findStart_found channels threshold n 0 k ltac:(lia) Hab)
      as (first & Hf & Hfr & Hfa & Hfb).
    destruct (findEnd_found channels threshold n n k Hk Hab)
      as (last & Hl & Hlr & Hla & Hlb).
    exists first, last.
    split; [exact Hf|]. split; [exact Hl|]. split; [lia|]. split; [lia|].
    split; [exact Hfa|]. split; [exact Hla|].
    intros j [Hj | Hj]; [apply Hfb | apply Hlb]; lia.
  - intros Hnone. split.
    + apply findStart_none. intros j Hj. apply Hnone. lia.
    + apply findEnd_none. exact Hnone.
Qed.

Lemma trimSilence_scans_witness :
  exists first last : nat,
    Transforms.findStart [[0; 0.5; 0.25; 0; 0]] 0.01 5 0 = Z.of_nat first
    /\ Transforms.findEnd [[0; 0.5; 0.25; 0; 0]] 0.01 5 5 = Z.of_nat last
    /\ (first <= 1 <= last)%nat /\ (last < 5)%nat
    /\ Transforms.aboveThreshold [[0; 0.5; 0.25; 0; 0]] 0.01 first = true
    /\ Transforms.aboveThreshold [[0; 0.5; 0.25; 0; 0]] 0.01 last = true
    /\ forall j, (j < first \/ last < j < 5)%nat ->
                 Transforms.aboveThreshold [[0; 0.5; 0.25; 0; 0]] 0.01 j = false.
Proof.
  apply (proj1 (trimSilence_scans [[0; 0.5; 0.25; 0; 0]] 0.01 5) 1%nat).
  - lia.
  - reflexivity.
Defined.

(* ================================================================== *)
(** * WAV codec: sizes, layout and malformed files *)

#[local] Open Scope nat_scope.

Lemma wav_header_length (numChannels : nat) (sampleRate : Z) (dataSize : nat) :
  length (wav_header numChannels sampleRate dataSize) = Wav.HEADER_SIZE.
Proof. reflexivity. Qed.

Lemma wav_payload_length (channels : list (list Q)) (rows : list nat) :
  length (wav_payload channels rows) = 2 * length channels * length rows.
Proof.
  unfold wav_payload. induction rows as [|i rows IH]; cbn [flat_map length].
  - lia.
  - rewrite length_app, IH, row_length. lia.
Qed.



(** ** Interleaving *)

Lemma seq_split (n i : nat) :
  i < n -> seq 0 n = seq 0 i ++ i :: seq (S i) (n - S i).
Proof.
  intros H. replace n with (i + S (n - S i)) at 1 by lia.
  rewrite seq_app. reflexivity.
Qed.

(** X21.  The samples are interleaved: in the bytes that [encodeWav]
    returns, the 16-bit integer stored for sample [i] of channel [ch] is
    at offset [44 + 2 * (i * channels + ch)]. *)
Theorem encodeWav_interleaves (channel0 : list Q) (rest : list (list Q))
    (sampleRate : Z) (ch i : nat) :
  let channels := channel0 :: rest in
  ch < length channels -> i < length channel0 ->
  exists buffer,
    Wav.encodeWav channels sampleRate = Ok buffer
    /\ Wav.getInt16 buffer (Wav.HEADER_SIZE + 2 * (i * length channels + ch))
       = Ok (stored_int16 (Wav.sampleAt channels ch i)).
Proof.
  intros channels Hch Hi. subst channels.
  rewrite encodeWav_bytes. set (channels := channel0 :: rest) in *.
  eexists. split; [reflexivity|].
  pose proof (wav_payload_length channels (seq 0 i)) as Hbefore.
  unfold wav_payload in *.
  rewrite (seq_split (length channel0) i Hi), flat_map_app. cbn [flat_map].
  set (header := wav_header _ _ _).
  set (before := flat_map _ (seq 0 i)) in *.
  set (after := flat_map _ (seq (S i) _)).
  rewrite (seq_split (length channels) ch Hch), flat_map_app. cbn [flat_map].
  set (left := flat_map _ (seq 0 ch)).
  match goal with
  | |- Wav.getInt16 (header ++ before ++ (left ++ ?sample ++ ?right) ++ after) _ = _ =>
      replace (header ++ before ++ (left ++ sample ++ right) ++ after)
        with ((header ++ before ++ left) ++ sample ++ (right ++ after))
        by (now rewrite <- !app_assoc)
  end.
  replace (Wav.HEADER_SIZE + 2 * (i * length channels + ch))
    with (length (header ++ before ++ left)).
  - apply getInt16_at.
  - rewrite !length_app, Hbefore. subst header left.
    rewrite wav_header_length, row_length, length_seq. lia.
Qed.

Lemma encodeWav_interleaves_witness :
  exists buffer,
    Wav.encodeWav stereo_samples 44100 = Ok buffer
    /\ Wav.getInt16 buffer (Wav.HEADER_SIZE + 2 * (1 * 2 + 0)) = Ok (-8192)%Z.
Proof.
  apply (encodeWav_interleaves [1 # 2; -1 # 4]%Q [[0; 1]%Q] 44100 0 1).
  - simpl. lia.
  - simpl. lia.
Defined.

(** ** Files that are not WAV files, and malformed headers *)

Lemma header_reads (buffer : Wav.Buffer) :
  Wav.HEADER_SIZE <= length buffer ->
  exists numChannels sampleRate bitsPerSample dataSize : Z,
    Wav.getUint16 buffer 22 = Ok numChannels
    /\ Wav.getUint32 buffer 24 = Ok sampleRate
    /\ Wav.getUint16 buffer 34 = Ok bitsPerSample
    /\ Wav.getUint32 buffer 40 = Ok dataSize.
Proof.
  intros Hlen. unfold Wav.getUint16, Wav.getUint32, Wav.HEADER_SIZE in *.
  destruct (Nat.leb_spec (22 + 2) (length buffer)); [|lia].
  destruct (Nat.leb_spec (24 + 4) (length buffer)); [|lia].
  destruct (Nat.leb_spec (34 + 2) (length buffer)); [|lia].
  destruct (Nat.leb_spec (40 + 4) (length buffer)); [|lia].
  eauto 10.
Qed.

(** [decodeWav] after its initial checks. *)
Lemma decodeWav_checked (buffer : Wav.Buffer)
    (numChannels sampleRate bitsPerSample dataSize : Z) :
  passes_initial_checks buffer ->
  Wav.getUint16 buffer 22 = Ok numChannels ->
  Wav.getUint32 buffer 24 = Ok sampleRate ->
  Wav.getUint16 buffer 34 = Ok bitsPerSample ->
  Wav.getUint32 buffer 40 = Ok dataSize ->
  Wav.decodeWav buffer
  = let numSamples :=
      Wav.divide dataSize (inject_Z numChannels * (inject_Z bitsPerSample / 8))%Q in
    match mapM (fun _ => Wav.newFloat32Array numSamples)
               (seq 0 (Z.to_nat numChannels)) with
    | Ok channels =>
        match numSamples with
        | Wav.QuotientInfinity => Wav.mkRun Diverge []
        | _ =>
            let rows :=
              match numSamples with
              | Wav.Quotient q => Z.to_nat (Qceiling q)
              | _ => 0
              end in
            let final :=
              for_range rows 0
                (fun i state =>
                   for_range (Z.to_nat numChannels) 0
                     (fun ch state => Wav.readSample buffer i ch state)
                     state)
                (Wav.mkState channels Wav.HEADER_SIZE [] None) in
            match Wav.raised final with
            | Some e => Wav.mkRun (Throw e) (Wav.reads final)
            | None => Wav.mkRun (Ok (Wav.mkDecoded (Wav.arrays final) sampleRate))
                                (Wav.reads final)
            end
        end
    | Throw e => Wav.mkRun (Throw e) []
    | Diverge => Wav.mkRun Diverge []
    end.
Proof.
  intros (Hlen & Hriff & Hwave) Hnc Hrate Hbits Hsize.
  unfold Wav.decodeWav.
  destruct (Nat.ltb_spec (length buffer) Wav.HEADER_SIZE) as [Hshort|_]; [lia|].
  rewrite Hriff, Hwave. unfold Wav.same_string.
  destruct (list_eq_dec Z.eq_dec Wav.tag_RIFF Wav.tag_RIFF) as [_|Hne]; [|congruence].
  destruct (list_eq_dec Z.eq_dec Wav.tag_WAVE Wav.tag_WAVE) as [_|Hne]; [|congruence].
  cbn [negb orb].
  rewrite Hnc, Hrate, Hbits, Hsize. cbn [bind]. reflexivity.
Qed.

Lemma mapM_newFloat32Array_errors (numSamples : Wav.quotient) (indices : list nat) :
  match mapM (fun _ : nat => Wav.newFloat32Array numSamples) indices with
  | Ok channels =>
      Forall (fun channel => exists n, channel = repeat 0%Q n) channels
  | Throw e => e = RangeError
  | Diverge => False
  end.
Proof.
  induction indices as [|i indices IH]; cbn [mapM]; [constructor|].
  destruct numSamples as [| |q]; cbn [Wav.newFloat32Array bind] in *;
    try reflexivity;
    destruct (mapM _ indices); cbn [bind]; try assumption;
    constructor; try assumption.
  - now exists 0.
  - eauto.
Qed.


Lemma decodeWav_invalid (buffer : Wav.Buffer) :
  ~ passes_initial_checks buffer ->
  Wav.decodeWav buffer = Wav.mkRun (Throw InvalidWav) [].
Proof.
  intros Hnot. unfold Wav.decodeWav.
  destruct (Nat.ltb_spec (length buffer) Wav.HEADER_SIZE) as [|Hlen]; [reflexivity|].
  unfold Wav.same_string.
  destruct (list_eq_dec Z.eq_dec (Wav.toString buffer 0 4) Wav.tag_RIFF) as [Hriff|];
    [|reflexivity].
  destruct (list_eq_dec Z.eq_dec (Wav.toString buffer 8 12) Wav.tag_WAVE) as [Hwave|];
    [|reflexivity].
  exfalso. apply Hnot. repeat split; assumption.
Qed.




(* ================================================================== *)
(** * WAV codec: degenerate headers and the range of decoded samples *)

#[local] Open Scope nat_scope.

(** X23.  [decodeWav] does not validate the header fields it divides by.
    With a non-empty data chunk, a header that announces no channel
    makes the sample loop run for ever (its bound is Infinity and its
    body reads nothing), and a header that announces 0 bits per sample
    for at least one channel makes the allocation of the first buffer
    throw a [RangeError]; no sample is read in either case. *)
Theorem decodeWav_degenerate_header (buffer : Wav.Buffer)
    (numChannels sampleRate bitsPerSample dataSize : Z) :
  passes_initial_checks buffer ->
  Wav.getUint16 buffer 22 = Ok numChannels ->
  Wav.getUint32 buffer 24 = Ok sampleRate ->
  Wav.getUint16 buffer 34 = Ok bitsPerSample ->
  Wav.getUint32 buffer 40 = Ok dataSize ->
  (0 <= numChannels)%Z -> dataSize <> 0%Z ->
  (numChannels = 0%Z -> Wav.decodeWav buffer = Wav.mkRun Diverge [])
  /\ (numChannels <> 0%Z -> bitsPerSample = 0%Z ->
      Wav.decodeWav buffer = Wav.mkRun (Throw RangeError) []).
Proof.
  intros Hchecks Hnc Hrate Hbits Hsize Hpos Hdata.
  rewrite (decodeWav_checked buffer _ _ _ _ Hchecks Hnc Hrate Hbits Hsize).
  cbv zeta. unfold Wav.divide.
  apply Z.eqb_neq in Hdata.
  split.
  - intros ->.
    assert (Hzero : Qeq_bool (inject_Z 0 * (inject_Z bitsPerSample / 8)) 0 = true)
      by apply Qeq_eq_bool, Qmult_0_l.
    rewrite Hzero, Hdata. reflexivity.
  - intros Hne ->.
    assert (Hzero : (inject_Z numChannels * (inject_Z 0 / 8) == 0)%Q).
    { unfold Qdiv. rewrite Qmult_0_l. apply Qmult_0_r. }
    rewrite (Qeq_eq_bool _ _ Hzero), Hdata.
    destruct (Z.to_nat numChannels) as [|k] eqn:Hk; [lia|].
    reflexivity.
Qed.

Lemma decodeWav_degenerate_header_witness :
  Wav.decodeWav zero_channel_wav = Wav.mkRun Diverge [].
Proof.
  refine (proj1 (decodeWav_degenerate_header zero_channel_wav 0 44100 16 4
                   _ _ _ _ _ _ _) _).
  - split; [vm_compute; lia | split; reflexivity].
  - reflexivity.
  - reflexivity.
  - reflexivity.
  - reflexivity.
  - lia.
  - discriminate.
  - reflexivity.
Defined.

(** ** The range of the samples *)

Lemma byteAt_range (buffer : Wav.Buffer) (offset : nat) :
  proper_bytes buffer -> (0 <= Wav.byteAt buffer offset < 256)%Z.
Proof.
  intros Hbytes. unfold Wav.byteAt.
  destruct (nth_in_or_default offset buffer 0%Z) as [Hin | ->]; [|lia].
  unfold proper_bytes in Hbytes. rewrite Forall_forall in Hbytes.
  exact (Hbytes _ Hin).
Qed.

Lemma getInt16_range (buffer : Wav.Buffer) (offset : nat) (int16 : Z) :
  proper_bytes buffer ->
  Wav.getInt16 buffer offset = Ok int16 ->
  (-32768 <= int16 <= 32767)%Z.
Proof.
  intros Hbytes. unfold Wav.getInt16, Wav.getUint16.
  destruct (offset + 2 <=? length buffer); cbn [bind]; [|discriminate].
  pose proof (byteAt_range buffer offset Hbytes).
  pose proof (byteAt_range buffer (offset + 1) Hbytes).
  change (2 ^ 15)%Z with 32768%Z. change (2 ^ 16)%Z with 65536%Z.
  set (u := (Wav.byteAt buffer offset + 256 * Wav.byteAt buffer (offset + 1))%Z).
  assert (0 <= u < 65536)%Z by (subst u; lia).
  clearbody u.
  intros Hvalue. injection Hvalue as <-.
  destruct (Z.ltb_spec u 32768); lia.
Qed.

Lemma int16_in_pcm_range (int16 : Z) :
  (-32768 <= int16 <= 32767)%Z -> in_pcm_range (int16 # 32768).
Proof.
  intros H. unfold in_pcm_range, Qle, Qlt. cbn [Qnum Qden]. lia.
Qed.

Lemma In_firstn {A : Type} (x : A) (n : nat) (l : list A) :
  In x (firstn n l) -> In x l.
Proof.
  intros H. rewrite <- (firstn_skipn n l). apply in_or_app. now left.
Qed.

Lemma In_skipn {A : Type} (x : A) (n : nat) (l : list A) :
  In x (skipn n l) -> In x l.
Proof.
  intros H. rewrite <- (firstn_skipn n l). apply in_or_app. now right.
Qed.

Lemma store_range (arrays : list (list Q)) (ch i : nat) (value : Q) :
  Forall (Forall in_pcm_range) arrays -> in_pcm_range value ->
  Forall (Forall in_pcm_range) (Wav.store arrays ch i value).
Proof.
  intros Harrays Hvalue. unfold Wav.store.
  destruct (nth_error arrays ch) as [channel|] eqn:Hch; [|assumption].
  destruct (i <? length channel); [|assumption].
  rewrite Forall_forall in Harrays.
  assert (Hchannel : Forall in_pcm_range channel)
    by (apply Harrays; exact (nth_error_In _ _ Hch)).
  rewrite Forall_forall in Hchannel.
  apply Forall_forall. intros column Hin.
  apply in_app_or in Hin. destruct Hin as [Hin | [<- | Hin]].
  - apply Harrays. exact (In_firstn _ _ _ Hin).
  - apply Forall_forall. intros x Hx.
    apply in_app_or in Hx. destruct Hx as [Hx | [<- | Hx]].
    + apply Hchannel. exact (In_firstn _ _ _ Hx).
    + exact Hvalue.
    + apply Hchannel. exact (In_skipn _ _ _ Hx).
  - apply Harrays. exact (In_skipn _ _ _ Hin).
Qed.

Lemma readSample_range (buffer : Wav.Buffer) (i ch : nat) (state : Wav.LoopState) :
  proper_bytes buffer ->
  Forall (Forall in_pcm_range) (Wav.arrays state) ->
  Forall (Forall in_pcm_range) (Wav.arrays (Wav.readSample buffer i ch state)).
Proof.
  intros Hbytes Hstate. unfold Wav.readSample.
  destruct (Wav.raised state); [assumption|].
  destruct (Wav.getInt16 buffer (Wav.offset state)) as [int16| |] eqn:Hread;
    cbn [Wav.arrays]; try assumption.
  apply store_range; [assumption|].
  apply int16_in_pcm_range. exact (getInt16_range buffer _ _ Hbytes Hread).
Qed.

Lemma sample_loop_range (buffer : Wav.Buffer) (rows numChannels : nat)
    (state : Wav.LoopState) :
  proper_bytes buffer ->
  Forall (Forall in_pcm_range) (Wav.arrays state) ->
  Forall (Forall in_pcm_range)
    (Wav.arrays
       (for_range rows 0
          (fun i state =>
             for_range numChannels 0
               (fun ch state => Wav.readSample buffer i ch state) state)
          state)).
Proof.
  intros Hbytes Hstate.
  change rows with (0 + rows) at 1.
  apply (for_range_invariant
           (fun _ state => Forall (Forall in_pcm_range) (Wav.arrays state)));
    [assumption|].
  intros i s _ Hs.
  change numChannels with (0 + numChannels) at 1.
  apply (for_range_invariant
           (fun _ state => Forall (Forall in_pcm_range) (Wav.arrays state)));
    [assumption|].
  intros ch s' _ Hs'. apply readSample_range; assumption.
Qed.

Lemma passes_or_not (buffer : Wav.Buffer) :
  passes_initial_checks buffer \/ ~ passes_initial_checks buffer.
Proof.
  unfold passes_initial_checks.
  destruct (le_dec Wav.HEADER_SIZE (length buffer)); [|tauto].
  destruct (list_eq_dec Z.eq_dec (Wav.toString buffer 0 4) Wav.tag_RIFF); [|tauto].
  destruct (list_eq_dec Z.eq_dec (Wav.toString buffer 8 12) Wav.tag_WAVE); tauto.
Qed.

Lemma zeros_range (channels : list (list Q)) :
  Forall (fun channel => exists n, channel = repeat 0%Q n) channels ->
  Forall (Forall in_pcm_range) channels.
Proof.
  apply Forall_impl. intros channel [n ->].
  apply Forall_forall. intros x Hx. apply repeat_spec in Hx. subst x.
  split; [discriminate|reflexivity].
Qed.

(** X24.  Whatever the bytes of the file are, every sample that
    [decodeWav] returns lies in [-1, 1): it is a signed 16-bit integer
    divided by 32768, or the zero of the allocation. *)
Theorem decodeWav_sample_range (buffer : Wav.Buffer) (decoded : Wav.Decoded) :
  proper_bytes buffer ->
  Wav.outcome (Wav.decodeWav buffer) = Ok decoded ->
  Forall (Forall in_pcm_range) (Wav.channels decoded).
Proof.
  intros Hbytes.
  destruct (passes_or_not buffer) as [Hchecks | Hnot];
    [|rewrite (decodeWav_invalid buffer Hnot); discriminate].
  destruct (header_reads buffer (proj1 Hchecks))
    as (numChannels & sampleRate & bitsPerSample & dataSize & Hnc & Hrate & Hbits & Hsize).
  rewrite (decodeWav_checked buffer _ _ _ _ Hchecks Hnc Hrate Hbits Hsize).
  cbv zeta.
  set (numSamples := Wav.divide _ _).
  pose proof (mapM_newFloat32Array_errors numSamples (seq 0 (Z.to_nat numChannels)))
    as Halloc.
  destruct (mapM _ (seq 0 (Z.to_nat numChannels))) as [channels|e'|];
    try (cbn [Wav.outcome]; discriminate).
  apply zeros_range in Halloc.
  destruct numSamples as [| |q]; try (cbn [Wav.outcome]; discriminate).
  - cbv beta iota zeta delta [for_range Wav.raised Wav.outcome Wav.arrays].
    intros H. injection H as <-. exact Halloc.
  - match goal with
    | |- context [Wav.raised ?final] =>
        pose proof (sample_loop_range buffer (Z.to_nat (Qceiling q))
                      (Z.to_nat numChannels)
                      (Wav.mkState channels Wav.HEADER_SIZE [] None) Hbytes Halloc)
          as Hfinal;
        destruct (Wav.raised final)
    end; cbn [Wav.outcome]; [discriminate|].
    intros H. injection H as <-. exact Hfinal.
Qed.

Lemma decodeWav_sample_range_witness :
  Forall (Forall in_pcm_range) [[(513 # 32768)%Q; (1027 # 32768)%Q]].
Proof.
  refine (decodeWav_sample_range (wav_header 1 44100 4 ++ [1; 2; 3; 4]%Z)
            (Wav.mkDecoded [[(513 # 32768)%Q; (1027 # 32768)%Q]] 44100) _ _).
  - unfold proper_bytes. vm_compute. repeat constructor; discriminate.
  - reflexivity.
Defined.

(* ================================================================== *)
(** * The track façade: silence and RMS *)

#[local] Open Scope float_scope.

Lemma mapM_length {A B : Type} (f : A -> result B) (xs : list A) :
  forall ys, mapM f xs = Ok ys -> length ys = length xs.
Proof.
  induction xs as [|x xs IH]; intros ys H; cbn [mapM] in H.
  - now injection H as <-.
  - destruct (f x) as [y| |]; cbn [bind] in H; try discriminate.
    destruct (mapM f xs) as [ys0| |]; cbn [bind] in H; try discriminate.
    injection H as <-. cbn [length]. now rewrite (IH ys0 eq_refl).
Qed.

Lemma truePeak_silent_track (host : Host) (channels : list Float32Array)
    (rate : float) :
  Forall (Forall is_zero_sample) channels ->
  AudioTrack.truePeak host (AudioTrack.mk channels rate) = 0.
Proof.
  unfold AudioTrack.truePeak. cbn [AudioTrack._channels AudioTrack._sampleRate].
  induction 1 as [|ch channels Hch _ IH]; [reflexivity|].
  cbn [fold_left]. rewrite (measureTruePeak_silence host ch rate Hch).
  exact IH.
Qed.

(** X25.  [AudioTrack.silence], whenever it returns a track, returns the
    requested number of channels (1 by default) at the requested rate
    (44100 by default), with buffers of one common length in which every
    sample is [+0]; the true peak of that track is 0.  This holds whatever
    the host is able to allocate. *)
Theorem silence_is_silent (host : Host) (capacity : nat) (durationMs : float)
    (sampleRate : option float) (channels : option nat) (track : AudioTrack.t) :
  AudioTrack.silence capacity durationMs sampleRate channels = Ok track ->
  AudioTrack.channels track = match channels with Some c => c | None => 1%nat end
  /\ AudioTrack.sampleRate track
     = match sampleRate with Some rate => rate | None => 44100 end
  /\ AudioTrack.I1 track
  /\ Forall (Forall (fun x => x = 0)) (AudioTrack._channels track)
  /\ AudioTrack.truePeak host track = 0.
Proof.
  unfold AudioTrack.silence.
  set (numSamples := JS.floor _).
  set (count := match channels with Some c => c | None => 1%nat end).
  destruct (mapM (fun _ : nat => F32.alloc capacity numSamples) (seq 0 count))
    as [chans| |] eqn:Halloc; cbn [bind]; try discriminate.
  intros H. injection H as <-.
  unfold AudioTrack.channels, AudioTrack.sampleRate, AudioTrack.I1.
  cbn [AudioTrack._channels AudioTrack._sampleRate].
  assert (Hzeros : Forall (Forall (fun x => x = 0)) chans).
  { apply Forall_forall. intros ch Hch.
    destruct (mapM_In _ _ _ Halloc ch Hch) as (i & _ & Hi).
    unfold F32.alloc in Hi.
    destruct (JS.ToIndex numSamples) as [n| |]; cbn [bind] in Hi; try discriminate.
    destruct (_ && _)%bool in Hi; [|discriminate].
    injection Hi as <-.
    apply Forall_forall. intros x Hx. exact (repeat_spec _ _ _ Hx). }
  split; [|split; [|split; [|split]]].
  - rewrite (mapM_length _ _ _ Halloc). apply length_seq.
  - now destruct sampleRate.
  - intros a b Ha Hb.
    destruct (mapM_In _ _ _ Halloc a Ha) as (i & _ & Hi).
    destruct (mapM_In _ _ _ Halloc b Hb) as (j & _ & Hj).
    congruence.
  - exact Hzeros.
  - apply truePeak_silent_track.
    revert Hzeros. apply Forall_impl. intros ch.
    apply Forall_impl. intros x ->. now left.
Qed.

Lemma silence_is_silent_witness :
  AudioTrack.truePeak constant_host
    (AudioTrack.mk [repeat 0 (Z.to_nat 10); repeat 0 (Z.to_nat 10)] 1000) = 0.
Proof.
  refine (proj2 (proj2 (proj2 (proj2
            (silence_is_silent constant_host 1000 10 (Some 1000) (Some 2%nat)
               (AudioTrack.mk [repeat 0 (Z.to_nat 10); repeat 0 (Z.to_nat 10)] 1000)
               _))))).
  reflexivity.
Defined.

(** ** RMS *)

Lemma rms_accumulators_empty (channels : list Float32Array) :
  Forall (fun ch => ch = []) channels ->
  fold_left
    (fun '(sumSquares, totalSamples) ch =>
       (for_range (List.length ch) 0
          (fun i sumSquares => sumSquares + F32.get ch i * F32.get ch i)
          sumSquares,
        totalSamples + JS.of_nat (List.length ch)))
    channels (0, 0)
  = (0, 0).
Proof.
  induction 1 as [|ch channels -> _ IH]; [reflexivity|].
  cbn [fold_left]. exact IH.
Qed.

(** X26.  [rms()] of a track without samples is NaN: when there is no
    channel, or when every buffer is empty, the sum of squares 0 is
    divided by the sample count 0. *)
Theorem rms_without_samples (track : AudioTrack.t) :
  Forall (fun ch => ch = []) (AudioTrack._channels track) ->
  AudioTrack.rms track = nan.
Proof.
  intros H. unfold AudioTrack.rms.
  rewrite (rms_accumulators_empty _ H). reflexivity.
Qed.

Lemma rms_without_samples_witness :
  AudioTrack.rms (AudioTrack.mk [[]; []] 44100) = nan.
Proof.
  apply rms_without_samples. repeat constructor.
Defined.

(* ================================================================== *)
(** * K-weighting of silence *)

#[local] Open Scope float_scope.

(** X27.  K-weighting turns digital silence into digital silence: at
    44100 Hz and 48000 Hz, when every input sample is [+0] or [-0], so is
    every output sample of [applyKWeighting]. *)
Theorem applyKWeighting_of_silence (samples : Float32Array) (rate : float) :
  supported rate -> Forall is_zero_sample samples ->
  exists out, KWeighting.applyKWeighting samples rate = Ok out
              /\ length out = length samples
              /\ Forall is_zero_sample out.
Proof.
  intros Hrate Hsilent.
  destruct (applyKWeighting_supported samples rate Hrate) as (out & Hout & Hlen & Hzero).
  exists out. auto.
Qed.

Lemma applyKWeighting_of_silence_witness :
  exists out, KWeighting.applyKWeighting [0; -0; 0] 48000 = Ok out
              /\ length out = 3%nat
              /\ Forall is_zero_sample out.
Proof.
  apply (applyKWeighting_of_silence [0; -0; 0] 48000).
  - right. reflexivity.
  - constructor; [now left|]. constructor; [now right|].
    constructor; [now left|constructor].
Defined.

(* ================================================================== *)
(** * Fade-in *)

Lemma SFltb_zero_positive (x : spec_float) :
  SFltb (S754_zero false) x = true ->
  (exists m e, x = S754_finite false m e) \/ x = S754_infinity false.
Proof.
  intros H. destruct x as [s|s| |s m e]; try destruct s; try discriminate; eauto.
Qed.

Lemma zero_div_positive (x : float) : (0 <? x) = true -> 0 / x = 0.
Proof.
  intros H. rewrite FloatAxioms.ltb_spec in H.
  apply Prim2SF_inj. rewrite FloatAxioms.div_spec.
  change (Prim2SF 0) with (S754_zero false) in *.
  destruct (SFltb_zero_positive _ H) as [(m & e & ->) | ->]; reflexivity.
Qed.

Lemma fadeInChannel_first (fadeSamples x : float) (rest : Float32Array) :
  (0 <? fadeSamples) = true ->
  F32.get (Transforms.fadeInChannel fadeSamples (x :: rest)) 0 = JS.fround (x * 0).
Proof.
  intros Hfade. unfold Transforms.fadeInChannel.
  rewrite (fill_zeros
             (fun i => F32.get (x :: rest) i
                       * (if JS.of_nat i <? fadeSamples
                          then JS.of_nat i / fadeSamples else 1))).
  cbn [length seq map F32.get nth].
  change (JS.of_nat 0) with 0. rewrite Hfade.
  now rewrite (zero_div_positive fadeSamples Hfade).
Qed.

(** X28.  A fade-in starts from silence: when the fade lasts at least
    one sample, the first output sample of every channel that begins
    with a finite sample is a zero. *)
Theorem applyFadeIn_starts_silent (channels : list Float32Array)
    (sampleRate ms x : float) (rest : Float32Array) (k : nat) :
  (0 <? JS.floor ((ms / 1000) * sampleRate)) = true ->
  nth_error channels k = Some (x :: rest) ->
  is_finite x = true ->
  exists out,
    nth_error (Transforms.applyFadeIn channels sampleRate ms) k = Some out
    /\ is_zero_sample (F32.get out 0).
Proof.
  intros Hfade Hk Hx. unfold Transforms.applyFadeIn.
  eexists. split.
  - rewrite nth_error_map, Hk. reflexivity.
  - rewrite (fadeInChannel_first _ x rest Hfade).
    exact (finite_times_zero x Hx).
Qed.

Lemma applyFadeIn_starts_silent_witness :
  exists out,
    nth_error (Transforms.applyFadeIn [[0.5; 0.5; 0.5]; [-1; 1; -1]] 1000 2) 1 = Some out
    /\ is_zero_sample (F32.get out 0).
Proof.
  apply (applyFadeIn_starts_silent [[0.5; 0.5; 0.5]; [-1; 1; -1]] 1000 2 (-1) [1; -1] 1);
    reflexivity.
Defined.

(* ================================================================== *)
(** * WAV codec: a second trip through the codec *)

#[local] Open Scope Q_scope.

Lemma truncate_decoded (c : Q) (z : Z) :
  c == z # 32768 -> (-32768 <= z <= 32767)%Z ->
  Wav.truncate (if Qlt_le_dec c 0 then c * 32768 else c * 32767)
  = second_generation z.
Proof.
  destruct c as [n d]. unfold Qeq. cbn [Qnum Qden]. intros Heq Hz.
  unfold second_generation.
  destruct (Qlt_le_dec (n # d) 0) as [Hneg | Hpos].
  - unfold Qlt in Hneg. cbn [Qnum Qden] in Hneg.
    unfold Wav.truncate, Qmult. cbn [Qnum Qden]. rewrite Pos.mul_1_r.
    destruct (Z.ltb_spec 0 z); [nia|].
    rewrite Heq. apply Z.quot_mul. lia.
  - unfold Qle in Hpos. cbn [Qnum Qden] in Hpos.
    unfold Wav.truncate, Qmult. cbn [Qnum Qden]. rewrite Pos.mul_1_r.
    destruct (Z.ltb_spec 0 z) as [Hz0 | Hz0].
    + symmetry. apply (Z.quot_unique _ _ _ (Zpos d - n)%Z); nia.
    + assert (n = 0%Z) by nia. subst n.
      assert (z = 0%Z) by nia. subst z. reflexivity.
Qed.

Lemma requantize_decoded (z : Z) :
  (-32768 <= z <= 32767)%Z ->
  requantize (z # 32768) = second_generation z # 32768.
Proof.
  intros Hz. unfold requantize, Wav.int16_of_sample. cbv zeta.
  assert (Hc : Qmax (-1) (Qmin 1 (z # 32768)) == z # 32768).
  { apply clamp_id; unfold Qle; cbn [Qnum Qden]; lia. }
  rewrite (truncate_decoded _ z Hc Hz).
  rewrite signed16; [reflexivity|].
  unfold second_generation. destruct (Z.ltb_spec 0 z); lia.
Qed.

Lemma requantize_pcm_samples (ints : list (list Z)) :
  Forall (Forall (fun z => (-32768 <= z <= 32767)%Z)) ints ->
  map (map requantize) (pcm_samples ints)
  = pcm_samples (map (map second_generation) ints).
Proof.
  unfold pcm_samples.
  induction 1 as [|column ints Hcolumn _ IH]; [reflexivity|].
  cbn [map]. rewrite IH. f_equal.
  rewrite !map_map.
  induction Hcolumn as [|z column Hz _ IHc]; [reflexivity|].
  cbn [map]. now rewrite IHc, requantize_decoded.
Qed.

(** X29.  Encoding is not a right inverse of decoding: when decoded
    samples, the 16-bit integers [z] over 32768, are encoded and decoded
    again, zero and the negative samples come back unchanged and every
    positive sample comes back one step lower, as [(z - 1) / 32768]. *)
Theorem wav_second_generation (ints0 : list Z) (intsRest : list (list Z)) (rate : Z) :
  let ints := ints0 :: intsRest in
  Forall (Forall (fun z => (-32768 <= z <= 32767)%Z)) ints ->
  (Z.of_nat (length ints) < 2 ^ 16)%Z ->
  Forall (fun column => length column = length ints0) ints ->
  (Z.of_nat (length ints0 * length ints * 2) < 2 ^ 32)%Z ->
  (0 <= rate < 2 ^ 32)%Z ->
  exists buffer,
    Wav.encodeWav (pcm_samples ints) rate = Ok buffer
    /\ Wav.outcome (Wav.decodeWav buffer)
       = Ok (Wav.mkDecoded (pcm_samples (map (map second_generation) ints)) rate).
Proof.
  intros ints Hrange Hcount Hlen Hsize Hrate.
  rewrite <- (requantize_pcm_samples ints Hrange).
  subst ints. unfold pcm_samples in *. cbn [map] in *.
  apply (decode_encode (map (fun z => z # 32768) ints0)
           (map (map (fun z => z # 32768)) intsRest) rate).
  - cbn [length] in *. now rewrite length_map.
  - rewrite length_map.
    change (map (fun z => z # 32768) ints0 :: map (map (fun z => z # 32768)) intsRest)
      with (map (map (fun z => z # 32768)) (ints0 :: intsRest)).
    apply Forall_map. revert Hlen. apply Forall_impl.
    intros column Hcolumn. now rewrite length_map.
  - cbn [length] in *. now rewrite !length_map.
  - exact Hrate.
Qed.

Lemma wav_second_generation_witness :
  exists buffer,
    Wav.encodeWav [[16384 # 32768; -8192 # 32768; 0 # 32768; 1 # 32768]] 44100
    = Ok buffer
    /\ Wav.outcome (Wav.decodeWav buffer)
       = Ok (Wav.mkDecoded
               [[16383 # 32768; -8192 # 32768; 0 # 32768; 0 # 32768]] 44100).
Proof.
  apply (wav_second_generation [16384; -8192; 0; 1]%Z [] 44100).
  - repeat constructor; cbn; lia.
  - cbn. lia.
  - repeat constructor.
  - cbn. lia.
  - lia.
Defined.

(* ================================================================== *)
(** * speed: lengths and errors *)

#[local] Open Scope float_scope.

Lemma ToIndex_errors (x : float) (e : error) :
  JS.ToIndex x = Throw e -> e = RangeError.
Proof.
  unfold JS.ToIndex.
  destruct (JS.ToIntegerOrInfinity x) as [|z|]; try congruence.
  destruct ((0 <=? z)%Z && (z <=? 2 ^ 53 - 1)%Z); congruence.
Qed.

Lemma ToIndex_returns (x : float) : JS.ToIndex x <> Diverge.
Proof.
  unfold JS.ToIndex.
  destruct (JS.ToIntegerOrInfinity x) as [|z|]; try discriminate.
  destruct ((0 <=? z)%Z && (z <=? 2 ^ 53 - 1)%Z); discriminate.
Qed.

Lemma changeSpeedChannel_cases (capacity : nat) (rate : float) (ch : Float32Array) :
  match Transforms.changeSpeedChannel capacity rate ch with
  | Ok out => speed_length rate ch = Ok (length out) /\ granted capacity (length out)
  | Throw e =>
      e = RangeError
      /\ match speed_length rate ch with
         | Ok n => ~ granted capacity n
         | _ => True
         end
  | Diverge => False
  end.
Proof.
  destruct (Transforms.changeSpeedChannel capacity rate ch) as [out|e|] eqn:Hout.
  - exact (changeSpeedChannel_length capacity rate ch out Hout).
  - unfold Transforms.changeSpeedChannel, F32.alloc in Hout.
    unfold speed_length, granted.
    destruct (JS.ToIndex (JS.round (JS.of_nat (length ch) / rate))) as [n|e'|] eqn:Hn;
      cbn [bind] in Hout.
    + destruct (Z.leb_spec (4 * Z.of_nat n) (2 ^ 53 - 1));
        destruct (Nat.leb_spec n capacity); cbn [andb] in Hout;
        try discriminate; injection Hout as <-; split; try reflexivity; lia.
    + injection Hout as <-. split; [|exact I].
      exact (ToIndex_errors _ _ Hn).
    + discriminate.
  - unfold Transforms.changeSpeedChannel, F32.alloc in Hout.
    destruct (JS.ToIndex (JS.round (JS.of_nat (length ch) / rate))) as [n|e'|] eqn:Hn;
      cbn [bind] in Hout.
    + destruct (_ && _)%bool in Hout; discriminate.
    + discriminate.
    + exact (ToIndex_returns _ Hn).
Qed.

(** X30.  [changeSpeed] asks, for every channel, for a buffer of
    [Math.round(length / rate)] samples.  Whenever it returns, every
    buffer returned has that length, a length the host allocates.
    Otherwise it throws a [RangeError]: for a channel whose new length is
    no array length (it is negative, infinite or above 2^53 - 1), takes
    more than 2^53 - 1 bytes, or is more than the host grants.  It has no
    other outcome: no other exception and no endless loop. *)
Theorem changeSpeed_outcome (capacity : nat) (channels : list Float32Array)
    (rate : float) :
  match Transforms.changeSpeed capacity channels rate with
  | Ok out =>
      mapM (speed_length rate) channels = Ok (shape out)
      /\ Forall (granted capacity) (shape out)
  | Throw e =>
      e = RangeError
      /\ exists ch,
           In ch channels
           /\ match speed_length rate ch with
              | Ok n => ~ granted capacity n
              | _ => True
              end
  | Diverge => False
  end.
Proof.
  unfold Transforms.changeSpeed.
  induction channels as [|ch channels IH]; [split; [reflexivity|constructor]|].
  cbn [mapM].
  pose proof (changeSpeedChannel_cases capacity rate ch) as Hch.
  destruct (Transforms.changeSpeedChannel capacity rate ch) as [out|e|];
    cbn [bind]; [| |contradiction].
  - destruct Hch as [Hlen Hgranted]. rewrite Hlen. cbn [bind].
    destruct (mapM (Transforms.changeSpeedChannel capacity rate) channels)
      as [outs|e|]; cbn [bind].
    + destruct IH as [-> Hall]. cbn [bind shape map]. split; [reflexivity|].
      constructor; assumption.
    + destruct IH as (-> & ch' & Hin & Hthrow).
      split; [reflexivity|]. exists ch'. split; [now right|assumption].
    + contradiction.
  - destruct Hch as [-> Hthrow].
    split; [reflexivity|]. exists ch. split; [now left|assumption].
Qed.
